(** * colorblend: gradient progress, hue paths and rendering

    A shallow embedding of the two command-line programs held in [main.go]
    (the cobra command and the flag-package command) together with the
    properties of their progress mapping, hue-delta selection, channel
    clamping, validation and rendering loop.  The third program of the
    file, the plain RGB filter, is not embedded: its [hexToRGB] assigns the
    [int64] results of [strconv.ParseInt] to [int] variables, so that
    program does not compile.

    Numbers.  There are two layers.  In the first one a [float64] value is
    the rational it denotes and [+], [-], [*], [/] are the exact field
    operations; two floats are equal when they are [==].  [math.Round],
    [math.Mod], [math.Max] and [math.Min] are written out with their Go
    semantics on finite values (round half away from zero, remainder with
    the sign of the dividend).  The rendering loops, the hue arithmetic and
    the channel conversion are embedded in this layer, and the properties
    stated over it are ranges, orders, signs and exact end values.  In the
    second layer, module [Binary64], the progress computations are repeated
    with every operation rounded to the nearest binary64 value; what
    depends on that rounding, the level a quantized progress falls on, is
    stated there.  NaN and the infinities have no counterpart in either
    layer.  Go's [int] values are slice lengths, loop indices and a flag
    value that is only compared and converted, so they are plain [Z].

    Text.  A line is a [list rune] as produced by [[]rune(string(lineBytes))];
    standard output is the sequence of code points written to it. *)

From Stdlib Require Import ZArith QArith Qround Qabs String Ascii List Bool.
From Stdlib Require Import Qpower Lia Lqa DecimalString.
Import ListNotations.

Local Open Scope Z_scope.
Local Open Scope Q_scope.

(** ** Go's [math] functions on finite values *)

Module GoMath.

Abbreviation float64 := Q (only parsing).

(** [float64(n)] for an [int] [n]. *)
Definition ofInt (n : Z) : float64 := inject_Z n.

Definition gtb (x y : float64) : bool := negb (Qle_bool x y).
Definition ltb (x y : float64) : bool := negb (Qle_bool y x).

(** Truncation toward zero, the integer part used by [math.Mod] and by a
    float-to-integer conversion. *)
Definition trunc (x : float64) : Z :=
  if Qle_bool 0 x then Qfloor x else Qceiling x.

(** [math.Round]: nearest integer, halves away from zero. *)
Definition RoundZ (x : float64) : Z :=
  if Qle_bool 0 x then Qfloor (x + (1 # 2)) else Qceiling (x - (1 # 2)).

Definition Round (x : float64) : float64 := inject_Z (RoundZ x).

(** [math.Mod(x, y)]: [x - y*trunc(x/y)], so the result carries the sign of
    [x] and has magnitude below [|y|]. *)
Definition Mod (x y : float64) : float64 := x - y * inject_Z (trunc (x / y)).

Definition Max (x y : float64) : float64 := if Qle_bool x y then y else x.
Definition Min (x y : float64) : float64 := if Qle_bool x y then x else y.

End GoMath.

Import GoMath.

(** ** GradientProgressMapper: the progress of one gradient unit *)

(** [progress := 0.0; if totalGradientUnits > 1 { progress =
    float64(position) / float64(totalGradientUnits-1) }], the computation
    repeated for the horizontal counter and for the line index in the cobra
    and flag variants and for the rune index in the plain one. *)
Definition unitProgress (position totalUnits : Z) : float64 :=
  if (1 <? totalUnits)%Z
  then ofInt position / ofInt (totalUnits - 1)
  else 0.

(** [if invert { progress = 1.0 - progress }] *)
Definition applyInvert (invert : bool) (progress : float64) : float64 :=
  if invert then 1 - progress else progress.

(** [if steps > 0 { progress = math.Round(progress*float64(steps)) /
    float64(steps) }] in exact arithmetic; [Binary64.applySteps] below is
    the same line with its float64 roundings. *)
Definition applySteps (steps : Z) (progress : float64) : float64 :=
  if (0 <? steps)%Z
  then Round (progress * ofInt steps) / ofInt steps
  else progress.

Definition progressFor (position totalUnits : Z) (invert : bool) (steps : Z)
  : float64 :=
  applySteps steps (applyInvert invert (unitProgress position totalUnits)).

(** ** The progress computations in binary64 arithmetic

    The same three computations with every [float64] operation rounded as
    IEEE 754 does: to the nearest binary64 value, ties to the even
    significand (53 significant bits, subnormal spacing 2^-1074).  A value
    is the rational it denotes; overflow to an infinity is not modelled,
    and every quantity below is bounded by the step count or by 1.  The
    two divisions are made by [float64(totalGradientUnits-1)] under
    [totalGradientUnits > 1] and by [float64(steps)] under [steps > 0], so
    no divisor is zero. *)

Module Binary64.

(** [2^z] *)
Definition pow2 (z : Z) : Q := Qpower 2 z.

(** The binary exponent of a positive rational: [2^e <= x < 2^(e+1)]. *)
Definition ilog2 (x : Q) : Z :=
  let e := (Z.log2 (Qnum x) - Z.log2 (Zpos (Qden x)))%Z in
  if Qle_bool (pow2 e) x then e else (e - 1)%Z.

(** The nearest integer, ties to even. *)
Definition rne (y : Q) : Z :=
  let f := Qfloor y in
  match Qcompare (y - inject_Z f) (1 # 2) with
  | Lt => f
  | Gt => (f + 1)%Z
  | Eq => if Z.even f then f else (f + 1)%Z
  end.

(** The exponent of the last place of the binary64 values next to [x]. *)
Definition quantum (x : Q) : Z := Z.max (ilog2 (Qabs x) - 52) (-1074).

(** The binary64 value nearest to [x]. *)
Definition rnd (x : Q) : float64 :=
  let q := quantum x in inject_Z (rne (x / pow2 q)) * pow2 q.

(** [float64(n)] *)
Definition ofInt (n : Z) : float64 := rnd (inject_Z n).

Definition mul (x y : float64) : float64 := rnd (x * y).
Definition div (x y : float64) : float64 := rnd (x / y).
Definition sub (x y : float64) : float64 := rnd (x - y).

(** [progress = float64(position) / float64(totalGradientUnits-1)] *)
Definition unitProgress (position totalUnits : Z) : float64 :=
  if (1 <? totalUnits)%Z
  then div (ofInt position) (ofInt (totalUnits - 1))
  else 0.

(** [progress = 1.0 - progress] *)
Definition applyInvert (invert : bool) (progress : float64) : float64 :=
  if invert then sub 1 progress else progress.

(** [progress = math.Round(progress*float64(steps)) / float64(steps)];
    [math.Round] returns an integer, which is a binary64 value as long as
    its argument is below 2^53. *)
Definition applySteps (steps : Z) (progress : float64) : float64 :=
  if (0 <? steps)%Z
  then div (Round (mul progress (ofInt steps))) (ofInt steps)
  else progress.

Definition progressFor (position totalUnits : Z) (invert : bool) (steps : Z)
  : float64 :=
  applySteps steps (applyInvert invert (unitProgress position totalUnits)).

End Binary64.

(** ** Hue delta of [blendHCLWithDirection] *)

Local Open Scope string_scope.

Definition oneOf (s : string) (names : list string) : bool :=
  existsb (String.eqb s) names.

(** The [deltaH = h2 - h1; if deltaH > 180 {..} else if deltaH < -180 {..}]
    block, shared by the "shortest" case and the [default] case. *)
Definition shortestDelta (h1 h2 : float64) : float64 :=
  let deltaH := h2 - h1 in
  if gtb deltaH 180 then deltaH - 360
  else if ltb deltaH (-180) then deltaH + 360
  else deltaH.

(** The [switch hueDirection] of [blendHCLWithDirection], on hues already
    normalized by [math.Mod(h+360, 360)], in exact arithmetic: the float64
    sums [h2-h1+360] and [h1-h2+360] absorb a difference that is tiny
    against 360, which the rational sums do not. *)
Definition hueDelta (hueDirection : string) (h1 h2 : float64) : float64 :=
  if oneOf hueDirection ["shortest"; "short"; "sh"] then
    shortestDelta h1 h2
  else if oneOf hueDirection ["clockwise"; "cw"] then
    Mod (h2 - h1 + 360) 360
  else if oneOf hueDirection ["counter-clockwise"; "counterclockwise"; "ccw"] then
    - Mod (h1 - h2 + 360) 360
  else
    shortestDelta h1 h2.

(** ** Text and process outcome *)

Definition rune : Set := Z.

(** The code points of an ASCII format fragment. *)
Definition runes (s : string) : list rune :=
  map (fun a => Z.of_nat (nat_of_ascii a)) (list_ascii_of_string s).

Definition ESC : string := String "027"%char "".
Definition LF : string := String "010"%char "".

(** The full reset written by [fmt.Printf("\x1b[0m\n")]. *)
Definition resetLine : string := ESC ++ "[0m" ++ LF.

(** [%d] *)
Definition fmtD (n : Z) : string := NilZero.string_of_int (Z.to_int n).

(** [fmt.Sprintf("38;2;%d;%d;%dm", r, g, b)] *)
Definition colorPartOf (r g b : Z) : string :=
  "38;2;" ++ fmtD r ++ ";" ++ fmtD g ++ ";" ++ fmtD b ++ "m".

(** Errors returned by the [getGradientColor] functions. *)
Inductive GradientError : Set :=
| InvalidStartHex (hex : string)
| InvalidEndHex (hex : string)
| UnsupportedColorspace (name : string).

(** What is written to standard error, one entry per [Fprintf] or usage
    print. *)
Inductive Diag : Set :=
| ErrStartColor (value : string)
| ErrEndColor (value : string)
| ErrGradientDirection (value : string)
| ErrColorspace (value : string)
| ErrHueDirection (value : string)
| ErrNegativeSteps
| ErrUnexpectedArgs (args : list string)
| ErrReadStdin
| ErrGradientColor (e : GradientError)
| ErrGradientColorEmptyLine (e : GradientError)
| UsageText.

Record Outcome : Set := mkOutcome {
  stdout : list rune;
  stderr : list Diag;
  exitCode : Z
}.

(** Standard input as the read loop sees it: the lines before [io.EOF], or
    a read error. *)
Inductive Stdin : Set :=
| Lines (lines : list (list rune))
| ReadFailure.

(** A fragment of the rendering loop: it has written [out] and either goes
    on with a value, or has printed a diagnostic and called [os.Exit(1)]. *)
Inductive Emit (A : Type) : Type :=
| Written (out : list rune) (a : A)
| Died (out : list rune) (d : Diag).

Arguments Written {A} out a.
Arguments Died {A} out d.

Definition bind {A B : Type} (m : Emit A) (k : A -> Emit B) : Emit B :=
  match m with
  | Written out a =>
      match k a with
      | Written out' b => Written (out ++ out') b
      | Died out' d => Died (out ++ out') d
      end
  | Died out d => Died out d
  end.

Notation "x <- m ;; k" := (bind m (fun x => k))
  (at level 61, m at next level, right associativity).

Definition print (s : list rune) : Emit unit := Written s tt.

Definition len {A : Type} (l : list A) : Z := Z.of_nat (List.length l).

(** ** The color library's value type

    [colorful.Color] is a struct of three [float64] channels, nominally in
    the unit interval.  [Clamped] and [RGB255] are its two methods that turn
    an interpolated color into the three bytes that are printed. *)

Module colorful.

Record Color : Set := mkColor { R : float64; G : float64; B : float64 }.

Definition clamp01 (v : float64) : float64 := Max 0 (Min v 1).

Definition Clamped (c : Color) : Color :=
  mkColor (clamp01 (R c)) (clamp01 (G c)) (clamp01 (B c)).

(** [uint8(x)]: truncation; outside the range of the type the conversion is
    written as the wrap-around to eight bits. *)
Definition uint8 (x : float64) : Z := (trunc x mod 256)%Z.

(** [r = uint8(col.R*255.0 + 0.5)], and the same for [g] and [b]. *)
Definition RGB255 (c : Color) : Z * Z * Z :=
  (uint8 (R c * 255 + (1 # 2)),
   uint8 (G c * 255 + (1 # 2)),
   uint8 (B c * 255 + (1 # 2))).

(** Channelwise equality of colors. *)
Definition Ceq (c d : Color) : Prop :=
  R c == R d /\ G c == G d /\ B c == B d.

End colorful.

Import colorful.

(** ** The cobra variant (first program of [main.go]) *)

Module Cobra.

(** The package-level flag variables. *)
Record Flags : Set := mkFlags {
  startColor : string;
  endColor : string;
  gradientDirection : string;
  hueDirection : string;
  steps : Z;
  invert : bool
}.

Section WithLibrary.

(** The color library's parser and HCL conversions: [colorful.Hex] (with
    [None] for a returned error), the method [Color.Hcl] and the
    constructor [colorful.Hcl]. *)
Variable Hex : string -> option Color.
Variable Color_Hcl : Color -> float64 * float64 * float64.
Variable Hcl : float64 -> float64 -> float64 -> Color.

Definition blendHCLWithDirection (c1 c2 : Color) (t : float64)
    (hueDirection : string) : Color :=
  let '(h1, c1Chroma, l1) := Color_Hcl c1 in
  let '(h2, c2Chroma, l2) := Color_Hcl c2 in
  let h1 := Mod (h1 + 360) 360 in
  let h2 := Mod (h2 + 360) 360 in
  let deltaH := hueDelta hueDirection h1 h2 in
  let h := Mod (h1 + t * deltaH + 360) 360 in
  let c := c1Chroma + t * (c2Chroma - c1Chroma) in
  let l := l1 + t * (l2 - l1) in
  Hcl h c l.

Definition getGradientColor (progress : float64)
    (startHex endHex hueDirection : string) : GradientError + string :=
  match Hex startHex with
  | None => inl (InvalidStartHex startHex)
  | Some startColor =>
      match Hex endHex with
      | None => inl (InvalidEndHex endHex)
      | Some endColor =>
          let interpolated :=
            blendHCLWithDirection startColor endColor progress hueDirection in
          let '(r, g, b) := RGB255 (Clamped interpolated) in
          inr (colorPartOf r g b)
      end
  end.

Variable f : Flags.

(** [gradientDirection == "vertical" && len(line) == 0 &&
    totalGradientUnits > 1] *)
Definition coloredEmptyLine (totalGradientUnits : Z) (line : list rune) : bool :=
  (gradientDirection f =? "vertical")%string
  && (len line =? 0)%Z && (1 <? totalGradientUnits)%Z.

(** The body of the [if] that opens the line loop, up to its [continue]. *)
Definition renderEmptyLine (totalGradientUnits lineIndex : Z) : Emit unit :=
  let progress := unitProgress lineIndex totalGradientUnits in
  let progress := applyInvert (invert f) progress in
  let progress := applySteps (steps f) progress in
  match getGradientColor progress (startColor f) (endColor f) (hueDirection f) with
  | inl e => Died [] (ErrGradientColorEmptyLine e)
  | inr colorPart => print (runes (ESC ++ "[" ++ colorPart ++ LF))
  end.

(** One iteration of [for _, char := range line]; the value is the updated
    [charCountHorizontal]. *)
Definition renderChar (totalGradientUnits lineIndex charCountHorizontal : Z)
    (char : rune) : Emit Z :=
  let '(progress, charCountHorizontal) :=
    if (gradientDirection f =? "horizontal")%string
    then (unitProgress charCountHorizontal totalGradientUnits,
          (charCountHorizontal + 1)%Z)
    else (unitProgress lineIndex totalGradientUnits, charCountHorizontal) in
  let progress := applyInvert (invert f) progress in
  let progress := applySteps (steps f) progress in
  match getGradientColor progress (startColor f) (endColor f) (hueDirection f) with
  | inl e => Died [] (ErrGradientColor e)
  | inr colorPart =>
      Written (runes (ESC ++ "[" ++ colorPart) ++ [char]) charCountHorizontal
  end.

Fixpoint renderChars (totalGradientUnits lineIndex charCountHorizontal : Z)
    (line : list rune) : Emit Z :=
  match line with
  | [] => Written [] charCountHorizontal
  | char :: rest =>
      n <- renderChar totalGradientUnits lineIndex charCountHorizontal char ;;
      renderChars totalGradientUnits lineIndex n rest
  end.

(** One iteration of [for lineIndex, line := range lines]. *)
Definition renderLine (totalGradientUnits lineIndex charCountHorizontal : Z)
    (line : list rune) : Emit Z :=
  if coloredEmptyLine totalGradientUnits line then
    _ <- renderEmptyLine totalGradientUnits lineIndex ;;
    Written [] charCountHorizontal
  else
    n <- renderChars totalGradientUnits lineIndex charCountHorizontal line ;;
    _ <- (if negb (coloredEmptyLine totalGradientUnits line)
          then print (runes LF) else print []) ;;
    Written [] n.

Fixpoint renderLines (totalGradientUnits lineIndex charCountHorizontal : Z)
    (lines : list (list rune)) : Emit Z :=
  match lines with
  | [] => Written [] charCountHorizontal
  | line :: rest =>
      n <- renderLine totalGradientUnits lineIndex charCountHorizontal line ;;
      renderLines totalGradientUnits (lineIndex + 1)%Z n rest
  end.

(** [for _, line := range lines { totalGradientUnits += len(line) }] *)
Definition totalChars (lines : list (list rune)) : Z :=
  fold_left (fun total line => (total + len line)%Z) lines 0%Z.

(** A validation failure: message, [cmd.Usage()], [os.Exit(1)]. *)
Definition reject (d : Diag) : Outcome := mkOutcome [] [d; UsageText] 1.

(** The part of [Run] that follows the read loop. *)
Definition render (lines : list (list rune)) : Outcome :=
  if (len lines =? 0)%Z then mkOutcome (runes resetLine) [] 0
  else
    let horizontal := (gradientDirection f =? "horizontal")%string in
    let totalGradientUnits :=
      if horizontal then totalChars lines else len lines in
    if horizontal && (totalGradientUnits =? 0)%Z then
      mkOutcome (concat (map (fun _ => runes resetLine) lines)) [] 0
    else
      match renderLines totalGradientUnits 0 0 lines with
      | Written out _ => mkOutcome (out ++ runes resetLine) [] 0
      | Died out d => mkOutcome out [d] 1
      end.

(** The checks that open [Run], in their order; [Some d] is the diagnostic
    of the first one that fails. *)
Definition validate (args : list string) : option Diag :=
  match Hex (startColor f) with
  | None => Some (ErrStartColor (startColor f))
  | Some _ =>
  match Hex (endColor f) with
  | None => Some (ErrEndColor (endColor f))
  | Some _ =>
  if negb (gradientDirection f =? "horizontal")%string
     && negb (gradientDirection f =? "vertical")%string
  then Some (ErrGradientDirection (gradientDirection f))
  else if (steps f <? 0)%Z then Some ErrNegativeSteps
  else if (0 <? len args)%Z then Some (ErrUnexpectedArgs args)
  else None
  end end.

(** [rootCmd.Run]: the validations, the read loop, the rendering. *)
Definition Run (args : list string) (input : Stdin) : Outcome :=
  match validate args with
  | Some d => reject d
  | None =>
      match input with
      | ReadFailure => mkOutcome [] [ErrReadStdin] 1
      | Lines lines => render lines
      end
  end.

End WithLibrary.

End Cobra.

(** ** The flag-package variant (second program of [main.go]) *)

Module FlagCli.

Record Flags : Set := mkFlags {
  showHelp : bool;
  showVersion : bool;
  startColor : string;
  endColor : string;
  gradientDirection : string;
  colorspace : string;
  hueDirection : string;
  steps : Z;
  invert : bool
}.

Section WithLibrary.

(** [colorful.Hex] and the three blending methods of [colorful.Color]. *)
Variable Hex : string -> option Color.
Variable BlendRgb BlendHcl BlendLab : Color -> Color -> float64 -> Color.

(** The [hueDirection] argument is accepted and never read. *)
Definition getGradientColor (progress : float64)
    (startHex endHex colorspace hueDirection : string)
  : GradientError + string :=
  match Hex startHex with
  | None => inl (InvalidStartHex startHex)
  | Some startColor =>
      match Hex endHex with
      | None => inl (InvalidEndHex endHex)
      | Some endColor =>
          let blended :=
            if (colorspace =? "rgb")%string
            then Some (BlendRgb startColor endColor progress)
            else if (colorspace =? "hcl")%string
            then Some (BlendHcl startColor endColor progress)
            else if (colorspace =? "lab")%string
            then Some (BlendLab startColor endColor progress)
            else None in
          match blended with
          | None => inl (UnsupportedColorspace colorspace)
          | Some interpolatedColor =>
              let '(r, g, b) := RGB255 (Clamped interpolatedColor) in
              inr (colorPartOf r g b)
          end
      end
  end.

Variable f : Flags.

Definition coloredEmptyLine (totalGradientUnits : Z) (line : list rune) : bool :=
  (gradientDirection f =? "vertical")%string
  && (len line =? 0)%Z && (1 <? totalGradientUnits)%Z.

Definition gradientColor (progress : float64) : GradientError + string :=
  getGradientColor progress (startColor f) (endColor f) (colorspace f)
    (hueDirection f).

(** [fmt.Printf("\x1b[%s%s\n", colorPart)]: the second verb has no operand
    and is printed as [%!s(MISSING)]. *)
Definition renderEmptyLine (totalGradientUnits lineIndex : Z) : Emit unit :=
  let progress := unitProgress lineIndex totalGradientUnits in
  let progress := applyInvert (invert f) progress in
  let progress := applySteps (steps f) progress in
  match gradientColor progress with
  | inl e => Died [] (ErrGradientColorEmptyLine e)
  | inr colorPart =>
      print (runes (ESC ++ "[" ++ colorPart ++ "%!s(MISSING)" ++ LF))
  end.

(** [fmt.Printf("\x1b[%s%s%c", colorPart, char)]: the rune is the operand
    of the second [%s], printed as [%!s(int32=N)], and [%c] has none. *)
Definition renderChar (totalGradientUnits lineIndex charCountHorizontal : Z)
    (char : rune) : Emit Z :=
  let '(progress, charCountHorizontal) :=
    if (gradientDirection f =? "horizontal")%string
    then (unitProgress charCountHorizontal totalGradientUnits,
          (charCountHorizontal + 1)%Z)
    else (unitProgress lineIndex totalGradientUnits, charCountHorizontal) in
  let progress := applyInvert (invert f) progress in
  let progress := applySteps (steps f) progress in
  match gradientColor progress with
  | inl e => Died [] (ErrGradientColor e)
  | inr colorPart =>
      Written
        (runes (ESC ++ "[" ++ colorPart ++ "%!s(int32=" ++ fmtD char ++ ")"
                ++ "%!c(MISSING)"))
        charCountHorizontal
  end.

Fixpoint renderChars (totalGradientUnits lineIndex charCountHorizontal : Z)
    (line : list rune) : Emit Z :=
  match line with
  | [] => Written [] charCountHorizontal
  | char :: rest =>
      n <- renderChar totalGradientUnits lineIndex charCountHorizontal char ;;
      renderChars totalGradientUnits lineIndex n rest
  end.

Definition renderLine (totalGradientUnits lineIndex charCountHorizontal : Z)
    (line : list rune) : Emit Z :=
  if coloredEmptyLine totalGradientUnits line then
    _ <- renderEmptyLine totalGradientUnits lineIndex ;;
    Written [] charCountHorizontal
  else
    n <- renderChars totalGradientUnits lineIndex charCountHorizontal line ;;
    _ <- (if negb (coloredEmptyLine totalGradientUnits line)
          then print (runes LF) else print []) ;;
    Written [] n.

Fixpoint renderLines (totalGradientUnits lineIndex charCountHorizontal : Z)
    (lines : list (list rune)) : Emit Z :=
  match lines with
  | [] => Written [] charCountHorizontal
  | line :: rest =>
      n <- renderLine totalGradientUnits lineIndex charCountHorizontal line ;;
      renderLines totalGradientUnits (lineIndex + 1)%Z n rest
  end.

Definition totalChars (lines : list (list rune)) : Z :=
  fold_left (fun total line => (total + len line)%Z) lines 0%Z.

(** A validation failure: message, [flag.Usage()], [osExit(1)]. *)
Definition reject (d : Diag) : Outcome := mkOutcome [] [d; UsageText] 1.

Definition render (lines : list (list rune)) : Outcome :=
  if (len lines =? 0)%Z then mkOutcome (runes resetLine) [] 0
  else
    let horizontal := (gradientDirection f =? "horizontal")%string in
    let totalGradientUnits :=
      if horizontal then totalChars lines else len lines in
    if horizontal && (totalGradientUnits =? 0)%Z then
      mkOutcome (concat (map (fun _ => runes resetLine) lines)) [] 0
    else
      match renderLines totalGradientUnits 0 0 lines with
      | Written out _ => mkOutcome (out ++ runes resetLine) [] 0
      | Died out d => mkOutcome out [d] 1
      end.

(** The hue-direction test of [main]: it rejects only under the HCL and LAB
    color spaces. *)
Definition hueDirectionRejected : bool :=
  ((colorspace f =? "hcl")%string || (colorspace f =? "lab")%string)
  && (negb (hueDirection f =? "shortest")%string
      && negb (hueDirection f =? "clockwise")%string
      && negb (hueDirection f =? "counter-clockwise")%string).

(** The checks of [main] that follow the version and help flags, in their
    order ([args] are [flag.Args()]). *)
Definition validate (args : list string) : option Diag :=
  match Hex (startColor f) with
  | None => Some (ErrStartColor (startColor f))
  | Some _ =>
  match Hex (endColor f) with
  | None => Some (ErrEndColor (endColor f))
  | Some _ =>
  if negb (gradientDirection f =? "horizontal")%string
     && negb (gradientDirection f =? "vertical")%string
  then Some (ErrGradientDirection (gradientDirection f))
  else if negb (colorspace f =? "rgb")%string
          && negb (colorspace f =? "hcl")%string
          && negb (colorspace f =? "lab")%string
  then Some (ErrColorspace (colorspace f))
  else if hueDirectionRejected then Some (ErrHueDirection (hueDirection f))
  else if (steps f <? 0)%Z then Some ErrNegativeSteps
  else if (0 <? len args)%Z then Some (ErrUnexpectedArgs args)
  else None
  end end.

(** [main], from the parsed flags. *)
Definition main (args : list string) (input : Stdin) : Outcome :=
  if showVersion f then mkOutcome (runes ("colorblend v1.0.0" ++ LF)) [] 0
  else if showHelp f then mkOutcome [] [UsageText] 0
  else
    match validate args with
    | Some d => reject d
    | None =>
        match input with
        | ReadFailure => mkOutcome [] [ErrReadStdin] 1
        | Lines lines => render lines
        end
    end.

End WithLibrary.

End FlagCli.

(** ** An exact instance of the library interface

    The programs are run on concrete inputs with this instance: the parser
    reads [#] and six hexadecimal digits into three channels scaled to the
    unit interval, the cylindrical coordinates take the hue from the first
    channel (300 degrees for a full channel), and the blend is channelwise
    linear. *)

Module Stub.

Definition hexDigit (c : ascii) : option Z :=
  let n := Z.of_nat (nat_of_ascii c) in
  if ((48 <=? n) && (n <=? 57))%Z then Some (n - 48)%Z
  else if ((65 <=? n) && (n <=? 70))%Z then Some (n - 55)%Z
  else if ((97 <=? n) && (n <=? 102))%Z then Some (n - 87)%Z
  else None.

Definition hexByte (c d : ascii) : option Z :=
  match hexDigit c, hexDigit d with
  | Some hi, Some lo => Some (16 * hi + lo)%Z
  | _, _ => None
  end.

Definition Hex (s : string) : option Color :=
  match s with
  | String c0 (String r1 (String r2 (String g1 (String g2
      (String b1 (String b2 EmptyString)))))) =>
      if Ascii.eqb c0 "#" then
        match hexByte r1 r2, hexByte g1 g2, hexByte b1 b2 with
        | Some r, Some g, Some b =>
            Some (mkColor (ofInt r / 255) (ofInt g / 255) (ofInt b / 255))
        | _, _, _ => None
        end
      else None
  | _ => None
  end.

Definition frac (x : float64) : float64 := x - inject_Z (Qfloor x).

Definition Color_Hcl (c : Color) : float64 * float64 * float64 :=
  (R c * 300, G c, B c).

Definition Hcl (h c l : float64) : Color :=
  mkColor (frac (h / 360) * (6 # 5)) c l.

Definition BlendRgb (c1 c2 : Color) (t : float64) : Color :=
  mkColor (R c1 + t * (R c2 - R c1))
          (G c1 + t * (G c2 - G c1))
          (B c1 + t * (B c2 - B c1)).

End Stub.

(** ** Notions used in the statements *)

(** A channel value that fits the eight bits of an sRGB channel. *)
Definition isByte (n : Z) : Prop := (0 <= n <= 255)%Z.

(** Two hue angles that differ by a whole number of turns. *)
Definition sameHue (a b : float64) : Prop :=
  exists k : Z, a == b + 360 * inject_Z k.

(** The constructor [colorful.Hcl] reads its hue modulo 360 degrees and
    maps equal coordinates to equal colors. *)
Definition hueCyclic (Hcl : float64 -> float64 -> float64 -> Color) : Prop :=
  forall h h' c c' l l',
    sameHue h' h -> c' == c -> l' == l -> Ceq (Hcl h' c' l') (Hcl h c l).

(** [colorful.Hcl] undoes [Color.Hcl] on the color [c]. *)
Definition roundTrips (Color_Hcl : Color -> float64 * float64 * float64)
    (Hcl : float64 -> float64 -> float64 -> Color) (c : Color) : Prop :=
  let '(h, ch, l) := Color_Hcl c in Ceq (Hcl h ch l) c.

(** [fmt.Sprintf("38;2;%d;%d;%dm", r, g, b)] on a triple. *)
Definition colorPartOf3 (rgb : Z * Z * Z) : string :=
  let '(r, g, b) := rgb in colorPartOf r g b.

(** The hue-direction values the command line documents. *)
Definition recognizedHueDirection (s : string) : bool :=
  oneOf s ["shortest"; "clockwise"; "counter-clockwise"].

(** The flags with another [--hue-direction] value. *)
Definition cobraWithHue (f : Cobra.Flags) (value : string) : Cobra.Flags :=
  Cobra.mkFlags (Cobra.startColor f) (Cobra.endColor f)
    (Cobra.gradientDirection f) value (Cobra.steps f) (Cobra.invert f).

Definition flagWithHue (f : FlagCli.Flags) (value : string) : FlagCli.Flags :=
  FlagCli.mkFlags (FlagCli.showHelp f) (FlagCli.showVersion f)
    (FlagCli.startColor f) (FlagCli.endColor f) (FlagCli.gradientDirection f)
    (FlagCli.colorspace f) value (FlagCli.steps f) (FlagCli.invert f).

(** [interpolated.Clamped().RGB255()] on one channel: the value is clamped
    to the unit interval, scaled, offset and converted to eight bits. *)
Definition channelByte (v : float64) : Z := uint8 (clamp01 v * 255 + (1 # 2)).

(** The four code points [ESC [ 0 m] of the full reset. *)
Definition resetSeq : list rune := runes (ESC ++ "[0m").

Fixpoint startsWith (pat s : list rune) : bool :=
  match pat, s with
  | [], _ => true
  | p :: pat', c :: s' => (p =? c)%Z && startsWith pat' s'
  | _ :: _, [] => false
  end.

(** The number of positions of [s] at which [pat] begins. *)
Fixpoint occurrences (pat s : list rune) : nat :=
  match s with
  | [] => 0
  | c :: rest => (if startsWith pat s then 1 else 0) + occurrences pat rest
  end.

(** The gradient units of a run: characters under the horizontal
    direction, lines otherwise. *)
Definition cobraUnits (f : Cobra.Flags) (lines : list (list rune)) : Z :=
  if (Cobra.gradientDirection f =? "horizontal")%string
  then Cobra.totalChars lines else len lines.

Definition flagUnits (f : FlagCli.Flags) (lines : list (list rune)) : Z :=
  if (FlagCli.gradientDirection f =? "horizontal")%string
  then FlagCli.totalChars lines else len lines.

(** Text without the escape character. *)
Definition noEscape (l : list rune) : Prop := Forall (fun r => r <> 27%Z) l.

(** Text that begins with the escape character or with a line break. *)
Definition leads (s : list rune) : Prop :=
  exists c t, s = c :: t /\ (c = 27 \/ c = 10)%Z.

(** Output that brings no reset sequence of its own, nor the beginning of
    one, in front of what the loop writes next. *)
Definition resetFree (out : list rune) : Prop :=
  forall s, leads s ->
    occurrences resetSeq (out ++ s) = occurrences resetSeq s
    /\ leads (out ++ s).

Definition wroteResetFree {A : Type} (m : Emit A) : Prop :=
  match m with
  | Written out _ => resetFree out
  | Died out _ => resetFree out
  end.

(** * Properties *)

(** ** Comparisons, rounding and remainder *)

Section GoMathFacts.

Lemma gtb_true (x y : float64) : gtb x y = true <-> y < x.
Proof.
  unfold gtb. rewrite negb_true_iff, <- not_true_iff_false, Qle_bool_iff.
  split; [apply Qnot_le_lt | apply Qlt_not_le].
Qed.

Lemma gtb_false (x y : float64) : gtb x y = false <-> x <= y.
Proof.
  unfold gtb. rewrite negb_false_iff. apply Qle_bool_iff.
Qed.

Lemma ltb_true (x y : float64) : ltb x y = true <-> x < y.
Proof. apply gtb_true. Qed.

Lemma ltb_false (x y : float64) : ltb x y = false <-> y <= x.
Proof. apply gtb_false. Qed.

Lemma Qle_bool_false (x y : Q) : Qle_bool x y = false <-> y < x.
Proof.
  rewrite <- not_true_iff_false, Qle_bool_iff.
  split; [apply Qnot_le_lt | apply Qlt_not_le].
Qed.

Lemma inject_Z_succ (k : Z) : inject_Z (k + 1) == inject_Z k + 1.
Proof. rewrite inject_Z_plus. reflexivity. Qed.

Lemma inject_Z_pred (k : Z) : inject_Z (k - 1) == inject_Z k - 1.
Proof. unfold Z.sub. rewrite inject_Z_plus. reflexivity. Qed.

Lemma floor_bounds (x : Q) :
  inject_Z (Qfloor x) <= x /\ x < inject_Z (Qfloor x) + 1.
Proof.
  split; [apply Qfloor_le |].
  rewrite <- inject_Z_succ. apply Qlt_floor.
Qed.

Lemma ceiling_bounds (x : Q) :
  inject_Z (Qceiling x) - 1 < x /\ x <= inject_Z (Qceiling x).
Proof.
  split; [| apply Qle_ceiling].
  rewrite <- inject_Z_pred. apply Qceiling_lt.
Qed.

(** An integer pinned between [x - 1] and [x] is the floor of [x]. *)
Lemma floor_unique (x : Q) (k : Z) :
  inject_Z k <= x -> x < inject_Z k + 1 -> Qfloor x = k.
Proof.
  intros Hlo Hhi. destruct (floor_bounds x) as [Flo Fhi].
  assert (H1 : inject_Z k < inject_Z (Qfloor x + 1)).
  { rewrite inject_Z_succ. lra. }
  assert (H2 : inject_Z (Qfloor x) < inject_Z (k + 1)).
  { rewrite inject_Z_succ. lra. }
  rewrite <- Zlt_Qlt in H1, H2. lia.
Qed.

Lemma ceiling_unique (x : Q) (k : Z) :
  inject_Z k - 1 < x -> x <= inject_Z k -> Qceiling x = k.
Proof.
  intros Hlo Hhi. destruct (ceiling_bounds x) as [Clo Chi].
  assert (H1 : inject_Z k < inject_Z (Qceiling x + 1)).
  { rewrite inject_Z_succ. lra. }
  assert (H2 : inject_Z (Qceiling x) < inject_Z (k + 1)).
  { rewrite inject_Z_succ. lra. }
  rewrite <- Zlt_Qlt in H1, H2. lia.
Qed.

(** [math.Round] stays within one half of its argument. *)
Lemma RoundZ_near (x : float64) :
  x - (1 # 2) <= inject_Z (RoundZ x) <= x + (1 # 2).
Proof.
  unfold RoundZ. destruct (Qle_bool 0 x).
  - destruct (floor_bounds (x + (1 # 2))). lra.
  - destruct (ceiling_bounds (x - (1 # 2))). lra.
Qed.

Lemma RoundZ_comp (x y : float64) : x == y -> RoundZ x = RoundZ y.
Proof.
  intros E. unfold RoundZ.
  rewrite (Qleb_comp 0 0 (Qeq_refl 0) x y E).
  destruct (Qle_bool 0 y).
  - apply Qfloor_comp. rewrite E. reflexivity.
  - apply Qceiling_comp. rewrite E. reflexivity.
Qed.

(** [math.Round] fixes the integers. *)
Lemma RoundZ_int (k : Z) : RoundZ (inject_Z k) = k.
Proof.
  unfold RoundZ. destruct (Qle_bool 0 (inject_Z k)).
  - apply floor_unique; lra.
  - apply ceiling_unique; lra.
Qed.

(** [math.Round] is monotone on the bounds it is used with. *)
Lemma RoundZ_between (x : float64) (lo hi : Z) :
  inject_Z lo <= x -> x <= inject_Z hi -> (lo <= RoundZ x <= hi)%Z.
Proof.
  intros Hlo Hhi. pose proof (RoundZ_near x) as [N1 N2].
  assert (H1 : inject_Z (lo - 1) < inject_Z (RoundZ x)).
  { rewrite inject_Z_pred. lra. }
  assert (H2 : inject_Z (RoundZ x) < inject_Z (hi + 1)).
  { rewrite inject_Z_succ. lra. }
  rewrite <- Zlt_Qlt in H1, H2. lia.
Qed.

Lemma div360_mul (x : Q) : x == 360 * (x / 360).
Proof. field. Qed.

(** [math.Mod(x, 360)] differs from [x] by a whole number of turns. *)
Lemma Mod360_turns (x : float64) :
  Mod x 360 = x - 360 * inject_Z (trunc (x / 360)).
Proof. reflexivity. Qed.

(** On a non-negative argument [math.Mod(x, 360)] lies in [[0, 360)]. *)
Lemma Mod360_range (x : float64) : 0 <= x -> 0 <= Mod x 360 < 360.
Proof.
  intros Hx. unfold Mod, trunc.
  assert (Hq : 0 <= x / 360).
  { apply Qle_shift_div_l; lra. }
  pose proof (div360_mul x) as E.
  apply Qle_bool_iff in Hq. rewrite Hq.
  destruct (floor_bounds (x / 360)). lra.
Qed.

(** An argument already in [[0, 360)] is left as it is. *)
Lemma Mod360_id (x : float64) : 0 <= x -> x < 360 -> Mod x 360 == x.
Proof.
  intros H0 H1. unfold Mod, trunc.
  assert (Hq : 0 <= x / 360) by (apply Qle_shift_div_l; lra).
  pose proof (div360_mul x) as E.
  apply Qle_bool_iff in Hq. rewrite Hq.
  assert (F : Qfloor (x / 360) = 0%Z).
  { apply floor_unique; change (inject_Z 0) with 0; lra. }
  rewrite F. change (inject_Z 0) with 0. lra.
Qed.

(** An argument in [[360, 720)] loses one turn. *)
Lemma Mod360_one_turn (x : float64) :
  360 <= x -> x < 720 -> Mod x 360 == x - 360.
Proof.
  intros H0 H1. unfold Mod, trunc.
  assert (Hq : 0 <= x / 360) by (apply Qle_shift_div_l; lra).
  pose proof (div360_mul x) as E.
  apply Qle_bool_iff in Hq. rewrite Hq.
  assert (F : Qfloor (x / 360) = 1%Z).
  { apply floor_unique; change (inject_Z 1) with 1; lra. }
  rewrite F. change (inject_Z 1) with 1. lra.
Qed.

End GoMathFacts.

(** ** Progress mapping *)

Section ProgressFacts.

Lemma ofInt_pos (k : Z) : (0 < k)%Z -> 0 < ofInt k.
Proof.
  intros H. unfold ofInt. change 0 with (inject_Z 0).
  rewrite <- Zlt_Qlt. exact H.
Qed.

Lemma ofInt_neq_0 (k : Z) : (0 < k)%Z -> ~ ofInt k == 0.
Proof. intros H E. apply ofInt_pos in H. rewrite E in H. lra. Qed.

(** No integer is closer to [a] than [math.Round(a)]. *)
Lemma RoundZ_nearest (a : float64) (i : Z) :
  Qabs (inject_Z (RoundZ a) - a) <= Qabs (inject_Z i - a).
Proof.
  destruct (RoundZ_near a) as [N1 N2].
  destruct (Z.eq_dec i (RoundZ a)) as [-> | Hne]; [apply Qle_refl |].
  apply Qabs_Qle_condition.
  assert (Hi : (i <= RoundZ a - 1 \/ RoundZ a + 1 <= i)%Z) by lia.
  destruct Hi as [Hi | Hi]; rewrite Zle_Qle in Hi;
    [rewrite inject_Z_pred in Hi | rewrite inject_Z_succ in Hi];
    pattern (Qabs (inject_Z i - a)); apply Qabs_case; intros; lra.
Qed.

End ProgressFacts.

(** C1.  The progress of a gradient unit is 0.0 whenever the number of
    units is at most one, and otherwise it is position / (totalUnits - 1);
    with more than one unit the first position maps to exactly 0.0 and the
    last one, totalUnits - 1, to exactly 1.0.  With inversion off and a
    step count of zero this is the whole progress mapping. *)
Theorem unitProgress_spec (position totalUnits : Z) :
  ((totalUnits <= 1)%Z -> unitProgress position totalUnits = 0) /\
  ((1 < totalUnits)%Z ->
     unitProgress position totalUnits
       == inject_Z position / inject_Z (totalUnits - 1) /\
     unitProgress 0 totalUnits == 0 /\
     unitProgress (totalUnits - 1) totalUnits == 1) /\
  progressFor position totalUnits false 0 = unitProgress position totalUnits.
Proof.
  unfold unitProgress. split; [| split].
  - intros H. destruct (Z.ltb_spec 1 totalUnits); [lia | reflexivity].
  - intros H. destruct (Z.ltb_spec 1 totalUnits) as [_ | ?]; [| lia].
    pose proof (ofInt_neq_0 (totalUnits - 1) ltac:(lia)) as Hnz.
    unfold ofInt in *. split; [| split].
    + reflexivity.
    + change (inject_Z 0) with 0. field. exact Hnz.
    + field. exact Hnz.
  - reflexivity.
Qed.

Lemma unitProgress_spec_witness :
  unitProgress 7 1 = 0 /\ unitProgress 0 5 == 0 /\ unitProgress 4 5 == 1
  /\ unitProgress 3 5 == 3 # 4.
Proof.
  destruct (unitProgress_spec 7 1) as [H1 _].
  destruct (unitProgress_spec 3 5) as [_ [H5 _]].
  destruct (H5 ltac:(lia)) as [Hmid [Hfirst Hlast]].
  split; [| split; [| split]].
  - apply H1. lia.
  - exact Hfirst.
  - exact Hlast.
  - rewrite Hmid. reflexivity.
Defined.

(** ** Rounding to binary64 *)

Section Pow2Facts.

Import Binary64.

Lemma two_neq_0 : ~ 2 == 0.
Proof. intros E. discriminate E. Qed.

Lemma pow2_pos (z : Z) : 0 < pow2 z.
Proof. apply Qpower_0_lt. reflexivity. Qed.

Lemma pow2_add (a b : Z) : pow2 (a + b) == pow2 a * pow2 b.
Proof. apply Qpower_plus, two_neq_0. Qed.

Lemma pow2_le (a b : Z) : (a <= b)%Z -> pow2 a <= pow2 b.
Proof. intros H. apply Qpower_le_compat_l; [exact H | discriminate]. Qed.

Lemma pow2_lt (a b : Z) : (a < b)%Z -> pow2 a < pow2 b.
Proof. intros H. apply Qpower_lt_compat_l; [exact H | reflexivity]. Qed.

Lemma pow2_lt_inv (a b : Z) : pow2 a < pow2 b -> (a < b)%Z.
Proof. intros H. apply (Qpower_lt_compat_l_inv 2); [exact H | reflexivity]. Qed.

Lemma pow2_Z (z : Z) : (0 <= z)%Z -> pow2 z == inject_Z (2 ^ z).
Proof. intros H. unfold pow2. rewrite Zpower_Qpower by exact H. reflexivity. Qed.

Lemma pow2_cancel (z : Z) : pow2 (- z) * pow2 z == 1.
Proof.
  rewrite <- pow2_add. replace (- z + z)%Z with 0%Z by lia. reflexivity.
Qed.

End Pow2Facts.

Section Ilog2Facts.

Import Binary64.

Lemma Q_as_fraction (x : Q) :
  x * inject_Z (Zpos (Qden x)) == inject_Z (Qnum x).
Proof.
  destruct x as [n d]. unfold Qeq, Qmult, inject_Z. simpl. lia.
Qed.

Lemma Qnum_pos (x : Q) : 0 < x -> (0 < Qnum x)%Z.
Proof. destruct x as [n d]. unfold Qlt. simpl. lia. Qed.

Lemma log2_bounds (n : Z) :
  (0 < n)%Z ->
  pow2 (Z.log2 n) <= inject_Z n /\ inject_Z n < pow2 (Z.log2 n + 1).
Proof.
  intros Hn. destruct (Z.log2_spec n Hn) as [L U].
  pose proof (Z.log2_nonneg n) as Hl.
  rewrite !pow2_Z by lia. split.
  - rewrite <- Zle_Qle. exact L.
  - rewrite <- Zlt_Qlt. replace (Z.log2 n + 1)%Z with (Z.succ (Z.log2 n)) by lia.
    exact U.
Qed.

Lemma ilog2_spec (x : Q) :
  0 < x -> pow2 (ilog2 x) <= x /\ x < pow2 (ilog2 x + 1).
Proof.
  intros Hx. unfold ilog2.
  set (n := Qnum x). set (d := Zpos (Qden x)).
  pose proof (Qnum_pos x Hx) as Hn. fold n in Hn.
  destruct (log2_bounds n Hn) as [Ln Un].
  destruct (log2_bounds d ltac:(reflexivity)) as [Ld Ud].
  pose proof (Q_as_fraction x) as Ex. fold n d in Ex.
  set (a := Z.log2 n) in *. set (b := Z.log2 d) in *.
  pose proof (pow2_pos b) as Pb. pose proof (pow2_pos (a - b)) as Pab.
  pose proof (pow2_pos (a - b + 1)) as Pab1.
  pose proof (pow2_pos (a - b - 1)) as Pab0.
  assert (Eu : pow2 (a - b + 1) * pow2 b == pow2 (a + 1)).
  { rewrite <- pow2_add. replace (a - b + 1 + b)%Z with (a + 1)%Z by lia.
    reflexivity. }
  assert (El : pow2 (a - b - 1) * pow2 (b + 1) == pow2 a).
  { rewrite <- pow2_add. replace (a - b - 1 + (b + 1))%Z with a by lia.
    reflexivity. }
  assert (Hd : 0 < inject_Z d) by lra.
  assert (Upper : x < pow2 (a - b + 1)).
  { apply (Qmult_lt_r _ _ (inject_Z d) Hd). rewrite Ex.
    apply (Qlt_le_trans _ (pow2 (a + 1))); [exact Un |].
    rewrite <- Eu. apply Qmult_le_l; [exact Pab1 | exact Ld]. }
  assert (Lower : pow2 (a - b - 1) <= x).
  { apply (Qmult_le_r _ _ (inject_Z d) Hd). rewrite Ex.
    apply (Qle_trans _ (pow2 a)); [| exact Ln].
    rewrite <- El. apply Qmult_le_l; [exact Pab0 | lra]. }
  destruct (Qle_bool (pow2 (a - b)) x) eqn:E.
  - apply Qle_bool_iff in E. split; assumption.
  - apply Qle_bool_false in E. split; [exact Lower |].
    replace (a - b - 1 + 1)%Z with (a - b)%Z by lia. exact E.
Qed.

Lemma ilog2_unique (x : Q) (e : Z) :
  pow2 e <= x -> x < pow2 (e + 1) -> ilog2 x = e.
Proof.
  intros L U.
  assert (Hx : 0 < x) by (pose proof (pow2_pos e); lra).
  destruct (ilog2_spec x Hx) as [L' U'].
  assert (H1 : (e < ilog2 x + 1)%Z) by (apply pow2_lt_inv; lra).
  assert (H2 : (ilog2 x < e + 1)%Z) by (apply pow2_lt_inv; lra).
  lia.
Qed.

Lemma ilog2_monotone (x y : Q) : 0 < x -> x <= y -> (ilog2 x <= ilog2 y)%Z.
Proof.
  intros Hx Hxy.
  destruct (ilog2_spec x Hx) as [Lx _].
  destruct (ilog2_spec y ltac:(lra)) as [_ Uy].
  assert (H : (ilog2 x < ilog2 y + 1)%Z) by (apply pow2_lt_inv; lra).
  lia.
Qed.

Lemma ilog2_comp (x y : Q) : 0 < x -> x == y -> ilog2 x = ilog2 y.
Proof.
  intros Hx E. destruct (ilog2_spec x Hx) as [L U].
  symmetry. apply ilog2_unique; rewrite <- E; assumption.
Qed.

End Ilog2Facts.

Section RneFacts.

Import Binary64.

Lemma rne_comp (x y : Q) : x == y -> rne x = rne y.
Proof.
  intros E. unfold rne. rewrite (Qfloor_comp _ _ E).
  assert (E' : x - inject_Z (Qfloor y) == y - inject_Z (Qfloor y))
    by (rewrite E; reflexivity).
  rewrite (Qcompare_comp _ _ E' (1 # 2) (1 # 2) (Qeq_refl _)). reflexivity.
Qed.

(** The three cases of [rne], with what each says about the fraction. *)
Lemma rne_cases (y : Q) :
  (y - inject_Z (Qfloor y) < 1 # 2 /\ rne y = Qfloor y) \/
  (y - inject_Z (Qfloor y) == 1 # 2
   /\ (rne y = Qfloor y \/ rne y = (Qfloor y + 1)%Z)) \/
  (1 # 2 < y - inject_Z (Qfloor y) /\ rne y = (Qfloor y + 1)%Z).
Proof.
  unfold rne.
  destruct (Qcompare_spec (y - inject_Z (Qfloor y)) (1 # 2)) as [E | L | G].
  - right; left. split; [exact E |].
    destruct (Z.even (Qfloor y)); auto.
  - left. split; [exact L | reflexivity].
  - right; right. split; [exact G | reflexivity].
Qed.

Lemma rne_near (y : Q) :
  y - (1 # 2) <= inject_Z (rne y) <= y + (1 # 2).
Proof.
  destruct (floor_bounds y) as [F1 F2].
  destruct (rne_cases y) as [[C ->] | [[C [-> | ->]] | [C ->]]];
    rewrite ?inject_Z_succ; lra.
Qed.

Lemma rne_int (n : Z) : rne (inject_Z n) = n.
Proof.
  unfold rne. rewrite Qfloor_Z.
  assert (E : inject_Z n - inject_Z n == 0) by ring.
  rewrite (Qcompare_comp _ _ E (1 # 2) (1 # 2) (Qeq_refl _)). reflexivity.
Qed.

Lemma rne_monotone (x y : Q) : x <= y -> (rne x <= rne y)%Z.
Proof.
  intros Hxy.
  pose proof (Qfloor_resp_le x y Hxy) as Hf.
  destruct (floor_bounds x) as [X1 X2]. destruct (floor_bounds y) as [Y1 Y2].
  destruct (Z.eq_dec (Qfloor x) (Qfloor y)) as [Ef | Hne].
  - unfold rne. rewrite Ef.
    destruct (Qcompare_spec (x - inject_Z (Qfloor y)) (1 # 2)) as [E | L | G];
      destruct (Qcompare_spec (y - inject_Z (Qfloor y)) (1 # 2))
        as [E' | L' | G'];
      try lia; try lra;
      destruct (Z.even (Qfloor y)); lia.
  - assert (Hlt : (Qfloor x + 1 <= Qfloor y)%Z) by lia.
    assert (Hx : (rne x <= Qfloor x + 1)%Z).
    { destruct (rne_cases x) as [[_ ->] | [[_ [-> | ->]] | [_ ->]]]; lia. }
    assert (Hy : (Qfloor y <= rne y)%Z).
    { destruct (rne_cases y) as [[_ ->] | [[_ [-> | ->]] | [_ ->]]]; lia. }
    lia.
Qed.

End RneFacts.

Section RndFacts.

Import Binary64.

Lemma scale_back (x : Q) (q : Z) : x / pow2 q * pow2 q == x.
Proof. field. pose proof (pow2_pos q). lra. Qed.

Lemma pow2_half (q : Z) : pow2 (q - 1) == pow2 q * (1 # 2).
Proof.
  replace (q - 1)%Z with (q + -1)%Z by lia. rewrite pow2_add. reflexivity.
Qed.

(** The result is within half a quantum of the argument. *)
Lemma rnd_bounds (x : Q) :
  x - pow2 (quantum x - 1) <= rnd x <= x + pow2 (quantum x - 1).
Proof.
  unfold rnd. cbv zeta. set (q := quantum x).
  pose proof (pow2_pos q) as Pq. pose proof (scale_back x q) as Es.
  destruct (rne_near (x / pow2 q)) as [N1 N2]. rewrite pow2_half.
  assert (A : (x / pow2 q - (1 # 2)) * pow2 q
              <= inject_Z (rne (x / pow2 q)) * pow2 q)
    by (apply Qmult_le_compat_r; lra).
  assert (B : inject_Z (rne (x / pow2 q)) * pow2 q
              <= (x / pow2 q + (1 # 2)) * pow2 q)
    by (apply Qmult_le_compat_r; lra).
  lra.
Qed.

Lemma rnd_zero (x : Q) : x == 0 -> rnd x == 0.
Proof.
  intros E. unfold rnd. cbv zeta. set (q := quantum x).
  assert (E' : x / pow2 q == inject_Z 0).
  { rewrite E. unfold Qdiv. ring. }
  rewrite (rne_comp _ _ E'), rne_int. ring.
Qed.

Lemma quantum_pos (x : Q) :
  0 < x -> quantum x = Z.max (ilog2 x - 52) (-1074).
Proof.
  intros Hx. unfold quantum.
  rewrite (ilog2_comp (Qabs x) x); [reflexivity | |].
  - rewrite Qabs_pos; lra.
  - apply Qabs_pos. lra.
Qed.

Lemma quantum_comp (x y : Q) : 0 < x -> x == y -> quantum x = quantum y.
Proof.
  intros Hx E. rewrite (quantum_pos x Hx), (quantum_pos y) by lra.
  rewrite (ilog2_comp x y Hx E). reflexivity.
Qed.

Lemma rnd_comp_pos (x y : Q) : 0 < x -> x == y -> rnd x == rnd y.
Proof.
  intros Hx E. unfold rnd. cbv zeta. rewrite (quantum_comp x y Hx E).
  assert (E' : x / pow2 (quantum y) == y / pow2 (quantum y))
    by (rewrite E; reflexivity).
  rewrite (rne_comp _ _ E'). reflexivity.
Qed.

Lemma rnd_comp (x y : Q) : 0 <= x -> x == y -> rnd x == rnd y.
Proof.
  intros Hx E. destruct (Qlt_le_dec 0 x) as [Hpos | Hzero].
  - apply rnd_comp_pos; assumption.
  - rewrite (rnd_zero x), (rnd_zero y); [reflexivity | lra | lra].
Qed.

Lemma rnd_nonneg (x : Q) : 0 <= x -> 0 <= rnd x.
Proof.
  intros Hx. unfold rnd. cbv zeta. set (q := quantum x).
  pose proof (pow2_pos q) as Pq.
  assert (H : (rne (inject_Z 0) <= rne (x / pow2 q))%Z).
  { apply rne_monotone. change (inject_Z 0) with 0.
    apply Qle_shift_div_l; lra. }
  rewrite rne_int in H. rewrite Zle_Qle in H. change (inject_Z 0) with 0 in H.
  apply Qmult_le_0_compat; lra.
Qed.

(** An argument that is a whole number of quanta is returned as it is. *)
Lemma rnd_exact (x : Q) (m : Z) :
  x == inject_Z m * pow2 (quantum x) -> rnd x == x.
Proof.
  intros E. unfold rnd. cbv zeta. set (q := quantum x) in *.
  assert (E' : x / pow2 q == inject_Z m).
  { rewrite E. field. pose proof (pow2_pos q). lra. }
  rewrite (rne_comp _ _ E'), rne_int. rewrite E. reflexivity.
Qed.

Lemma ilog2_int_range (n : Z) :
  (0 < n < 2 ^ 53)%Z -> (0 <= ilog2 (inject_Z n) <= 52)%Z.
Proof.
  intros [Hn0 Hn1].
  assert (Hx : 0 < inject_Z n).
  { change 0 with (inject_Z 0). rewrite <- Zlt_Qlt. exact Hn0. }
  destruct (ilog2_spec _ Hx) as [L U].
  assert (H1 : inject_Z 1 <= inject_Z n) by (rewrite <- Zle_Qle; lia).
  assert (H2 : inject_Z n < inject_Z (2 ^ 53)) by (rewrite <- Zlt_Qlt; lia).
  rewrite <- pow2_Z in H2 by lia. change (inject_Z 1) with (pow2 0) in H1.
  assert (A : (0 < ilog2 (inject_Z n) + 1)%Z) by (apply pow2_lt_inv; lra).
  assert (B : (ilog2 (inject_Z n) < 53)%Z) by (apply pow2_lt_inv; lra).
  lia.
Qed.

(** Integers below 2^53 are binary64 values. *)
Lemma rnd_int (n : Z) :
  (0 <= n < 2 ^ 53)%Z -> rnd (inject_Z n) == inject_Z n.
Proof.
  intros [Hn0 Hn1]. destruct (Z.eq_dec n 0) as [-> | Hne].
  - apply rnd_zero. reflexivity.
  - assert (Hx : 0 < inject_Z n).
    { change 0 with (inject_Z 0). rewrite <- Zlt_Qlt. lia. }
    pose proof (ilog2_int_range n ltac:(lia)) as [E0 E1].
    apply (rnd_exact _ (n * 2 ^ (52 - ilog2 (inject_Z n)))).
    rewrite (quantum_pos _ Hx).
    replace (Z.max (ilog2 (inject_Z n) - 52) (-1074))
      with (- (52 - ilog2 (inject_Z n)))%Z by lia.
    rewrite inject_Z_mult, <- pow2_Z by lia.
    rewrite <- Qmult_assoc. rewrite (Qmult_comm (pow2 _)), pow2_cancel. ring.
Qed.

(** Rounding keeps the order of positive arguments. *)
Lemma rnd_monotone_pos (x y : Q) : 0 < x -> x <= y -> rnd x <= rnd y.
Proof.
  intros Hx Hxy. assert (Hy : 0 < y) by lra.
  pose proof (ilog2_monotone x y Hx Hxy) as He.
  destruct (ilog2_spec x Hx) as [Lx Ux]. destruct (ilog2_spec y Hy) as [Ly Uy].
  unfold rnd. cbv zeta.
  rewrite (quantum_pos x Hx), (quantum_pos y Hy).
  set (ex := ilog2 x) in *. set (ey := ilog2 y) in *.
  set (qx := Z.max (ex - 52) (-1074)). set (qy := Z.max (ey - 52) (-1074)).
  pose proof (pow2_pos qx) as Pqx. pose proof (pow2_pos qy) as Pqy.
  destruct (Z.eq_dec qx qy) as [Eq | Hne].
  - rewrite Eq. apply Qmult_le_compat_r; [| lra].
    rewrite <- Zle_Qle. apply rne_monotone.
    unfold Qdiv. apply Qmult_le_compat_r; [exact Hxy |].
    apply Qinv_le_0_compat. lra.
  - assert (Hq : (qx < qy)%Z) by lia.
    assert (Hqy : qy = (ey - 52)%Z) by lia.
    assert (Hex : (ex + 1 <= ey)%Z) by lia.
    apply (Qle_trans _ (pow2 ey)).
    + assert (Hb : x / pow2 qx <= inject_Z (2 ^ (ey - qx))).
      { rewrite <- pow2_Z by lia. apply Qle_shift_div_r; [exact Pqx |].
        rewrite <- pow2_add. replace (ey - qx + qx)%Z with ey by lia.
        pose proof (pow2_le (ex + 1) ey Hex). lra. }
      apply rne_monotone in Hb. rewrite rne_int in Hb.
      rewrite Zle_Qle in Hb. rewrite <- pow2_Z in Hb by lia.
      assert (E : pow2 ey == pow2 (ey - qx) * pow2 qx).
      { rewrite <- pow2_add. replace (ey - qx + qx)%Z with ey by lia.
        reflexivity. }
      rewrite E. apply Qmult_le_compat_r; lra.
    + assert (Hb : inject_Z (2 ^ 52) <= y / pow2 qy).
      { rewrite <- pow2_Z by lia. apply Qle_shift_div_l; [exact Pqy |].
        rewrite <- pow2_add. rewrite Hqy.
        replace (52 + (ey - 52))%Z with ey by lia. exact Ly. }
      apply rne_monotone in Hb. rewrite rne_int in Hb.
      rewrite Zle_Qle in Hb. rewrite <- pow2_Z in Hb by lia.
      assert (E : pow2 ey == pow2 52 * pow2 qy).
      { rewrite <- pow2_add. rewrite Hqy.
        replace (52 + (ey - 52))%Z with ey by lia. reflexivity. }
      rewrite E. apply Qmult_le_compat_r; lra.
Qed.

Lemma rnd_monotone (x y : Q) : 0 <= x -> x <= y -> rnd x <= rnd y.
Proof.
  intros Hx Hxy. destruct (Qlt_le_dec 0 x) as [Hpos | Hzero].
  - apply rnd_monotone_pos; assumption.
  - rewrite (rnd_zero x) by lra. apply rnd_nonneg. lra.
Qed.

(** In the normal range the relative error is at most 2^-53. *)
Lemma rnd_error (x : Q) :
  pow2 (-1022) <= x ->
  x - x * pow2 (-53) <= rnd x <= x + x * pow2 (-53).
Proof.
  intros Hn. pose proof (pow2_pos (-1022)) as P.
  assert (Hx : 0 < x) by lra.
  destruct (ilog2_spec x Hx) as [L U].
  assert (He : (-1022 < ilog2 x + 1)%Z) by (apply pow2_lt_inv; lra).
  pose proof (rnd_bounds x) as [B1 B2].
  rewrite (quantum_pos x Hx) in B1, B2.
  replace (Z.max (ilog2 x - 52) (-1074) - 1)%Z
    with (ilog2 x + -53)%Z in B1, B2 by lia.
  rewrite pow2_add in B1, B2.
  pose proof (pow2_pos (-53)) as P53.
  assert (M : pow2 (ilog2 x) * pow2 (-53) <= x * pow2 (-53))
    by (apply Qmult_le_compat_r; lra).
  lra.
Qed.

End RndFacts.

Section StepFacts.

Import Binary64.

Lemma pow2_m53 : pow2 (-53) == 1 # 9007199254740992.
Proof. reflexivity. Qed.

Lemma pow2_m52 : pow2 (-52) == 1 # 4503599627370496.
Proof. reflexivity. Qed.

Lemma rnd_one : rnd 1 == 1.
Proof. apply (rnd_int 1). lia. Qed.

Lemma rnd_tiny : rnd (pow2 (-1022)) == pow2 (-1022).
Proof. apply Qeq_bool_eq. vm_compute. reflexivity. Qed.

Lemma ofInt_exact (k : Z) :
  (0 <= k < 2 ^ 53)%Z -> ofInt k == inject_Z k.
Proof. apply rnd_int. Qed.

Lemma RoundZ_close (y : Q) (L : Z) :
  inject_Z L - (1 # 2) < y -> y < inject_Z L + (1 # 2) -> RoundZ y = L.
Proof.
  intros H1 H2. destruct (RoundZ_near y) as [N1 N2].
  assert (A : inject_Z (L - 1) < inject_Z (RoundZ y))
    by (rewrite inject_Z_pred; lra).
  assert (B : inject_Z (RoundZ y) < inject_Z (L + 1))
    by (rewrite inject_Z_succ; lra).
  rewrite <- Zlt_Qlt in A, B. lia.
Qed.

Lemma inject_Z_pos (k : Z) : (0 < k)%Z -> 0 < inject_Z k.
Proof.
  intros H. change 0 with (inject_Z 0). rewrite <- Zlt_Qlt. exact H.
Qed.

(** The float64 product [p * float64(k)] of a progress in the unit
    interval: it does not leave [0, k], and either it is within the
    relative error 2^-53 of the exact product or both are below one
    half. *)
Lemma product_rounded (p : Q) (k : Z) :
  0 <= p <= 1 -> (0 < k < 2 ^ 53)%Z ->
  let y := rnd (p * inject_Z k) in
  mul p (ofInt k) == y /\
  0 <= y <= inject_Z k /\
  ((p * inject_Z k - p * inject_Z k * pow2 (-53) <= y
    /\ y <= p * inject_Z k + p * inject_Z k * pow2 (-53))
   \/ (p * inject_Z k < 1 # 4 /\ y < 1 # 4)).
Proof.
  intros [Hp0 Hp1] [Hk0 Hk1] y.
  pose proof (ofInt_exact k ltac:(lia)) as Ek.
  pose proof (inject_Z_pos k Hk0) as HK.
  assert (Hpk : 0 <= p * inject_Z k) by (apply Qmult_le_0_compat; lra).
  assert (Hle : p * inject_Z k <= inject_Z k).
  { assert (H : p * inject_Z k <= 1 * inject_Z k)
      by (apply Qmult_le_compat_r; lra).
    lra. }
  split; [| split].
  - unfold mul. apply rnd_comp.
    + apply Qmult_le_0_compat; [exact Hp0 | rewrite Ek; lra].
    + rewrite Ek. reflexivity.
  - split; [apply rnd_nonneg; exact Hpk |].
    rewrite <- (rnd_int k) by lia. apply rnd_monotone; assumption.
  - destruct (Qlt_le_dec (p * inject_Z k) (pow2 (-1022))) as [Hs | Hn].
    + right.
      assert (T : pow2 (-1022) < 1 # 4)
        by (change (1 # 4) with (pow2 (-2)); apply pow2_lt; lia).
      split; [lra |].
      apply (Qle_lt_trans _ (pow2 (-1022))); [| exact T].
      rewrite <- rnd_tiny. apply rnd_monotone; lra.
    + left. apply rnd_error. exact Hn.
Qed.

(** The level chosen by the quantization and the value returned for it. *)
Lemma quantized_level (p : Q) (k : Z) :
  0 <= p <= 1 -> (0 < k < 2 ^ 53)%Z ->
  exists L : Z,
    L = RoundZ (mul p (ofInt k)) /\
    (0 <= L <= k)%Z /\
    applySteps k p == div (inject_Z L) (inject_Z k) /\
    (forall i : Z,
        Qabs (inject_Z L - p * inject_Z k)
        <= Qabs (inject_Z i - p * inject_Z k) + p * inject_Z k * pow2 (-52)) /\
    Qabs (applySteps k p - inject_Z L / inject_Z k)
    <= inject_Z L / inject_Z k * pow2 (-53) /\
    0 <= applySteps k p <= 1.
Proof.
  intros Hp Hk. pose proof Hp as [Hp0 Hp1]. pose proof Hk as [Hk0 Hk1].
  pose proof (ofInt_exact k ltac:(lia)) as Ek.
  pose proof (inject_Z_pos k Hk0) as HK.
  destruct (product_rounded p k Hp Hk) as [Em [[Hy0 Hy1] Herr]].
  set (y := rnd (p * inject_Z k)) in *.
  exists (RoundZ y).
  assert (HL : (0 <= RoundZ y <= k)%Z)
    by (apply RoundZ_between; [exact Hy0 | exact Hy1]).
  destruct HL as [HL0 HL1]. set (L := RoundZ y) in *.
  assert (QL0 : 0 <= inject_Z L)
    by (change 0 with (inject_Z 0); rewrite <- Zle_Qle; exact HL0).
  assert (QL1 : inject_Z L <= inject_Z k) by (rewrite <- Zle_Qle; exact HL1).
  assert (Ha0 : 0 <= inject_Z L / inject_Z k)
    by (apply Qle_shift_div_l; lra).
  assert (Ha1 : inject_Z L / inject_Z k <= 1)
    by (apply Qle_shift_div_r; lra).
  assert (Eres : applySteps k p == rnd (inject_Z L / inject_Z k)).
  { unfold applySteps.
    destruct (Z.ltb_spec 0 k) as [_ | ?]; [| lia].
    unfold div, Round. rewrite (RoundZ_comp _ _ Em). fold L.
    apply rnd_comp.
    - apply Qle_shift_div_l; [rewrite Ek; exact HK | lra].
    - rewrite Ek. reflexivity. }
  split; [symmetry; apply RoundZ_comp; exact Em |].
  split; [split; assumption |].
  split; [exact Eres |].
  split; [| split].
  - intros i. pose proof (RoundZ_nearest y i) as Hn. fold L in Hn.
    pose proof pow2_m52 as E52. pose proof pow2_m53 as E53.
    assert (Hpk : 0 <= p * inject_Z k) by (apply Qmult_le_0_compat; lra).
    destruct Herr as [[E1 E2] | [S1 S2]].
    + revert Hn. rewrite E52. rewrite E53 in E1, E2.
      set (x := p * inject_Z k) in *.
      apply Qabs_case; intros A1; apply Qabs_case; intros A2;
        apply Qabs_case; intros A3; apply Qabs_case; intros A4; lra.
    + assert (EL : L = 0%Z).
      { apply RoundZ_close; change (inject_Z 0) with 0; lra. }
      rewrite EL. change (inject_Z 0) with 0.
      assert (Hi : (i = 0 \/ i <= -1 \/ 1 <= i)%Z) by lia.
      assert (T : 0 <= p * inject_Z k * pow2 (-52)).
      { apply Qmult_le_0_compat; [exact Hpk | rewrite E52; lra]. }
      destruct Hi as [-> | [Hi | Hi]].
      * change (inject_Z 0) with 0. lra.
      * rewrite Zle_Qle in Hi. change (inject_Z (-1)) with (-1) in Hi.
        apply Qabs_case; intros A1; apply Qabs_case; intros A2; lra.
      * rewrite Zle_Qle in Hi. change (inject_Z 1) with 1 in Hi.
        apply Qabs_case; intros A1; apply Qabs_case; intros A2; lra.
  - rewrite Eres. pose proof pow2_m53 as E53.
    destruct (Z.eq_dec L 0) as [E0 | Hne].
    + rewrite E0. rewrite (rnd_zero (inject_Z 0 / inject_Z k))
        by (unfold Qdiv; change (inject_Z 0) with 0; ring).
      change (inject_Z 0) with 0. unfold Qdiv. rewrite !Qmult_0_l.
      apply Qle_refl.
    + assert (Hone : 1 <= inject_Z L)
        by (change 1 with (inject_Z 1); rewrite <- Zle_Qle; lia).
      assert (Hn : pow2 (-1022) <= inject_Z L / inject_Z k).
      { apply Qle_shift_div_l; [exact HK |].
        assert (B : inject_Z k < inject_Z (2 ^ 53))
          by (rewrite <- Zlt_Qlt; exact Hk1).
        rewrite <- pow2_Z in B by lia.
        assert (M : pow2 (-1022) * inject_Z k <= pow2 (-1022) * pow2 53).
        { apply Qmult_le_l; [apply pow2_pos | lra]. }
        rewrite <- pow2_add in M.
        pose proof (pow2_le (-1022 + 53) 0 ltac:(lia)) as P.
        change (pow2 0) with 1 in P. lra. }
      destruct (rnd_error _ Hn) as [R1 R2].
      apply Qabs_Qle_condition. lra.
  - rewrite Eres. split; [apply rnd_nonneg; exact Ha0 |].
    rewrite <- rnd_one. apply rnd_monotone; assumption.
Qed.

(** A quantized progress is quantized to itself when the step count is at
    most 2^50. *)
Lemma quantized_fixed (p : Q) (k : Z) :
  0 <= p <= 1 -> (0 < k <= 2 ^ 50)%Z ->
  applySteps k (applySteps k p) == applySteps k p.
Proof.
  intros Hp [Hk0 Hk1].
  assert (Hk : (0 < k < 2 ^ 53)%Z) by lia.
  pose proof (inject_Z_pos k Hk0) as HK.
  destruct (quantized_level p k Hp Hk)
    as [L [_ [[HL0 HL1] [Eres [_ [Herr Hr]]]]]].
  set (r := applySteps k p) in *.
  destruct (quantized_level r k Hr Hk) as [L' [EL' [_ [Eres' _]]]].
  destruct (product_rounded r k Hr Hk) as [Em [[Hy0 Hy1] Hprod]].
  set (y := rnd (r * inject_Z k)) in *.
  rewrite (RoundZ_comp _ _ Em) in EL'.
  pose proof pow2_m53 as E53.
  assert (QL0 : 0 <= inject_Z L)
    by (change 0 with (inject_Z 0); rewrite <- Zle_Qle; exact HL0).
  assert (QL1 : inject_Z L <= inject_Z (2 ^ 50))
    by (rewrite <- Zle_Qle; lia).
  change (inject_Z (2 ^ 50)) with 1125899906842624 in QL1.
  (* r * k is within L * 2^-53 of L *)
  assert (Ea : inject_Z L / inject_Z k * inject_Z k == inject_Z L)
    by (field; lra).
  assert (Hrk : inject_Z L - inject_Z L * pow2 (-53) <= r * inject_Z k
                /\ r * inject_Z k <= inject_Z L + inject_Z L * pow2 (-53)).
  { apply Qabs_Qle_condition in Herr. destruct Herr as [H1 H2].
    assert (A : (r - inject_Z L / inject_Z k) * inject_Z k
                <= inject_Z L / inject_Z k * pow2 (-53) * inject_Z k)
      by (apply Qmult_le_compat_r; lra).
    assert (B : - (inject_Z L / inject_Z k * pow2 (-53)) * inject_Z k
                <= (r - inject_Z L / inject_Z k) * inject_Z k)
      by (apply Qmult_le_compat_r; lra).
    assert (E1 : (r - inject_Z L / inject_Z k) * inject_Z k
                 == r * inject_Z k - inject_Z L) by (field; lra).
    assert (E2 : inject_Z L / inject_Z k * pow2 (-53) * inject_Z k
                 == inject_Z L * pow2 (-53)) by (field; lra).
    assert (E3 : - (inject_Z L / inject_Z k * pow2 (-53)) * inject_Z k
                 == - (inject_Z L * pow2 (-53))) by (field; lra).
    rewrite E1, E2 in A. rewrite E1, E3 in B. lra. }
  destruct Hrk as [Hrk1 Hrk2]. rewrite E53 in Hrk1, Hrk2.
  assert (Hclose : inject_Z L - (1 # 2) < y /\ y < inject_Z L + (1 # 2)).
  { destruct Hprod as [[P1 P2] | [S1 S2]].
    - rewrite E53 in P1, P2.
      assert (M : r * inject_Z k * (1 # 9007199254740992)
                  <= (inject_Z L + inject_Z L * (1 # 9007199254740992))
                     * (1 # 9007199254740992))
        by (apply Qmult_le_compat_r; lra).
      lra.
    - destruct (Z.eq_dec L 0) as [E0 | Hne].
      + rewrite E0. change (inject_Z 0) with 0. lra.
      + assert (Hone : 1 <= inject_Z L)
          by (change 1 with (inject_Z 1); rewrite <- Zle_Qle; lia).
        lra. }
  assert (ELL : L' = L)
    by (rewrite EL'; apply RoundZ_close; apply Hclose).
  rewrite Eres', ELL, Eres. unfold div. reflexivity.
Qed.

End StepFacts.

(** C2 (amended).  With a step count k > 0 the quantized progress is
    round(p * k) / k computed in float64.  For a progress p in [0,1] and
    0 < k < 2^53: the level L = round(p * k), taken from the float64
    product, is an integer from 0 to k; no integer is closer to the exact
    product p * k than L by more than 2^-52 * p * k, the rounding of the
    product; and the result is the float64 value nearest to L / k, within
    the relative error 2^-53 of L / k and inside [0,1].  With k = 0 the
    progress is unchanged.  For k = 3 and the float64 value of 0.2 the
    result is the float64 value nearest to 1/3. *)
Theorem applySteps_binary64 :
  (forall p : float64, Binary64.applySteps 0 p = p) /\
  (forall (p : float64) (k : Z),
      0 <= p <= 1 -> (0 < k < 2 ^ 53)%Z ->
      exists L : Z,
        L = RoundZ (Binary64.mul p (Binary64.ofInt k)) /\
        (0 <= L <= k)%Z /\
        Binary64.applySteps k p
        == Binary64.div (inject_Z L) (inject_Z k) /\
        (forall i : Z,
            Qabs (inject_Z L - p * inject_Z k)
            <= Qabs (inject_Z i - p * inject_Z k)
               + p * inject_Z k * Binary64.pow2 (-52)) /\
        Qabs (Binary64.applySteps k p - inject_Z L / inject_Z k)
        <= inject_Z L / inject_Z k * Binary64.pow2 (-53) /\
        0 <= Binary64.applySteps k p <= 1) /\
  Binary64.applySteps 3 (Binary64.rnd (2 # 10)) == Binary64.rnd (1 # 3).
Proof.
  split; [reflexivity |]. split; [exact quantized_level |].
  apply Qeq_bool_eq. vm_compute. reflexivity.
Qed.

Lemma applySteps_binary64_witness :
  exists L : Z,
    (0 <= L <= 11)%Z /\
    Binary64.applySteps 11 (Binary64.unitProgress 15 23)
    == Binary64.div (inject_Z L) 11.
Proof.
  destruct applySteps_binary64 as [_ [H _]].
  destruct (H (Binary64.unitProgress 15 23) 11%Z) as [L [_ [HL [E _]]]].
  - split; apply Qle_bool_iff; vm_compute; reflexivity.
  - lia.
  - exists L. split; [exact HL | exact E].
Defined.

(** C2, as stated, fails.  The fourth of eleven gradient units has the
    progress float64(3)/float64(10), a value just below 3/10.  With five
    steps its float64 product with 5 is exactly 3/2, so the level is 2 and
    the result is the float64 value of 2/5, although the exact product
    rounds to 1 and the level 1 is nearer to the progress than the level
    2 is, as exact multiples of 1/5 and as float64 values.  In the same way
    the second of seven units, with three steps, gets the level 1 where the
    exact product rounds to 0. *)
Lemma quantized_level_not_nearest :
  Binary64.unitProgress 3 11 == 5404319552844595 # 18014398509481984 /\
  Binary64.unitProgress 3 11 < 3 # 10 /\
  Binary64.mul (Binary64.unitProgress 3 11) (Binary64.ofInt 5) == 3 # 2 /\
  RoundZ (Binary64.mul (Binary64.unitProgress 3 11) (Binary64.ofInt 5)) = 2%Z /\
  RoundZ (Binary64.unitProgress 3 11 * 5) = 1%Z /\
  Binary64.applySteps 5 (Binary64.unitProgress 3 11) == Binary64.rnd (2 # 5) /\
  Qabs ((1 # 5) - Binary64.unitProgress 3 11)
  < Qabs ((2 # 5) - Binary64.unitProgress 3 11) /\
  Qabs (Binary64.rnd (1 # 5) - Binary64.unitProgress 3 11)
  < Qabs (Binary64.applySteps 5 (Binary64.unitProgress 3 11)
          - Binary64.unitProgress 3 11) /\
  RoundZ (Binary64.mul (Binary64.unitProgress 1 7) (Binary64.ofInt 3)) = 1%Z /\
  RoundZ (Binary64.unitProgress 1 7 * 3) = 0%Z.
Proof.
  split; [apply Qeq_bool_eq; vm_compute; reflexivity |].
  split; [vm_compute; reflexivity |].
  split; [apply Qeq_bool_eq; vm_compute; reflexivity |].
  split; [vm_compute; reflexivity |].
  split; [vm_compute; reflexivity |].
  split; [apply Qeq_bool_eq; vm_compute; reflexivity |].
  split; [vm_compute; reflexivity |].
  split; [vm_compute; reflexivity |].
  split; vm_compute; reflexivity.
Qed.

(** ** Hue delta *)

Section HueFacts.

Lemma oneOf_In (s : string) (names : list string) :
  oneOf s names = true -> In s names.
Proof.
  unfold oneOf. rewrite existsb_exists.
  intros [x [Hin Heq]]. apply String.eqb_eq in Heq. subst. exact Hin.
Qed.

Lemma hueDelta_shortest (hueDirection : string) (h1 h2 : float64) :
  oneOf hueDirection ["shortest"; "short"; "sh"] = true ->
  hueDelta hueDirection h1 h2 = shortestDelta h1 h2.
Proof. intros H. unfold hueDelta. rewrite H. reflexivity. Qed.

Lemma hueDelta_clockwise (hueDirection : string) (h1 h2 : float64) :
  oneOf hueDirection ["clockwise"; "cw"] = true ->
  hueDelta hueDirection h1 h2 = Mod (h2 - h1 + 360) 360.
Proof.
  intros H. apply oneOf_In in H. simpl in H.
  destruct H as [<- | [<- | []]]; reflexivity.
Qed.

Lemma hueDelta_counter (hueDirection : string) (h1 h2 : float64) :
  oneOf hueDirection ["counter-clockwise"; "counterclockwise"; "ccw"] = true ->
  hueDelta hueDirection h1 h2 = - Mod (h1 - h2 + 360) 360.
Proof.
  intros H. apply oneOf_In in H. simpl in H.
  destruct H as [<- | [<- | [<- | []]]]; reflexivity.
Qed.

(** A value that the [switch] does not list takes the [default] branch. *)
Lemma hueDelta_default (hueDirection : string) (h1 h2 : float64) :
  oneOf hueDirection
    ["shortest"; "short"; "sh"; "clockwise"; "cw";
     "counter-clockwise"; "counterclockwise"; "ccw"] = false ->
  hueDelta hueDirection h1 h2 = shortestDelta h1 h2.
Proof.
  unfold hueDelta, oneOf. simpl. intros H.
  repeat (apply orb_false_iff in H; destruct H as [?E H]).
  rewrite E, E0, E1, E2, E3, E4, E5, E6. reflexivity.
Qed.

(** The three branches of the fold. *)
Lemma shortestDelta_cases (h1 h2 : float64) :
  (180 < h2 - h1 /\ shortestDelta h1 h2 = h2 - h1 - 360) \/
  (h2 - h1 < -180 /\ shortestDelta h1 h2 = h2 - h1 + 360) \/
  (-180 <= h2 - h1 <= 180 /\ shortestDelta h1 h2 = h2 - h1).
Proof.
  unfold shortestDelta. cbv zeta.
  destruct (gtb (h2 - h1) 180) eqn:Hgt.
  - left. apply gtb_true in Hgt. split; [exact Hgt | reflexivity].
  - apply gtb_false in Hgt.
    destruct (ltb (h2 - h1) (-180)) eqn:Hlt.
    + right; left. apply ltb_true in Hlt. split; [exact Hlt | reflexivity].
    + right; right. apply ltb_false in Hlt. repeat split; assumption.
Qed.

End HueFacts.

(** C3 (amended).  For hues normalized to [0,360), the hue delta of the
    Shortest policy is the raw difference end - start, lowered by 360 when
    it exceeds 180 and raised by 360 when it is below -180; the result lies
    in the closed interval [-180, 180], so the sweep never exceeds 180
    degrees, and it is -180 only when end - start is exactly -180. *)
Theorem shortest_delta_closed_range (hueDirection : string) (h1 h2 : float64) :
  oneOf hueDirection ["shortest"; "short"; "sh"] = true ->
  0 <= h1 < 360 -> 0 <= h2 < 360 ->
  (180 < h2 - h1 -> hueDelta hueDirection h1 h2 == h2 - h1 - 360) /\
  (h2 - h1 < -180 -> hueDelta hueDirection h1 h2 == h2 - h1 + 360) /\
  (-180 <= h2 - h1 <= 180 -> hueDelta hueDirection h1 h2 == h2 - h1) /\
  -180 <= hueDelta hueDirection h1 h2 <= 180 /\
  Qabs (hueDelta hueDirection h1 h2) <= 180 /\
  (~ h2 - h1 == -180 -> -180 < hueDelta hueDirection h1 h2).
Proof.
  intros Hdir [A1 A2] [B1 B2].
  rewrite (hueDelta_shortest _ _ _ Hdir).
  destruct (shortestDelta_cases h1 h2) as [[C ->] | [[C ->] | [[C1 C2] ->]]].
  - repeat split; try (intros; lra).
    apply Qabs_Qle_condition. lra.
  - repeat split; try (intros; lra).
    apply Qabs_Qle_condition. lra.
  - repeat split; try (intros; lra).
    apply Qabs_Qle_condition. lra.
Qed.

Lemma shortest_delta_closed_range_witness :
  hueDelta "shortest" 350 10 == 20 /\ hueDelta "sh" 10 350 == -20
  /\ hueDelta "short" 90 180 == 90 /\ -180 <= hueDelta "shortest" 180 0 <= 180.
Proof.
  destruct (shortest_delta_closed_range "shortest" 350 10 eq_refl)
    as [_ [H1 _]]; [lra | lra |].
  destruct (shortest_delta_closed_range "sh" 10 350 eq_refl)
    as [H2 _]; [lra | lra |].
  destruct (shortest_delta_closed_range "short" 90 180 eq_refl)
    as [_ [_ [H3 _]]]; [lra | lra |].
  destruct (shortest_delta_closed_range "shortest" 180 0 eq_refl)
    as [_ [_ [_ [H4 _]]]]; [lra | lra |].
  split; [| split; [| split]].
  - rewrite H1 by lra. reflexivity.
  - rewrite H2 by lra. reflexivity.
  - rewrite H3 by lra. reflexivity.
  - exact H4.
Defined.

(** C3, as stated, fails: for start hue 180 and end hue 0 the Shortest
    delta is -180, which is outside the half-open interval (-180, 180]. *)
Lemma shortest_delta_reaches_minus_180 :
  ~ (forall h1 h2 : float64,
        0 <= h1 < 360 -> 0 <= h2 < 360 ->
        -180 < hueDelta "shortest" h1 h2 <= 180).
Proof.
  intros H. destruct (H 180 0) as [Hlo _]; [lra | lra |].
  vm_compute in Hlo. discriminate Hlo.
Qed.

(** C4.  For hues normalized to [0,360), the Clockwise delta is
    ((end - start) + 360) mod 360 and is never negative, and the
    CounterClockwise delta is -(((start - end) + 360) mod 360) and is never
    positive; both stay below a full turn and differ from end - start by a
    whole number of turns. *)
Theorem directed_delta_sign (cw ccw : string) (h1 h2 : float64) :
  oneOf cw ["clockwise"; "cw"] = true ->
  oneOf ccw ["counter-clockwise"; "counterclockwise"; "ccw"] = true ->
  0 <= h1 < 360 -> 0 <= h2 < 360 ->
  (hueDelta cw h1 h2 = Mod (h2 - h1 + 360) 360 /\
   0 <= hueDelta cw h1 h2 < 360 /\
   (hueDelta cw h1 h2 == h2 - h1 \/ hueDelta cw h1 h2 == h2 - h1 + 360)) /\
  (hueDelta ccw h1 h2 = - Mod (h1 - h2 + 360) 360 /\
   -360 < hueDelta ccw h1 h2 <= 0 /\
   (hueDelta ccw h1 h2 == h2 - h1 \/ hueDelta ccw h1 h2 == h2 - h1 - 360)).
Proof.
  intros Hcw Hccw [A1 A2] [B1 B2].
  rewrite (hueDelta_clockwise _ _ _ Hcw), (hueDelta_counter _ _ _ Hccw).
  split; (split; [reflexivity |]).
  - destruct (Qlt_le_dec (h2 - h1) 0) as [Hneg | Hpos].
    + rewrite (Mod360_id (h2 - h1 + 360)) by lra.
      split; [lra | right; reflexivity].
    + rewrite (Mod360_one_turn (h2 - h1 + 360)) by lra.
      split; [lra | left; lra].
  - destruct (Qlt_le_dec (h1 - h2) 0) as [Hneg | Hpos].
    + rewrite (Mod360_id (h1 - h2 + 360)) by lra.
      split; [lra | right; lra].
    + rewrite (Mod360_one_turn (h1 - h2 + 360)) by lra.
      split; [lra | left; lra].
Qed.

Lemma directed_delta_sign_witness :
  hueDelta "clockwise" 350 10 == 20 /\ hueDelta "cw" 10 350 == 340
  /\ hueDelta "counter-clockwise" 350 10 == -340 /\ hueDelta "ccw" 10 350 == -20.
Proof.
  destruct (directed_delta_sign "clockwise" "counter-clockwise" 350 10
              eq_refl eq_refl) as [[H1 _] [H2 _]]; [lra | lra |].
  destruct (directed_delta_sign "cw" "ccw" 10 350 eq_refl eq_refl)
    as [[H3 _] [H4 _]]; [lra | lra |].
  rewrite H1, H2, H3, H4. repeat split; reflexivity.
Defined.

(** ** Channels: clamping and conversion to bytes *)

Section ChannelFacts.

Lemma trunc_comp (x y : float64) : x == y -> trunc x = trunc y.
Proof.
  intros E. unfold trunc. rewrite (Qleb_comp 0 0 (Qeq_refl 0) x y E).
  destruct (Qle_bool 0 y); [apply Qfloor_comp | apply Qceiling_comp]; exact E.
Qed.

Lemma Qle_bool_inject (a b : Z) :
  Qle_bool (inject_Z a) (inject_Z b) = (a <=? b)%Z.
Proof.
  destruct (Z.leb_spec a b) as [H | H].
  - apply Qle_bool_iff. rewrite <- Zle_Qle. exact H.
  - apply Qle_bool_false. rewrite <- Zlt_Qlt. exact H.
Qed.

Lemma clamp01_range (v : float64) : 0 <= clamp01 v <= 1.
Proof.
  unfold clamp01, Max, Min.
  destruct (Qle_bool v 1) eqn:E1.
  - apply Qle_bool_iff in E1.
    destruct (Qle_bool 0 v) eqn:E0.
    + apply Qle_bool_iff in E0. lra.
    + lra.
  - change (Qle_bool 0 1) with true. cbv iota. lra.
Qed.

(** Inside the unit interval the clamp changes nothing. *)
Lemma clamp01_unit (v : float64) : 0 <= v <= 1 -> clamp01 v == v.
Proof.
  intros [H0 H1]. unfold clamp01, Max, Min.
  apply Qle_bool_iff in H1. rewrite H1.
  destruct (Qle_bool 0 v) eqn:E0; [reflexivity |].
  apply Qle_bool_false in E0. lra.
Qed.

Lemma clamp01_comp (v w : float64) : v == w -> clamp01 v == clamp01 w.
Proof.
  intros E. unfold clamp01, Max, Min.
  rewrite (Qleb_comp v w E 1 1 (Qeq_refl 1)).
  destruct (Qle_bool w 1).
  - rewrite (Qleb_comp 0 0 (Qeq_refl 0) v w E).
    destruct (Qle_bool 0 w); [exact E | reflexivity].
  - reflexivity.
Qed.

Lemma uint8_comp (x y : float64) : x == y -> uint8 x = uint8 y.
Proof. intros E. unfold uint8. rewrite (trunc_comp x y E). reflexivity. Qed.

(** The byte of a channel in the unit interval: the conversion neither
    wraps nor leaves [0, 255]. *)
Lemma uint8_unit (v : float64) :
  0 <= v <= 1 ->
  uint8 (v * 255 + (1 # 2)) = Qfloor (v * 255 + (1 # 2)) /\
  isByte (uint8 (v * 255 + (1 # 2))).
Proof.
  intros [H0 H1]. unfold uint8, trunc, isByte.
  assert (Hx : 0 <= v * 255 + (1 # 2)) by lra.
  apply Qle_bool_iff in Hx. rewrite Hx.
  assert (Hlo : (Qfloor 0 <= Qfloor (v * 255 + (1 # 2)))%Z)
    by (apply Qfloor_resp_le; lra).
  assert (Hhi : (Qfloor (v * 255 + (1 # 2)) <= Qfloor (255 + (1 # 2)))%Z)
    by (apply Qfloor_resp_le; lra).
  change (Qfloor 0) with 0%Z in Hlo.
  change (Qfloor (255 + (1 # 2))) with 255%Z in Hhi.
  rewrite Z.mod_small by lia. split; [reflexivity | lia].
Qed.

Lemma Ceq_refl (c : Color) : Ceq c c.
Proof. repeat split; reflexivity. Qed.

Lemma Ceq_trans (c d e : Color) : Ceq c d -> Ceq d e -> Ceq c e.
Proof.
  intros [A1 [A2 A3]] [B1 [B2 B3]].
  repeat split; etransitivity; eassumption.
Qed.

(** Equal colors print the same three bytes. *)
Lemma RGB255_Clamped_comp (c d : Color) :
  Ceq c d -> RGB255 (Clamped c) = RGB255 (Clamped d).
Proof.
  intros [E1 [E2 E3]]. unfold RGB255, Clamped. simpl.
  f_equal; [f_equal |]; apply uint8_comp;
    rewrite (clamp01_comp _ _ E1) || rewrite (clamp01_comp _ _ E2)
    || rewrite (clamp01_comp _ _ E3); reflexivity.
Qed.

End ChannelFacts.

(** ** Hue angles up to whole turns *)

Section TurnFacts.

Lemma sameHue_eq (a b : float64) : a == b -> sameHue a b.
Proof. intros E. exists 0%Z. rewrite E. change (inject_Z 0) with 0. ring. Qed.

Lemma sameHue_trans (a b c : float64) :
  sameHue a b -> sameHue b c -> sameHue a c.
Proof.
  intros [k Hk] [m Hm]. exists (k + m)%Z.
  rewrite Hk, Hm, inject_Z_plus. ring.
Qed.

Lemma sameHue_shift (a b c : float64) :
  sameHue a b -> sameHue (a + c) (b + c).
Proof. intros [k Hk]. exists k. rewrite Hk. ring. Qed.

Lemma sameHue_turn (a : float64) : sameHue (a + 360) a.
Proof. exists 1%Z. change (inject_Z 1) with 1. ring. Qed.

Lemma sameHue_Mod (x : float64) : sameHue (Mod x 360) x.
Proof.
  exists (- trunc (x / 360))%Z.
  rewrite Mod360_turns, inject_Z_opp. ring.
Qed.

(** The normalization line [h = math.Mod(h+360, 360)]. *)
Lemma sameHue_normalized (h : float64) : sameHue (Mod (h + 360) 360) h.
Proof.
  apply (sameHue_trans _ (h + 360)); [apply sameHue_Mod | apply sameHue_turn].
Qed.

(** Under every policy the delta leads from the start hue to the end hue,
    up to whole turns. *)
Lemma hueDelta_reaches_end (hueDirection : string) (h1 h2 : float64) :
  sameHue (h1 + hueDelta hueDirection h1 h2) h2.
Proof.
  assert (S : sameHue (h1 + shortestDelta h1 h2) h2).
  { destruct (shortestDelta_cases h1 h2) as [[_ ->] | [[_ ->] | [_ ->]]].
    - exists (-1)%Z. change (inject_Z (-1)) with (-1). ring.
    - exists 1%Z. change (inject_Z 1) with 1. ring.
    - apply sameHue_eq. ring. }
  unfold hueDelta.
  destruct (oneOf hueDirection ["shortest"; "short"; "sh"]); [exact S |].
  destruct (oneOf hueDirection ["clockwise"; "cw"]).
  - exists (1 - trunc ((h2 - h1 + 360) / 360))%Z.
    rewrite Mod360_turns. unfold Z.sub.
    rewrite inject_Z_plus, inject_Z_opp. change (inject_Z 1) with 1. ring.
  - destruct (oneOf hueDirection
                ["counter-clockwise"; "counterclockwise"; "ccw"]);
      [| exact S].
    exists (trunc ((h1 - h2 + 360) / 360) - 1)%Z.
    rewrite Mod360_turns, inject_Z_pred. ring.
Qed.

End TurnFacts.

(** ** The cobra variant: blending and color escapes *)

Section CobraFacts.

Variable Hex : string -> option Color.
Variable Color_Hcl : Color -> float64 * float64 * float64.
Variable Hcl : float64 -> float64 -> float64 -> Color.

Local Abbreviation blend := (Cobra.blendHCLWithDirection Color_Hcl Hcl).
Local Abbreviation gradientColor :=
  (Cobra.getGradientColor Hex Color_Hcl Hcl).

(** At progress 0 the blend is the start color and at progress 1 it is the
    end color, under each hue-direction value. *)
Lemma blend_endpoints (c1 c2 : Color) (hueDirection : string) :
  hueCyclic Hcl ->
  roundTrips Color_Hcl Hcl c1 -> roundTrips Color_Hcl Hcl c2 ->
  Ceq (blend c1 c2 0 hueDirection) c1 /\ Ceq (blend c1 c2 1 hueDirection) c2.
Proof.
  intros Hcyc T1 T2. unfold roundTrips in T1, T2.
  unfold Cobra.blendHCLWithDirection.
  destruct (Color_Hcl c1) as [[h1 ch1] l1].
  destruct (Color_Hcl c2) as [[h2 ch2] l2].
  split.
  - apply (Ceq_trans _ (Hcl h1 ch1 l1)); [| exact T1].
    apply Hcyc; [| ring | ring].
    apply (sameHue_trans _ (Mod (h1 + 360) 360)); [| apply sameHue_normalized].
    apply (sameHue_trans _ _ _ (sameHue_Mod _)).
    apply (sameHue_trans _ (Mod (h1 + 360) 360 + 360)); [| apply sameHue_turn].
    apply sameHue_eq. ring.
  - apply (Ceq_trans _ (Hcl h2 ch2 l2)); [| exact T2].
    apply Hcyc; [| ring | ring].
    apply (sameHue_trans _ (Mod (h2 + 360) 360)); [| apply sameHue_normalized].
    apply (sameHue_trans _ _ _ (sameHue_Mod _)).
    set (n1 := Mod (h1 + 360) 360). set (n2 := Mod (h2 + 360) 360).
    apply (sameHue_trans _ (n1 + hueDelta hueDirection n1 n2 + 360)).
    + apply sameHue_eq. ring.
    + apply (sameHue_trans _ _ _ (sameHue_turn _)).
      apply hueDelta_reaches_end.
Qed.

(** With both color strings accepted by the parser, [getGradientColor]
    returns the escape of the clamped blend. *)
Lemma gradientColor_ok (progress : float64) (startHex endHex dir : string)
    (c1 c2 : Color) :
  Hex startHex = Some c1 -> Hex endHex = Some c2 ->
  gradientColor progress startHex endHex dir
  = inr (colorPartOf3 (RGB255 (Clamped (blend c1 c2 progress dir)))).
Proof.
  intros H1 H2. unfold Cobra.getGradientColor. rewrite H1, H2.
  unfold colorPartOf3.
  destruct (RGB255 (Clamped (blend c1 c2 progress dir))) as [[r g] b].
  reflexivity.
Qed.

End CobraFacts.

(** ** The exact instance meets the library laws *)

Section StubFacts.

Lemma floor_shift (x : Q) (k : Z) :
  Qfloor (x + inject_Z k) = (Qfloor x + k)%Z.
Proof.
  destruct (floor_bounds x) as [F1 F2].
  apply floor_unique; rewrite inject_Z_plus; lra.
Qed.

Lemma frac_shift (x y : Q) (k : Z) :
  x == y + inject_Z k -> Stub.frac x == Stub.frac y.
Proof.
  intros E. unfold Stub.frac.
  rewrite (Qfloor_comp _ _ E), floor_shift, inject_Z_plus, E. ring.
Qed.

Lemma Stub_hueCyclic : hueCyclic Stub.Hcl.
Proof.
  intros h h' c c' l l' [k Hk] Hc Hl. unfold Stub.Hcl, Ceq. simpl.
  split; [| split; assumption].
  assert (E : h' / 360 == h / 360 + inject_Z k) by (rewrite Hk; field).
  rewrite (frac_shift _ _ _ E). reflexivity.
Qed.

(** The instance round-trips every color whose first channel is in the
    unit interval. *)
Lemma Stub_roundTrips (c : Color) :
  0 <= R c <= 1 -> roundTrips Stub.Color_Hcl Stub.Hcl c.
Proof.
  destruct c as [r g b]. cbn [R G B]. intros [H0 H1].
  unfold roundTrips, Stub.Color_Hcl, Stub.Hcl, Ceq. cbn [R G B].
  split; [| split; reflexivity]. unfold Stub.frac.
  assert (E : r * 300 / 360 == r * (5 # 6)) by field.
  assert (F : Qfloor (r * 300 / 360) = 0%Z).
  { rewrite (Qfloor_comp _ _ E).
    apply floor_unique; change (inject_Z 0) with 0; lra. }
  rewrite F, E. change (inject_Z 0) with 0. field.
Qed.

End StubFacts.

(** ** The byte printed for one channel *)

Section ChannelBytes.

Lemma RGB255_Clamped_channels (c : Color) :
  RGB255 (Clamped c) = (channelByte (R c), channelByte (G c), channelByte (B c)).
Proof. reflexivity. Qed.

Lemma channelByte_floor (v : float64) :
  channelByte v = Qfloor (clamp01 v * 255 + (1 # 2)) /\ isByte (channelByte v).
Proof. apply uint8_unit, clamp01_range. Qed.

(** At and below 0 the clamp yields the byte 0. *)
Lemma channelByte_low (v : float64) : v <= 0 -> channelByte v = 0%Z.
Proof.
  intros Hv. destruct (channelByte_floor v) as [-> _].
  assert (E : clamp01 v == 0).
  { unfold clamp01, Max, Min.
    destruct (Qle_bool v 1) eqn:E1; [| apply Qle_bool_false in E1; lra].
    destruct (Qle_bool 0 v) eqn:E0; [apply Qle_bool_iff in E0; lra |].
    reflexivity. }
  apply floor_unique; rewrite E; change (inject_Z 0) with 0; lra.
Qed.

(** At and above 1 the clamp yields the byte 255. *)
Lemma channelByte_high (v : float64) : 1 <= v -> channelByte v = 255%Z.
Proof.
  intros Hv. destruct (channelByte_floor v) as [-> _].
  assert (E : clamp01 v == 1).
  { unfold clamp01, Max, Min.
    destruct (Qle_bool v 1) eqn:E1.
    - apply Qle_bool_iff in E1.
      destruct (Qle_bool 0 v) eqn:E0; [lra | apply Qle_bool_false in E0; lra].
    - reflexivity. }
  apply floor_unique; rewrite E; change (inject_Z 255) with 255; lra.
Qed.

Lemma clamp01_monotone (v w : float64) : v <= w -> clamp01 v <= clamp01 w.
Proof.
  intros Hvw. unfold clamp01, Max, Min.
  destruct (Qle_bool v 1) eqn:V1; destruct (Qle_bool w 1) eqn:W1;
    try apply Qle_bool_iff in V1; try apply Qle_bool_iff in W1;
    try apply Qle_bool_false in V1; try apply Qle_bool_false in W1;
    change (Qle_bool 0 1) with true; cbv iota;
    destruct (Qle_bool 0 v) eqn:V0; destruct (Qle_bool 0 w) eqn:W0;
    try apply Qle_bool_iff in V0; try apply Qle_bool_iff in W0;
    try apply Qle_bool_false in V0; try apply Qle_bool_false in W0;
    lra.
Qed.

(** A larger channel value never prints a smaller byte. *)
Lemma channelByte_monotone (v w : float64) :
  v <= w -> (channelByte v <= channelByte w)%Z.
Proof.
  intros Hvw. destruct (channelByte_floor v) as [-> _].
  destruct (channelByte_floor w) as [-> _].
  apply Qfloor_resp_le. pose proof (clamp01_monotone v w Hvw). lra.
Qed.

End ChannelBytes.

(** C6.  Every channel of an interpolated output color is an integer in
    [0,255], for every progress value, inside [0,1] or not, and it gets
    there by clamping.  For valid endpoint colors the cobra variant, which
    blends in HCL under every hue-direction value, and the flag variant,
    which blends in RGB, HCL or LAB, print for each channel of the blended
    color the byte that [Clamped] followed by [RGB255] gives it, and that
    byte lies in [0,255], is 0 for every channel value at or below 0, is
    255 for every channel value at or above 1, and never decreases when the
    channel value grows: an out-of-range channel is held at the nearer end
    of the range and never wraps around. *)
Theorem channels_clamped :
  (forall v w : float64,
      isByte (channelByte v) /\
      (v <= 0 -> channelByte v = 0%Z) /\
      (1 <= v -> channelByte v = 255%Z) /\
      (v <= w -> (channelByte v <= channelByte w)%Z)) /\
  (forall (Hex : string -> option Color)
          (Color_Hcl : Color -> float64 * float64 * float64)
          (Hcl : float64 -> float64 -> float64 -> Color)
          (progress : float64) (startHex endHex hueDirection : string)
          (c1 c2 : Color),
      Hex startHex = Some c1 -> Hex endHex = Some c2 ->
      let c := Cobra.blendHCLWithDirection Color_Hcl Hcl c1 c2 progress
                 hueDirection in
      Cobra.getGradientColor Hex Color_Hcl Hcl progress startHex endHex
        hueDirection
      = inr (colorPartOf (channelByte (R c)) (channelByte (G c))
               (channelByte (B c)))) /\
  (forall (Hex : string -> option Color)
          (BlendRgb BlendHcl BlendLab : Color -> Color -> float64 -> Color)
          (progress : float64)
          (startHex endHex colorspace hueDirection : string)
          (c1 c2 : Color),
      Hex startHex = Some c1 -> Hex endHex = Some c2 ->
      forall blend : Color -> Color -> float64 -> Color,
        (colorspace = "rgb" /\ blend = BlendRgb)
        \/ (colorspace = "hcl" /\ blend = BlendHcl)
        \/ (colorspace = "lab" /\ blend = BlendLab) ->
        let c := blend c1 c2 progress in
        FlagCli.getGradientColor Hex BlendRgb BlendHcl BlendLab progress
          startHex endHex colorspace hueDirection
        = inr (colorPartOf (channelByte (R c)) (channelByte (G c))
                 (channelByte (B c)))).
Proof.
  split; [| split].
  - intros v w. split; [apply channelByte_floor |].
    split; [apply channelByte_low |].
    split; [apply channelByte_high | apply channelByte_monotone].
  - intros Hex Color_Hcl Hcl progress startHex endHex dir c1 c2 H1 H2 c.
    unfold Cobra.getGradientColor. rewrite H1, H2.
    fold c. rewrite RGB255_Clamped_channels. reflexivity.
  - intros Hex BlendRgb BlendHcl BlendLab progress startHex endHex cs dir
      c1 c2 H1 H2 blend Hb c.
    unfold FlagCli.getGradientColor. rewrite H1, H2.
    destruct Hb as [[-> ->] | [[-> ->] | [-> ->]]];
      cbn [String.eqb Ascii.eqb Bool.eqb];
      fold c; rewrite RGB255_Clamped_channels; reflexivity.
Qed.

Lemma channels_clamped_witness :
  FlagCli.getGradientColor Stub.Hex Stub.BlendRgb Stub.BlendRgb Stub.BlendRgb
    5 "#204060" "#406020" "rgb" "shortest" = inr "38;2;192;224;0m" /\
  Cobra.getGradientColor Stub.Hex Stub.Color_Hcl Stub.Hcl
    (-3) "#204060" "#406020" "clockwise" = inr "38;2;242;0;255m" /\
  channelByte 2 = 255%Z /\ channelByte (-7) = 0%Z.
Proof.
  destruct channels_clamped as [HB [HC HF]].
  split; [| split; [| split]].
  - rewrite (HF Stub.Hex Stub.BlendRgb Stub.BlendRgb Stub.BlendRgb 5
               "#204060" "#406020" "rgb" "shortest" _ _ eq_refl eq_refl
               Stub.BlendRgb (or_introl (conj eq_refl eq_refl))).
    reflexivity.
  - rewrite (HC Stub.Hex Stub.Color_Hcl Stub.Hcl (-3)
               "#204060" "#406020" "clockwise" _ _ eq_refl eq_refl).
    reflexivity.
  - destruct (HB 2 2) as [_ [_ [H _]]]. apply H. vm_compute. discriminate.
  - destruct (HB (-7) 0) as [_ [H _]]. apply H. vm_compute. discriminate.
Defined.

(** ** The rendering loop *)

Section EmitFacts.

Context {A B C : Type}.

Lemma bind_assoc (m : Emit A) (k : A -> Emit B) (h : B -> Emit C) :
  bind (bind m k) h = bind m (fun a => bind (k a) h).
Proof.
  destruct m as [out a | out d]; [| reflexivity]. simpl.
  destruct (k a) as [out' b | out' d]; [| reflexivity]. simpl.
  destruct (h b); rewrite app_assoc; reflexivity.
Qed.

Lemma bind_Written (out out' : list rune) (a : A) (b : B)
    (m : Emit A) (k : A -> Emit B) :
  m = Written out a -> k a = Written out' b ->
  bind m k = Written (out ++ out') b.
Proof. intros -> H. simpl. rewrite H. reflexivity. Qed.

End EmitFacts.

Lemma len_cons {A : Type} (a : A) (l : list A) : len (a :: l) = (len l + 1)%Z.
Proof. unfold len. simpl List.length. lia. Qed.

Lemma len_nonneg {A : Type} (l : list A) : (0 <= len l)%Z.
Proof. unfold len. lia. Qed.

Lemma len_app {A : Type} (l m : list A) : len (l ++ m) = (len l + len m)%Z.
Proof. unfold len. rewrite length_app. lia. Qed.

(** A slice of empty lines holds no character. *)
Lemma fold_len_empty (lines : list (list rune)) (acc : Z) :
  Forall (fun line => line = []) lines ->
  fold_left (fun total line => (total + len line)%Z) lines acc = acc.
Proof.
  intros H. revert acc. induction H as [| line rest -> _ IH]; intros acc.
  - reflexivity.
  - simpl. rewrite IH. unfold len. simpl. lia.
Qed.

(** [len(args) > 0] is false only for no arguments. *)
Lemma no_args (args : list string) : (0 <? len args)%Z = false -> args = [].
Proof.
  destruct args as [| a rest]; [reflexivity |].
  rewrite len_cons. intros H. apply Z.ltb_ge in H.
  pose proof (len_nonneg rest). lia.
Qed.

Section CobraRendering.

Variable Hex : string -> option Color.
Variable Color_Hcl : Color -> float64 * float64 * float64.
Variable Hcl : float64 -> float64 -> float64 -> Color.
Variable f : Cobra.Flags.

Local Abbreviation gradientColor :=
  (Cobra.getGradientColor Hex Color_Hcl Hcl).
Local Abbreviation renderEmptyLine :=
  (Cobra.renderEmptyLine Hex Color_Hcl Hcl f).
Local Abbreviation renderChar := (Cobra.renderChar Hex Color_Hcl Hcl f).
Local Abbreviation renderChars := (Cobra.renderChars Hex Color_Hcl Hcl f).
Local Abbreviation renderLine := (Cobra.renderLine Hex Color_Hcl Hcl f).
Local Abbreviation renderLines := (Cobra.renderLines Hex Color_Hcl Hcl f).

(** What the checks of [Run] establish when none of them fails. *)
Lemma validate_passed (args : list string) :
  Cobra.validate Hex f args = None ->
  (exists c1 c2 : Color,
      Hex (Cobra.startColor f) = Some c1 /\ Hex (Cobra.endColor f) = Some c2) /\
  (Cobra.gradientDirection f = "horizontal"
   \/ Cobra.gradientDirection f = "vertical") /\
  (0 <= Cobra.steps f)%Z /\ args = [].
Proof.
  unfold Cobra.validate.
  destruct (Hex (Cobra.startColor f)) as [c1 |]; [| discriminate].
  destruct (Hex (Cobra.endColor f)) as [c2 |]; [| discriminate].
  destruct (negb (Cobra.gradientDirection f =? "horizontal")%string
            && negb (Cobra.gradientDirection f =? "vertical")%string)
    eqn:Ed; [discriminate |].
  destruct (Z.ltb_spec (Cobra.steps f) 0) as [| Hsteps]; [discriminate |].
  destruct (0 <? len args)%Z eqn:Hargs; [discriminate |].
  intros _. split; [exists c1, c2; split; reflexivity |].
  split; [| split; [exact Hsteps | apply no_args; exact Hargs]].
  apply andb_false_iff in Ed.
  destruct Ed as [E | E]; apply negb_false_iff, String.eqb_eq in E; auto.
Qed.

Hypothesis startOk : exists c, Hex (Cobra.startColor f) = Some c.
Hypothesis endOk : exists c, Hex (Cobra.endColor f) = Some c.

Lemma gradientColor_total (progress : float64) :
  exists colorPart : string,
    gradientColor progress (Cobra.startColor f) (Cobra.endColor f)
      (Cobra.hueDirection f) = inr colorPart.
Proof.
  destruct startOk as [c1 H1]. destruct endOk as [c2 H2].
  rewrite (gradientColor_ok Hex Color_Hcl Hcl _ _ _ _ c1 c2 H1 H2).
  eexists. reflexivity.
Qed.

Lemma renderChar_written (total i n : Z) (char : rune) :
  exists out n', renderChar total i n char = Written out n'.
Proof.
  unfold Cobra.renderChar.
  destruct (Cobra.gradientDirection f =? "horizontal")%string.
  - destruct (gradientColor_total
                (applySteps (Cobra.steps f)
                   (applyInvert (Cobra.invert f) (unitProgress n total))))
      as [cp E].
    rewrite E. eexists _, _. reflexivity.
  - destruct (gradientColor_total
                (applySteps (Cobra.steps f)
                   (applyInvert (Cobra.invert f) (unitProgress i total))))
      as [cp E].
    rewrite E. eexists _, _. reflexivity.
Qed.

Lemma renderChars_written (total i : Z) (line : list rune) (n : Z) :
  exists out n', renderChars total i n line = Written out n'.
Proof.
  revert n. induction line as [| char rest IH]; intros n.
  - eexists _, _. reflexivity.
  - destruct (renderChar_written total i n char) as [o1 [n1 E1]].
    destruct (IH n1) as [o2 [n2 E2]].
    exists (o1 ++ o2)%list, n2. simpl.
    apply (bind_Written o1 o2 n1); assumption.
Qed.

(** The colored newline of an empty line under the vertical direction. *)
Lemma renderLine_empty (total i n : Z) :
  Cobra.gradientDirection f = "vertical" -> (1 < total)%Z ->
  exists colorPart : string,
    gradientColor (progressFor i total (Cobra.invert f) (Cobra.steps f))
      (Cobra.startColor f) (Cobra.endColor f) (Cobra.hueDirection f)
      = inr colorPart /\
    renderLine total i n [] = Written (runes (ESC ++ "[" ++ colorPart ++ LF)) n.
Proof.
  intros Hv Ht.
  destruct (gradientColor_total
              (progressFor i total (Cobra.invert f) (Cobra.steps f)))
    as [cp E].
  exists cp. split; [exact E |].
  unfold Cobra.renderLine, Cobra.coloredEmptyLine. rewrite Hv.
  destruct (Z.ltb_spec 1 total); [| lia].
  cbn [String.eqb Ascii.eqb Bool.eqb len List.length Z.of_nat Z.eqb andb].
  unfold Cobra.renderEmptyLine. unfold progressFor in E. rewrite E.
  unfold print. cbn [bind app]. rewrite app_nil_r. reflexivity.
Qed.

Lemma renderLine_written (total i n : Z) (line : list rune) :
  exists out n', renderLine total i n line = Written out n'.
Proof.
  unfold Cobra.renderLine.
  destruct (Cobra.coloredEmptyLine f total line) eqn:Ec.
  - unfold Cobra.renderEmptyLine.
    destruct (gradientColor_total
                (applySteps (Cobra.steps f)
                   (applyInvert (Cobra.invert f) (unitProgress i total))))
      as [cp E].
    rewrite E. eexists _, _. reflexivity.
  - destruct (renderChars_written total i line n) as [o1 [n1 E1]].
    rewrite E1. eexists _, _. reflexivity.
Qed.

Lemma renderLines_written (total : Z) (lines : list (list rune)) (i n : Z) :
  exists out n', renderLines total i n lines = Written out n'.
Proof.
  revert i n. induction lines as [| line rest IH]; intros i n.
  - eexists _, _. reflexivity.
  - destruct (renderLine_written total i n line) as [o1 [n1 E1]].
    destruct (IH (i + 1)%Z n1) as [o2 [n2 E2]].
    exists (o1 ++ o2)%list, n2. simpl.
    apply (bind_Written o1 o2 n1); assumption.
Qed.

(** The output of a slice of lines is the output of its parts, in order,
    each line rendered at its own index. *)
Lemma renderLines_split (total : Z) (pre : list (list rune))
    (line : list rune) (post : list (list rune))
    (i n n1 n2 n3 : Z) (o1 o2 o3 : list rune) :
  renderLines total i n pre = Written o1 n1 ->
  renderLine total (i + len pre) n1 line = Written o2 n2 ->
  renderLines total (i + len pre + 1) n2 post = Written o3 n3 ->
  renderLines total i n (pre ++ line :: post) = Written (o1 ++ o2 ++ o3) n3.
Proof.
  revert i n o1. induction pre as [| first rest IH]; intros i n o1 H1 H2 H3.
  - simpl in H1. injection H1 as <- <-.
    unfold len in H2, H3. simpl in H2, H3. rewrite Z.add_0_r in H2, H3.
    simpl. apply (bind_Written o2 o3 n2); assumption.
  - simpl in H1.
    destruct (renderLine total i n first) as [oa na | oa d] eqn:Ea;
      [| discriminate H1].
    simpl in H1.
    destruct (renderLines total (i + 1) na rest) as [ob nb | ob d] eqn:Eb;
      [| discriminate H1].
    injection H1 as <- <-.
    rewrite len_cons in H2, H3.
    replace (i + (len rest + 1))%Z with (i + 1 + len rest)%Z in H2, H3 by lia.
    pose proof (IH (i + 1)%Z na ob Eb H2 H3) as E.
    simpl. rewrite Ea. simpl. rewrite E. rewrite <- app_assoc. reflexivity.
Qed.

End CobraRendering.

Section FlagRendering.

Variable Hex : string -> option Color.
Variable BlendRgb BlendHcl BlendLab : Color -> Color -> float64 -> Color.
Variable f : FlagCli.Flags.

Local Abbreviation gradientColor :=
  (FlagCli.gradientColor Hex BlendRgb BlendHcl BlendLab f).
Local Abbreviation renderChar :=
  (FlagCli.renderChar Hex BlendRgb BlendHcl BlendLab f).
Local Abbreviation renderChars :=
  (FlagCli.renderChars Hex BlendRgb BlendHcl BlendLab f).
Local Abbreviation renderLine :=
  (FlagCli.renderLine Hex BlendRgb BlendHcl BlendLab f).
Local Abbreviation renderLines :=
  (FlagCli.renderLines Hex BlendRgb BlendHcl BlendLab f).

(** What the checks of [main] establish when none of them fails. *)
Lemma flag_validate_passed (args : list string) :
  FlagCli.validate Hex f args = None ->
  (exists c1 c2 : Color,
      Hex (FlagCli.startColor f) = Some c1
      /\ Hex (FlagCli.endColor f) = Some c2) /\
  (FlagCli.gradientDirection f = "horizontal"
   \/ FlagCli.gradientDirection f = "vertical") /\
  (FlagCli.colorspace f = "rgb" \/ FlagCli.colorspace f = "hcl"
   \/ FlagCli.colorspace f = "lab") /\
  FlagCli.hueDirectionRejected f = false /\
  (0 <= FlagCli.steps f)%Z /\ args = [].
Proof.
  unfold FlagCli.validate.
  destruct (Hex (FlagCli.startColor f)) as [c1 |]; [| discriminate].
  destruct (Hex (FlagCli.endColor f)) as [c2 |]; [| discriminate].
  destruct (negb (FlagCli.gradientDirection f =? "horizontal")%string
            && negb (FlagCli.gradientDirection f =? "vertical")%string)
    eqn:Ed; [discriminate |].
  destruct (negb (FlagCli.colorspace f =? "rgb")%string
            && negb (FlagCli.colorspace f =? "hcl")%string
            && negb (FlagCli.colorspace f =? "lab")%string)
    eqn:Ec; [discriminate |].
  destruct (FlagCli.hueDirectionRejected f); [discriminate |].
  destruct (Z.ltb_spec (FlagCli.steps f) 0) as [| Hsteps]; [discriminate |].
  destruct (0 <? len args)%Z eqn:Hargs; [discriminate |].
  intros _. split; [exists c1, c2; split; reflexivity |].
  split; [| split; [| split; [reflexivity | split; [exact Hsteps |]]]].
  - apply andb_false_iff in Ed.
    destruct Ed as [E | E]; apply negb_false_iff, String.eqb_eq in E; auto.
  - apply andb_false_iff in Ec. destruct Ec as [Ec | E].
    + apply andb_false_iff in Ec.
      destruct Ec as [E | E]; apply negb_false_iff, String.eqb_eq in E; auto.
    + apply negb_false_iff, String.eqb_eq in E. auto.
  - apply no_args. exact Hargs.
Qed.

Hypothesis startOk : exists c, Hex (FlagCli.startColor f) = Some c.
Hypothesis endOk : exists c, Hex (FlagCli.endColor f) = Some c.
Hypothesis spaceOk :
  FlagCli.colorspace f = "rgb" \/ FlagCli.colorspace f = "hcl"
  \/ FlagCli.colorspace f = "lab".

Lemma flag_gradientColor_total (progress : float64) :
  exists colorPart : string, gradientColor progress = inr colorPart.
Proof.
  destruct startOk as [c1 H1]. destruct endOk as [c2 H2].
  unfold FlagCli.gradientColor, FlagCli.getGradientColor. rewrite H1, H2.
  destruct spaceOk as [-> | [-> | ->]]; cbn [String.eqb Ascii.eqb Bool.eqb];
    match goal with
    | |- context [RGB255 ?c] => destruct (RGB255 c) as [[r g] b]
    end; eexists; reflexivity.
Qed.

Lemma flag_renderChar_written (total i n : Z) (char : rune) :
  exists out n', renderChar total i n char = Written out n'.
Proof.
  unfold FlagCli.renderChar.
  destruct (FlagCli.gradientDirection f =? "horizontal")%string.
  - destruct (flag_gradientColor_total
                (applySteps (FlagCli.steps f)
                   (applyInvert (FlagCli.invert f) (unitProgress n total))))
      as [cp E].
    rewrite E. eexists _, _. reflexivity.
  - destruct (flag_gradientColor_total
                (applySteps (FlagCli.steps f)
                   (applyInvert (FlagCli.invert f) (unitProgress i total))))
      as [cp E].
    rewrite E. eexists _, _. reflexivity.
Qed.

Lemma flag_renderChars_written (total i : Z) (line : list rune) (n : Z) :
  exists out n', renderChars total i n line = Written out n'.
Proof.
  revert n. induction line as [| char rest IH]; intros n.
  - eexists _, _. reflexivity.
  - destruct (flag_renderChar_written total i n char) as [o1 [n1 E1]].
    destruct (IH n1) as [o2 [n2 E2]].
    exists (o1 ++ o2)%list, n2. simpl.
    apply (bind_Written o1 o2 n1); assumption.
Qed.

(** The flag variant's empty line under the vertical direction: the spare
    verb of its format puts [%!s(MISSING)] between the color escape and the
    line break. *)
Lemma flag_renderLine_empty (total i n : Z) :
  FlagCli.gradientDirection f = "vertical" -> (1 < total)%Z ->
  exists colorPart : string,
    gradientColor (progressFor i total (FlagCli.invert f) (FlagCli.steps f))
    = inr colorPart /\
    renderLine total i n []
    = Written (runes (ESC ++ "[" ++ colorPart ++ "%!s(MISSING)" ++ LF)) n.
Proof.
  intros Hv Ht.
  destruct (flag_gradientColor_total
              (progressFor i total (FlagCli.invert f) (FlagCli.steps f)))
    as [cp E].
  exists cp. split; [exact E |].
  unfold FlagCli.renderLine, FlagCli.coloredEmptyLine. rewrite Hv.
  destruct (Z.ltb_spec 1 total); [| lia].
  cbn [String.eqb Ascii.eqb Bool.eqb len List.length Z.of_nat Z.eqb andb].
  unfold FlagCli.renderEmptyLine. unfold progressFor in E. rewrite E.
  unfold print. cbn [bind app]. rewrite app_nil_r. reflexivity.
Qed.

Lemma flag_renderLine_written (total i n : Z) (line : list rune) :
  exists out n', renderLine total i n line = Written out n'.
Proof.
  unfold FlagCli.renderLine.
  destruct (FlagCli.coloredEmptyLine f total line) eqn:Ec.
  - unfold FlagCli.renderEmptyLine.
    destruct (flag_gradientColor_total
                (applySteps (FlagCli.steps f)
                   (applyInvert (FlagCli.invert f) (unitProgress i total))))
      as [cp E].
    rewrite E. eexists _, _. reflexivity.
  - destruct (flag_renderChars_written total i line n) as [o1 [n1 E1]].
    rewrite E1. eexists _, _. reflexivity.
Qed.

Lemma flag_renderLines_written (total : Z) (lines : list (list rune))
    (i n : Z) :
  exists out n', renderLines total i n lines = Written out n'.
Proof.
  revert i n. induction lines as [| line rest IH]; intros i n.
  - eexists _, _. reflexivity.
  - destruct (flag_renderLine_written total i n line) as [o1 [n1 E1]].
    destruct (IH (i + 1)%Z n1) as [o2 [n2 E2]].
    exists (o1 ++ o2)%list, n2. simpl.
    apply (bind_Written o1 o2 n1); assumption.
Qed.

End FlagRendering.

(** ** Whole runs *)

Section RunFacts.

Lemma reset_suffix_of_concat (lines : list (list rune)) :
  lines <> [] ->
  exists body : list rune,
    concat (map (fun _ : list rune => runes resetLine) lines)
    = (body ++ runes resetLine)%list.
Proof.
  intros Hne. destruct (exists_last Hne) as [front [final ->]].
  exists (concat (map (fun _ : list rune => runes resetLine) front)).
  rewrite map_app, concat_app. cbn [map concat].
  rewrite app_nil_r. reflexivity.
Qed.

Lemma len_zero_nil {A : Type} (l : list A) : (len l =? 0)%Z = true -> l = [].
Proof.
  destruct l; [reflexivity |]. rewrite len_cons. intros H.
  apply Z.eqb_eq in H. pose proof (len_nonneg l). lia.
Qed.

Lemma len_cons_nonzero {A : Type} (a : A) (l : list A) :
  (len (a :: l) =? 0)%Z = false.
Proof.
  apply Z.eqb_neq. rewrite len_cons. pose proof (len_nonneg l). lia.
Qed.

(** The rendering part of the cobra variant, once the checks passed. *)
Lemma cobra_render_ends_with_reset
    (Hex : string -> option Color)
    (Color_Hcl : Color -> float64 * float64 * float64)
    (Hcl : float64 -> float64 -> float64 -> Color)
    (f : Cobra.Flags) (lines : list (list rune)) :
  (exists c, Hex (Cobra.startColor f) = Some c) ->
  (exists c, Hex (Cobra.endColor f) = Some c) ->
  let o := Cobra.render Hex Color_Hcl Hcl f lines in
  (exists body : list rune, stdout o = (body ++ runes resetLine)%list)
  /\ stderr o = [] /\ exitCode o = 0%Z.
Proof.
  intros H1 H2. unfold Cobra.render.
  destruct lines as [| line rest].
  - cbn. split; [exists []; reflexivity | auto].
  - rewrite len_cons_nonzero.
    match goal with
    | |- context [if ?b then _ else _] => destruct b
    end.
    + cbn [stdout stderr exitCode].
      split; [apply reset_suffix_of_concat; discriminate | auto].
    + match goal with
      | |- context [Cobra.renderLines _ _ _ _ ?t ?i ?n ?l] =>
          destruct (renderLines_written Hex Color_Hcl Hcl f H1 H2 t l i n)
            as [out [n' E]]; rewrite E
      end.
      cbn [stdout stderr exitCode]. split; [exists out; reflexivity | auto].
Qed.

Lemma flag_render_ends_with_reset
    (Hex : string -> option Color)
    (BlendRgb BlendHcl BlendLab : Color -> Color -> float64 -> Color)
    (f : FlagCli.Flags) (lines : list (list rune)) :
  (exists c, Hex (FlagCli.startColor f) = Some c) ->
  (exists c, Hex (FlagCli.endColor f) = Some c) ->
  (FlagCli.colorspace f = "rgb" \/ FlagCli.colorspace f = "hcl"
   \/ FlagCli.colorspace f = "lab") ->
  let o := FlagCli.render Hex BlendRgb BlendHcl BlendLab f lines in
  (exists body : list rune, stdout o = (body ++ runes resetLine)%list)
  /\ stderr o = [] /\ exitCode o = 0%Z.
Proof.
  intros H1 H2 H3. unfold FlagCli.render.
  destruct lines as [| line rest].
  - cbn. split; [exists []; reflexivity | auto].
  - rewrite len_cons_nonzero.
    match goal with
    | |- context [if ?b then _ else _] => destruct b
    end.
    + cbn [stdout stderr exitCode].
      split; [apply reset_suffix_of_concat; discriminate | auto].
    + match goal with
      | |- context [FlagCli.renderLines _ _ _ _ _ ?t ?i ?n ?l] =>
          destruct (flag_renderLines_written Hex BlendRgb BlendHcl BlendLab f
                      H1 H2 H3 t l i n) as [out [n' E]]; rewrite E
      end.
      cbn [stdout stderr exitCode]. split; [exists out; reflexivity | auto].
Qed.

End RunFacts.

(** ** Reset sequences in the output *)

Section ResetFacts.

Lemma runes_cons (a : ascii) (s : string) :
  runes (String a s) = Z.of_nat (nat_of_ascii a) :: runes s.
Proof. reflexivity. Qed.

Lemma runes_app (s t : string) : runes (s ++ t) = (runes s ++ runes t)%list.
Proof.
  induction s as [| a s IH]; [reflexivity |].
  cbn [append]. rewrite !runes_cons, IH. reflexivity.
Qed.

Lemma occurrences_cons (c : rune) (s : list rune) :
  startsWith resetSeq (c :: s) = false ->
  occurrences resetSeq (c :: s) = occurrences resetSeq s.
Proof. intros H. cbn [occurrences]. rewrite H. reflexivity. Qed.

Lemma no_reset_at (c : rune) (s : list rune) :
  c <> 27%Z -> startsWith resetSeq (c :: s) = false.
Proof.
  intros H. change resetSeq with [27; 91; 48; 109]%Z. cbn [startsWith].
  destruct (Z.eqb_spec 27 c); [congruence | reflexivity].
Qed.

Lemma no_reset_at_escape (d : rune) (s : list rune) :
  d <> 91%Z -> startsWith resetSeq (27 :: d :: s)%Z = false.
Proof.
  intros H. change resetSeq with [27; 91; 48; 109]%Z. cbn [startsWith].
  destruct (Z.eqb_spec 91 d); [congruence |].
  apply andb_false_r.
Qed.

Lemma no_reset_at_color (s : list rune) :
  startsWith resetSeq (27 :: 91 :: 51 :: s)%Z = false.
Proof. reflexivity. Qed.

Lemma occurrences_skip (l s : list rune) :
  noEscape l -> occurrences resetSeq (l ++ s) = occurrences resetSeq s.
Proof.
  intros H. induction H as [| c l Hc _ IH]; [reflexivity |].
  cbn [app]. rewrite occurrences_cons by (apply no_reset_at; exact Hc).
  exact IH.
Qed.

Lemma occurrences_resetLine (s : list rune) :
  occurrences resetSeq (runes resetLine ++ s)
  = S (occurrences resetSeq s).
Proof.
  change (runes resetLine) with ([27; 91; 48; 109; 10]%Z).
  change ([27; 91; 48; 109; 10]%Z ++ s)%list
    with (27 :: ([91; 48; 109; 10] ++ s)%list)%Z.
  cbn [occurrences].
  rewrite occurrences_skip by (repeat constructor; discriminate).
  reflexivity.
Qed.

Lemma occurrences_resetLines (lines : list (list rune)) :
  occurrences resetSeq
    (concat (map (fun _ : list rune => runes resetLine) lines))
  = List.length lines.
Proof.
  induction lines as [| line rest IH]; [reflexivity |].
  cbn [map concat List.length].
  rewrite occurrences_resetLine, IH. reflexivity.
Qed.

Lemma leads_resetLine : leads (runes resetLine).
Proof. eexists _, _. split; [reflexivity | left; reflexivity]. Qed.

Lemma resetFree_nil : resetFree [].
Proof. intros s Hs. split; [reflexivity | exact Hs]. Qed.

Lemma resetFree_app (a b : list rune) :
  resetFree a -> resetFree b -> resetFree (a ++ b).
Proof.
  intros Ha Hb s Hs. destruct (Hb s Hs) as [Eb Lb].
  destruct (Ha (b ++ s)%list Lb) as [Ea La].
  rewrite <- app_assoc. split; [congruence | exact La].
Qed.

Lemma resetFree_LF : resetFree (runes LF).
Proof.
  intros s Hs. change (runes LF ++ s)%list with (10 :: s)%Z. split.
  - apply occurrences_cons, no_reset_at. discriminate.
  - eexists _, _. split; [reflexivity | right; reflexivity].
Qed.

(** A color escape and the code point behind it. *)
Lemma resetFree_escape (l : list rune) (char : rune) :
  noEscape l -> resetFree (27 :: 91 :: 51 :: l ++ [char])%Z.
Proof.
  intros Hl s [c [t [-> Hc]]].
  split; [| eexists _, _; split; [reflexivity | left; reflexivity]].
  cbn [app]. rewrite <- app_assoc. cbn [app].
  rewrite occurrences_cons by apply no_reset_at_color.
  change (91 :: 51 :: l ++ char :: c :: t)%Z
    with (([91; 51]%Z ++ l) ++ char :: c :: t)%list.
  rewrite occurrences_skip
    by (apply Forall_app; split;
        [repeat constructor; discriminate | exact Hl]).
  apply occurrences_cons.
  destruct (Z.eq_dec char 27) as [-> | Hne].
  - apply no_reset_at_escape. destruct Hc as [-> | ->]; discriminate.
  - apply no_reset_at. exact Hne.
Qed.

(** A color escape followed by text without escape characters. *)
Lemma resetFree_escape_text (l : list rune) :
  noEscape l -> resetFree (27 :: 91 :: 51 :: l)%Z.
Proof.
  intros Hl s Hs.
  split; [| eexists _, _; split; [reflexivity | left; reflexivity]].
  cbn [app]. rewrite occurrences_cons by apply no_reset_at_color.
  change (91 :: 51 :: l ++ s)%Z with (([91; 51]%Z ++ l) ++ s)%list.
  apply occurrences_skip, Forall_app.
  split; [repeat constructor; discriminate | exact Hl].
Qed.

Lemma wroteResetFree_bind {A B : Type} (m : Emit A) (k : A -> Emit B) :
  wroteResetFree m -> (forall a, wroteResetFree (k a)) ->
  wroteResetFree (bind m k).
Proof.
  intros Hm Hk. destruct m as [out a | out d]; [| exact Hm].
  cbn [bind]. specialize (Hk a).
  destruct (k a); apply resetFree_app; assumption.
Qed.

Lemma noEscape_app (l m : list rune) :
  noEscape l -> noEscape m -> noEscape (l ++ m).
Proof. intros Hl Hm. apply Forall_app. split; assumption. Qed.

Lemma noEscape_digits (d : Decimal.uint) :
  noEscape (runes (NilEmpty.string_of_uint d)).
Proof.
  induction d; cbn [NilEmpty.string_of_uint]; [constructor | ..];
    rewrite runes_cons; (constructor; [discriminate | assumption]).
Qed.

Lemma noEscape_fmtD (n : Z) : noEscape (runes (fmtD n)).
Proof.
  assert (H : forall d : Decimal.uint,
             noEscape (runes (NilZero.string_of_uint d))).
  { intros d. pose proof (noEscape_digits d) as Hd.
    destruct d; try exact Hd.
    cbn. constructor; [discriminate | constructor]. }
  unfold fmtD. destruct (Z.to_int n) as [d | d]; cbn [NilZero.string_of_int].
  - apply H.
  - rewrite runes_cons. constructor; [discriminate | apply H].
Qed.

(** The color part begins with the digit 3 and holds no escape character. *)
Lemma colorPart_shape (r g b : Z) (tail : string) :
  noEscape (runes tail) ->
  exists l : list rune,
    noEscape l /\
    runes (ESC ++ "[" ++ colorPartOf r g b ++ tail) = (27 :: 91 :: 51 :: l)%Z.
Proof.
  intros Ht. unfold colorPartOf.
  exists (runes ("8;2;" ++ (fmtD r ++ ";" ++ fmtD g ++ ";" ++ fmtD b ++ "m")
                 ++ tail)).
  split; [| reflexivity].
  rewrite !runes_app.
  repeat (apply noEscape_app; try apply noEscape_fmtD; try exact Ht);
    cbn; repeat constructor; discriminate.
Qed.

Lemma colorPart_shape_bare (r g b : Z) :
  exists l : list rune,
    noEscape l /\
    runes (ESC ++ "[" ++ colorPartOf r g b) = (27 :: 91 :: 51 :: l)%Z.
Proof.
  unfold colorPartOf.
  exists (runes ("8;2;" ++ fmtD r ++ ";" ++ fmtD g ++ ";" ++ fmtD b ++ "m")).
  split; [| reflexivity].
  rewrite !runes_app.
  repeat (apply noEscape_app; try apply noEscape_fmtD);
    cbn; repeat constructor; discriminate.
Qed.

End ResetFacts.

Section CobraResets.

Variable Hex : string -> option Color.
Variable Color_Hcl : Color -> float64 * float64 * float64.
Variable Hcl : float64 -> float64 -> float64 -> Color.
Variable f : Cobra.Flags.

Lemma cobra_colorPart_form (progress : float64) (colorPart : string) :
  Cobra.getGradientColor Hex Color_Hcl Hcl progress (Cobra.startColor f)
    (Cobra.endColor f) (Cobra.hueDirection f) = inr colorPart ->
  exists r g b : Z, colorPart = colorPartOf r g b.
Proof.
  unfold Cobra.getGradientColor.
  destruct (Hex (Cobra.startColor f)) as [c1 |]; [| discriminate].
  destruct (Hex (Cobra.endColor f)) as [c2 |]; [| discriminate].
  match goal with
  | |- context [RGB255 ?c] => destruct (RGB255 c) as [[r g] b]
  end.
  intros H. injection H as <-. exists r, g, b. reflexivity.
Qed.

Lemma cobra_renderChar_resetFree (total i n : Z) (char : rune) :
  wroteResetFree (Cobra.renderChar Hex Color_Hcl Hcl f total i n char).
Proof.
  unfold Cobra.renderChar.
  destruct (Cobra.gradientDirection f =? "horizontal")%string;
    match goal with
    | |- context [Cobra.getGradientColor ?a ?b ?c ?p ?s ?e ?d] =>
        destruct (Cobra.getGradientColor a b c p s e d) as [err | cp] eqn:E
    end;
    [exact resetFree_nil | | exact resetFree_nil |];
    destruct (cobra_colorPart_form _ _ E) as [r [g [b ->]]];
    destruct (colorPart_shape_bare r g b) as [l [Hl El]];
    cbn [wroteResetFree]; rewrite El;
    apply resetFree_escape; exact Hl.
Qed.

Lemma cobra_renderChars_resetFree (total i : Z) (line : list rune) (n : Z) :
  wroteResetFree (Cobra.renderChars Hex Color_Hcl Hcl f total i n line).
Proof.
  revert n. induction line as [| char rest IH]; intros n.
  - exact resetFree_nil.
  - cbn [Cobra.renderChars]. apply wroteResetFree_bind.
    + apply cobra_renderChar_resetFree.
    + intros a. apply IH.
Qed.

Lemma cobra_renderLine_resetFree (total i n : Z) (line : list rune) :
  wroteResetFree (Cobra.renderLine Hex Color_Hcl Hcl f total i n line).
Proof.
  unfold Cobra.renderLine.
  destruct (Cobra.coloredEmptyLine f total line).
  - apply wroteResetFree_bind; [| intros a; exact resetFree_nil].
    unfold Cobra.renderEmptyLine.
    match goal with
    | |- context [Cobra.getGradientColor ?a ?b ?c ?p ?s ?e ?d] =>
        destruct (Cobra.getGradientColor a b c p s e d) as [err | cp] eqn:E
    end; [exact resetFree_nil |].
    destruct (cobra_colorPart_form _ _ E) as [r [g [b ->]]].
    destruct (colorPart_shape r g b LF
                ltac:(repeat constructor; discriminate)) as [l [Hl El]].
    cbn [wroteResetFree print]. rewrite El.
    apply resetFree_escape_text. exact Hl.
  - apply wroteResetFree_bind; [apply cobra_renderChars_resetFree |].
    intros a. apply wroteResetFree_bind; [| intros b; exact resetFree_nil].
    cbn [negb print wroteResetFree]. apply resetFree_LF.
Qed.

Lemma cobra_renderLines_resetFree (total : Z) (lines : list (list rune))
    (i n : Z) :
  wroteResetFree (Cobra.renderLines Hex Color_Hcl Hcl f total i n lines).
Proof.
  revert i n. induction lines as [| line rest IH]; intros i n.
  - exact resetFree_nil.
  - cbn [Cobra.renderLines]. apply wroteResetFree_bind.
    + apply cobra_renderLine_resetFree.
    + intros a. apply IH.
Qed.

End CobraResets.

Section FlagResets.

Variable Hex : string -> option Color.
Variable BlendRgb BlendHcl BlendLab : Color -> Color -> float64 -> Color.
Variable f : FlagCli.Flags.

Lemma flag_colorPart_form (progress : float64) (colorPart : string) :
  FlagCli.gradientColor Hex BlendRgb BlendHcl BlendLab f progress
  = inr colorPart ->
  exists r g b : Z, colorPart = colorPartOf r g b.
Proof.
  unfold FlagCli.gradientColor, FlagCli.getGradientColor.
  destruct (Hex (FlagCli.startColor f)) as [c1 |]; [| discriminate].
  destruct (Hex (FlagCli.endColor f)) as [c2 |]; [| discriminate].
  destruct (FlagCli.colorspace f =? "rgb")%string;
    [| destruct (FlagCli.colorspace f =? "hcl")%string;
       [| destruct (FlagCli.colorspace f =? "lab")%string;
          [| discriminate]]];
    match goal with
    | |- context [RGB255 ?c] => destruct (RGB255 c) as [[r g] b]
    end; intros H; injection H as <-; exists r, g, b; reflexivity.
Qed.

Lemma flag_renderChar_resetFree (total i n : Z) (char : rune) :
  wroteResetFree
    (FlagCli.renderChar Hex BlendRgb BlendHcl BlendLab f total i n char).
Proof.
  unfold FlagCli.renderChar.
  destruct (FlagCli.gradientDirection f =? "horizontal")%string;
    match goal with
    | |- context [FlagCli.gradientColor ?a ?b ?c ?d ?e ?p] =>
        destruct (FlagCli.gradientColor a b c d e p) as [err | cp] eqn:E
    end;
    [exact resetFree_nil | | exact resetFree_nil |];
    destruct (flag_colorPart_form _ _ E) as [r [g [b ->]]];
    (destruct (colorPart_shape r g b
                 ("%!s(int32=" ++ fmtD char ++ ")" ++ "%!c(MISSING)"))
       as [l [Hl El]];
     [rewrite !runes_app;
      repeat (apply noEscape_app; try apply noEscape_fmtD);
      cbn; repeat constructor; discriminate |]);
    cbn [wroteResetFree]; rewrite El;
    apply resetFree_escape_text; exact Hl.
Qed.

Lemma flag_renderChars_resetFree (total i : Z) (line : list rune) (n : Z) :
  wroteResetFree
    (FlagCli.renderChars Hex BlendRgb BlendHcl BlendLab f total i n line).
Proof.
  revert n. induction line as [| char rest IH]; intros n.
  - exact resetFree_nil.
  - cbn [FlagCli.renderChars]. apply wroteResetFree_bind.
    + apply flag_renderChar_resetFree.
    + intros a. apply IH.
Qed.

Lemma flag_renderLine_resetFree (total i n : Z) (line : list rune) :
  wroteResetFree
    (FlagCli.renderLine Hex BlendRgb BlendHcl BlendLab f total i n line).
Proof.
  unfold FlagCli.renderLine.
  destruct (FlagCli.coloredEmptyLine f total line).
  - apply wroteResetFree_bind; [| intros a; exact resetFree_nil].
    unfold FlagCli.renderEmptyLine.
    match goal with
    | |- context [FlagCli.gradientColor ?a ?b ?c ?d ?e ?p] =>
        destruct (FlagCli.gradientColor a b c d e p) as [err | cp] eqn:E
    end; [exact resetFree_nil |].
    destruct (flag_colorPart_form _ _ E) as [r [g [b ->]]].
    destruct (colorPart_shape r g b ("%!s(MISSING)" ++ LF)
                ltac:(cbn; repeat constructor; discriminate))
      as [l [Hl El]].
    cbn [wroteResetFree print]. rewrite El.
    apply resetFree_escape_text. exact Hl.
  - apply wroteResetFree_bind; [apply flag_renderChars_resetFree |].
    intros a. apply wroteResetFree_bind; [| intros b; exact resetFree_nil].
    cbn [negb print wroteResetFree]. apply resetFree_LF.
Qed.

Lemma flag_renderLines_resetFree (total : Z) (lines : list (list rune))
    (i n : Z) :
  wroteResetFree
    (FlagCli.renderLines Hex BlendRgb BlendHcl BlendLab f total i n lines).
Proof.
  revert i n. induction lines as [| line rest IH]; intros i n.
  - exact resetFree_nil.
  - cbn [FlagCli.renderLines]. apply wroteResetFree_bind.
    + apply flag_renderLine_resetFree.
    + intros a. apply IH.
Qed.

End FlagResets.

(** C9 (amended).  For every input, empty or not, a run whose
    configuration passed the checks writes nothing to standard error, exits
    with code 0, and its output ends with the full-reset sequence and a
    newline; on empty input the output is exactly that.  When the direction
    is vertical or the input holds at least one character, the output is
    what the line loop wrote for the lines, followed by the reset sequence
    and the newline, and this is the only reset sequence in the output.
    Under the horizontal direction with lines that are all empty the output
    is one reset sequence and newline per line, with nothing after the
    last: as many reset sequences as there are lines.  This holds for the
    cobra variant and for the flag variant. *)
Theorem output_ends_with_reset :
  (forall (Hex : string -> option Color)
          (Color_Hcl : Color -> float64 * float64 * float64)
          (Hcl : float64 -> float64 -> float64 -> Color)
          (f : Cobra.Flags) (args : list string),
      Cobra.validate Hex f args = None ->
      forall lines : list (list rune),
        let o := Cobra.Run Hex Color_Hcl Hcl f args (Lines lines) in
        stderr o = [] /\ exitCode o = 0%Z /\
        (exists body : list rune, stdout o = (body ++ runes resetLine)%list) /\
        (lines = [] -> stdout o = runes resetLine) /\
        (Cobra.gradientDirection f = "vertical"
         \/ (0 < Cobra.totalChars lines)%Z ->
         exists (body : list rune) (n : Z),
           Cobra.renderLines Hex Color_Hcl Hcl f (cobraUnits f lines) 0 0 lines
           = Written body n /\
           stdout o = (body ++ runes resetLine)%list /\
           occurrences resetSeq (stdout o) = 1%nat) /\
        (Cobra.gradientDirection f = "horizontal" ->
         Cobra.totalChars lines = 0%Z -> lines <> [] ->
         stdout o = concat (map (fun _ => runes resetLine) lines) /\
         occurrences resetSeq (stdout o) = List.length lines)) /\
  (forall (Hex : string -> option Color)
          (BlendRgb BlendHcl BlendLab : Color -> Color -> float64 -> Color)
          (f : FlagCli.Flags) (args : list string),
      FlagCli.showVersion f = false -> FlagCli.showHelp f = false ->
      FlagCli.validate Hex f args = None ->
      forall lines : list (list rune),
        let o := FlagCli.main Hex BlendRgb BlendHcl BlendLab f args
                   (Lines lines) in
        stderr o = [] /\ exitCode o = 0%Z /\
        (exists body : list rune, stdout o = (body ++ runes resetLine)%list) /\
        (lines = [] -> stdout o = runes resetLine) /\
        (FlagCli.gradientDirection f = "vertical"
         \/ (0 < FlagCli.totalChars lines)%Z ->
         exists (body : list rune) (n : Z),
           FlagCli.renderLines Hex BlendRgb BlendHcl BlendLab f
             (flagUnits f lines) 0 0 lines
           = Written body n /\
           stdout o = (body ++ runes resetLine)%list /\
           occurrences resetSeq (stdout o) = 1%nat) /\
        (FlagCli.gradientDirection f = "horizontal" ->
         FlagCli.totalChars lines = 0%Z -> lines <> [] ->
         stdout o = concat (map (fun _ => runes resetLine) lines) /\
         occurrences resetSeq (stdout o) = List.length lines)).
Proof.
  split.
  - intros Hex Color_Hcl Hcl f args Hv lines o.
    destruct (validate_passed Hex f args Hv) as [[c1 [c2 [H1 H2]]] _].
    assert (S1 : exists c, Hex (Cobra.startColor f) = Some c) by eauto.
    assert (S2 : exists c, Hex (Cobra.endColor f) = Some c) by eauto.
    assert (Eo : o = Cobra.render Hex Color_Hcl Hcl f lines).
    { unfold o, Cobra.Run. rewrite Hv. reflexivity. }
    destruct (cobra_render_ends_with_reset Hex Color_Hcl Hcl f lines S1 S2)
      as [Hbody [Herr Hexit]].
    rewrite Eo.
    split; [exact Herr |]. split; [exact Hexit |]. split; [exact Hbody |].
    split; [intros ->; reflexivity |].
    split.
    + intros Hcase. unfold Cobra.render.
      destruct lines as [| line rest].
      * exists [], 0%Z. repeat split; reflexivity.
      * rewrite len_cons_nonzero. cbv zeta. unfold cobraUnits.
        assert (Hb : ((Cobra.gradientDirection f =? "horizontal")%string
                      && ((if (Cobra.gradientDirection f =? "horizontal")%string
                           then Cobra.totalChars (line :: rest)
                           else len (line :: rest)) =? 0)%Z) = false).
        { destruct (Cobra.gradientDirection f =? "horizontal")%string eqn:Eh;
            [| reflexivity].
          cbn [andb]. apply Z.eqb_neq.
          destruct Hcase as [Hvert | Hpos]; [| lia].
          rewrite Hvert in Eh. discriminate Eh. }
        rewrite Hb.
        match goal with
        | |- context [Cobra.renderLines _ _ _ _ ?t ?i ?n ?l] =>
            pose proof (cobra_renderLines_resetFree Hex Color_Hcl Hcl f
                          t l i n) as Hfree;
            destruct (renderLines_written Hex Color_Hcl Hcl f S1 S2 t l i n)
              as [out [n' E]]; rewrite E in Hfree |- *
        end.
        exists out, n'. cbn [stdout wroteResetFree] in *.
        split; [reflexivity |]. split; [reflexivity |].
        destruct (Hfree (runes resetLine) leads_resetLine) as [-> _].
        reflexivity.
    + intros Hh Hzero Hne. unfold Cobra.render.
      destruct lines as [| line rest]; [contradiction |].
      rewrite len_cons_nonzero. cbv zeta.
      rewrite Hh. cbn [String.eqb Ascii.eqb Bool.eqb].
      rewrite Hzero. cbn [andb Z.eqb stdout].
      split; [reflexivity | apply occurrences_resetLines].
  - intros Hex BlendRgb BlendHcl BlendLab f args Hver Hhelp Hv lines o.
    destruct (flag_validate_passed Hex f args Hv)
      as [[c1 [c2 [H1 H2]]] [_ [Hcs _]]].
    assert (S1 : exists c, Hex (FlagCli.startColor f) = Some c) by eauto.
    assert (S2 : exists c, Hex (FlagCli.endColor f) = Some c) by eauto.
    assert (Eo : o = FlagCli.render Hex BlendRgb BlendHcl BlendLab f lines).
    { unfold o, FlagCli.main. rewrite Hver, Hhelp, Hv. reflexivity. }
    destruct (flag_render_ends_with_reset Hex BlendRgb BlendHcl BlendLab f
                lines S1 S2 Hcs) as [Hbody [Herr Hexit]].
    rewrite Eo.
    split; [exact Herr |]. split; [exact Hexit |]. split; [exact Hbody |].
    split; [intros ->; reflexivity |].
    split.
    + intros Hcase. unfold FlagCli.render.
      destruct lines as [| line rest].
      * exists [], 0%Z. repeat split; reflexivity.
      * rewrite len_cons_nonzero. cbv zeta. unfold flagUnits.
        assert (Hb : ((FlagCli.gradientDirection f =? "horizontal")%string
                      && ((if (FlagCli.gradientDirection f
                               =? "horizontal")%string
                           then FlagCli.totalChars (line :: rest)
                           else len (line :: rest)) =? 0)%Z) = false).
        { destruct (FlagCli.gradientDirection f =? "horizontal")%string
            eqn:Eh; [| reflexivity].
          cbn [andb]. apply Z.eqb_neq.
          destruct Hcase as [Hvert | Hpos]; [| lia].
          rewrite Hvert in Eh. discriminate Eh. }
        rewrite Hb.
        match goal with
        | |- context [FlagCli.renderLines _ _ _ _ _ ?t ?i ?n ?l] =>
            pose proof (flag_renderLines_resetFree Hex BlendRgb BlendHcl
                          BlendLab f t l i n) as Hfree;
            destruct (flag_renderLines_written Hex BlendRgb BlendHcl BlendLab
                        f S1 S2 Hcs t l i n)
              as [out [n' E]]; rewrite E in Hfree |- *
        end.
        exists out, n'. cbn [stdout wroteResetFree] in *.
        split; [reflexivity |]. split; [reflexivity |].
        destruct (Hfree (runes resetLine) leads_resetLine) as [-> _].
        reflexivity.
    + intros Hh Hzero Hne. unfold FlagCli.render.
      destruct lines as [| line rest]; [contradiction |].
      rewrite len_cons_nonzero. cbv zeta.
      rewrite Hh. cbn [String.eqb Ascii.eqb Bool.eqb].
      rewrite Hzero. cbn [andb Z.eqb stdout].
      split; [reflexivity | apply occurrences_resetLines].
Qed.

Lemma output_ends_with_reset_witness :
  (exists (body : list rune) (n : Z),
      Cobra.renderLines Stub.Hex Stub.Color_Hcl Stub.Hcl
        (Cobra.mkFlags "#FF00FF" "#00FFFF" "horizontal" "shortest" 0 false)
        3 0 0 [[72; 27]; []; [91]]%Z
      = Written body n /\
      stdout (Cobra.Run Stub.Hex Stub.Color_Hcl Stub.Hcl
                (Cobra.mkFlags "#FF00FF" "#00FFFF" "horizontal" "shortest"
                   0 false) [] (Lines [[72; 27]; []; [91]]%Z))
      = (body ++ runes resetLine)%list /\
      occurrences resetSeq
        (stdout (Cobra.Run Stub.Hex Stub.Color_Hcl Stub.Hcl
                   (Cobra.mkFlags "#FF00FF" "#00FFFF" "horizontal" "shortest"
                      0 false) [] (Lines [[72; 27]; []; [91]]%Z)))
      = 1%nat) /\
  Cobra.Run Stub.Hex Stub.Color_Hcl Stub.Hcl
    (Cobra.mkFlags "#FF00FF" "#00FFFF" "horizontal" "shortest" 0 false)
    [] (Lines [])
  = mkOutcome (runes resetLine) [] 0.
Proof.
  destruct output_ends_with_reset as [HC _].
  split; [| reflexivity].
  destruct (HC Stub.Hex Stub.Color_Hcl Stub.Hcl
              (Cobra.mkFlags "#FF00FF" "#00FFFF" "horizontal" "shortest"
                 0 false) [] eq_refl [[72; 27]; []; [91]]%Z)
    as [_ [_ [_ [_ [Hloop _]]]]].
  apply Hloop. right. reflexivity.
Defined.

(** C9, as stated, fails.  Under the horizontal direction an input of two
    empty lines is answered with two reset sequences, each with its
    newline, and no further one: the output is not terminated by a single
    reset. *)
Lemma blank_lines_repeat_reset :
  stdout (Cobra.Run Stub.Hex Stub.Color_Hcl Stub.Hcl
            (Cobra.mkFlags "#FF00FF" "#00FFFF" "horizontal" "shortest"
               0 false) [] (Lines [[]; []]))
  = (runes resetLine ++ runes resetLine)%list /\
  occurrences resetSeq
    (stdout (Cobra.Run Stub.Hex Stub.Color_Hcl Stub.Hcl
               (Cobra.mkFlags "#FF00FF" "#00FFFF" "horizontal" "shortest"
                  0 false) [] (Lines [[]; []])))
  = 2%nat /\
  ~ (forall (f : Cobra.Flags) (lines : list (list rune)),
        Cobra.validate Stub.Hex f [] = None ->
        occurrences resetSeq
          (stdout (Cobra.Run Stub.Hex Stub.Color_Hcl Stub.Hcl f []
                     (Lines lines)))
        = 1%nat).
Proof.
  split; [reflexivity |]. split; [reflexivity |].
  intros H.
  specialize (H (Cobra.mkFlags "#FF00FF" "#00FFFF" "horizontal" "shortest"
                   0 false) [[]; []] eq_refl).
  vm_compute in H. discriminate H.
Qed.

(** C10.  Under the horizontal direction, when the input has at least one
    line and every line has zero characters, the run writes exactly one
    reset sequence with its newline per input line and nothing else: no
    color escape (no semicolon occurs in the output) and no further
    terminating reset; it writes nothing to standard error and exits with
    code 0.  This holds for the cobra variant and for the flag variant. *)
Theorem horizontal_blank_lines_reset :
  (forall (Hex : string -> option Color)
          (Color_Hcl : Color -> float64 * float64 * float64)
          (Hcl : float64 -> float64 -> float64 -> Color)
          (f : Cobra.Flags) (args : list string) (lines : list (list rune)),
      Cobra.validate Hex f args = None ->
      Cobra.gradientDirection f = "horizontal" ->
      lines <> [] -> Forall (fun line => line = []) lines ->
      Cobra.Run Hex Color_Hcl Hcl f args (Lines lines)
      = mkOutcome (concat (repeat (runes resetLine) (List.length lines))) [] 0
      /\ ~ In 59%Z (stdout (Cobra.Run Hex Color_Hcl Hcl f args (Lines lines)))) /\
  (forall (Hex : string -> option Color)
          (BlendRgb BlendHcl BlendLab : Color -> Color -> float64 -> Color)
          (f : FlagCli.Flags) (args : list string) (lines : list (list rune)),
      FlagCli.showVersion f = false -> FlagCli.showHelp f = false ->
      FlagCli.validate Hex f args = None ->
      FlagCli.gradientDirection f = "horizontal" ->
      lines <> [] -> Forall (fun line => line = []) lines ->
      FlagCli.main Hex BlendRgb BlendHcl BlendLab f args (Lines lines)
      = mkOutcome (concat (repeat (runes resetLine) (List.length lines))) [] 0
      /\ ~ In 59%Z (stdout (FlagCli.main Hex BlendRgb BlendHcl BlendLab f args
                              (Lines lines)))).
Proof.
  assert (Hrep : forall lines : list (list rune),
             concat (map (fun _ : list rune => runes resetLine) lines)
             = concat (repeat (runes resetLine) (List.length lines))).
  { induction lines as [| line rest IH]; [reflexivity |].
    cbn [map concat List.length repeat]. rewrite IH. reflexivity. }
  assert (Hsemi : forall n : nat,
             ~ In 59%Z (concat (repeat (runes resetLine) n))).
  { induction n as [| n IH]; [intros [] |].
    cbn [repeat concat]. intros H. apply in_app_or in H.
    destruct H as [H | H]; [| exact (IH H)].
    cbn in H. intuition discriminate. }
  split.
  - intros Hex Color_Hcl Hcl f args lines Hv Hh Hne Hall.
    assert (E : Cobra.Run Hex Color_Hcl Hcl f args (Lines lines)
                = mkOutcome
                    (concat (repeat (runes resetLine) (List.length lines)))
                    [] 0).
    { unfold Cobra.Run. rewrite Hv. unfold Cobra.render.
      destruct lines as [| line rest]; [contradiction |].
      rewrite len_cons_nonzero, Hh. cbn [String.eqb Ascii.eqb Bool.eqb].
      unfold Cobra.totalChars. rewrite (fold_len_empty _ _ Hall).
      cbn [Z.eqb andb]. rewrite Hrep. reflexivity. }
    rewrite E. split; [reflexivity | apply Hsemi].
  - intros Hex BlendRgb BlendHcl BlendLab f args lines
           Hver Hhelp Hv Hh Hne Hall.
    assert (E : FlagCli.main Hex BlendRgb BlendHcl BlendLab f args
                  (Lines lines)
                = mkOutcome
                    (concat (repeat (runes resetLine) (List.length lines)))
                    [] 0).
    { unfold FlagCli.main. rewrite Hver, Hhelp, Hv. unfold FlagCli.render.
      destruct lines as [| line rest]; [contradiction |].
      rewrite len_cons_nonzero, Hh. cbn [String.eqb Ascii.eqb Bool.eqb].
      unfold FlagCli.totalChars. rewrite (fold_len_empty _ _ Hall).
      cbn [Z.eqb andb]. rewrite Hrep. reflexivity. }
    rewrite E. split; [reflexivity | apply Hsemi].
Qed.

Lemma horizontal_blank_lines_reset_witness :
  Cobra.Run Stub.Hex Stub.Color_Hcl Stub.Hcl
    (Cobra.mkFlags "#FF00FF" "#00FFFF" "horizontal" "shortest" 0 false) []
    (Lines [[]; []; []])
  = mkOutcome (runes (resetLine ++ resetLine ++ resetLine)) [] 0.
Proof.
  destruct horizontal_blank_lines_reset as [HC _].
  destruct (HC Stub.Hex Stub.Color_Hcl Stub.Hcl
              (Cobra.mkFlags "#FF00FF" "#00FFFF" "horizontal" "shortest" 0 false)
              [] [[]; []; []] eq_refl eq_refl) as [E _].
  - discriminate.
  - repeat constructor.
  - exact E.
Defined.



(** ** Validation of the hue direction *)

Section HueValidation.

(** A value outside the documented three is, in particular, none of them. *)
Lemma unrecognized_neq (s : string) :
  recognizedHueDirection s = false ->
  (s =? "shortest")%string = false /\ (s =? "clockwise")%string = false
  /\ (s =? "counter-clockwise")%string = false.
Proof.
  unfold recognizedHueDirection, oneOf. cbn [existsb]. intros H.
  apply orb_false_iff in H. destruct H as [H1 H].
  apply orb_false_iff in H. destruct H as [H2 H].
  apply orb_false_iff in H. destruct H as [H3 _]. auto.
Qed.

(** Under the HCL and LAB color spaces the flag variant lets no
    unrecognized hue direction through its checks. *)
Lemma flag_validate_rejects_hue
    (Hex : string -> option Color) (f : FlagCli.Flags) (args : list string) :
  FlagCli.colorspace f = "hcl" \/ FlagCli.colorspace f = "lab" ->
  recognizedHueDirection (FlagCli.hueDirection f) = false ->
  exists d : Diag, FlagCli.validate Hex f args = Some d.
Proof.
  intros Hcs Hhue.
  destruct (FlagCli.validate Hex f args) as [d |] eqn:Hv; [eauto |].
  exfalso.
  destruct (flag_validate_passed Hex f args Hv) as [_ [_ [_ [Hrej _]]]].
  destruct (unrecognized_neq _ Hhue) as [E1 [E2 E3]].
  unfold FlagCli.hueDirectionRejected in Hrej. rewrite E1, E2, E3 in Hrej.
  destruct Hcs as [E | E]; rewrite E in Hrej; discriminate Hrej.
Qed.

End HueValidation.




(** * Further properties of the code *)

(** ** The progress mapping as a whole *)

Section ProgressOrder.

Lemma RoundZ_monotone (x y : float64) : x <= y -> (RoundZ x <= RoundZ y)%Z.
Proof.
  intros Hxy. unfold RoundZ.
  destruct (Qle_bool 0 x) eqn:Ex; destruct (Qle_bool 0 y) eqn:Ey.
  - apply Qfloor_resp_le. lra.
  - apply Qle_bool_iff in Ex. apply Qle_bool_false in Ey. lra.
  - apply Qle_bool_false in Ex. apply Qle_bool_iff in Ey.
    assert (H1 : (Qceiling (x - (1 # 2)) <= Qceiling (- (1 # 2)))%Z)
      by (apply Qceiling_resp_le; lra).
    assert (H2 : (Qfloor (1 # 2) <= Qfloor (y + (1 # 2)))%Z)
      by (apply Qfloor_resp_le; lra).
    change (Qceiling (- (1 # 2))) with 0%Z in H1.
    change (Qfloor (1 # 2)) with 0%Z in H2. lia.
  - apply Qceiling_resp_le. lra.
Qed.

Lemma applySteps_monotone (k : Z) (p q : float64) :
  p <= q -> applySteps k p <= applySteps k q.
Proof.
  intros Hpq. unfold applySteps.
  destruct (Z.ltb_spec 0 k) as [Hk | Hk]; [| exact Hpq].
  pose proof (ofInt_pos k Hk) as Hpos.
  unfold Round, Qdiv. apply Qmult_le_compat_r.
  - rewrite <- Zle_Qle. apply RoundZ_monotone.
    apply Qmult_le_compat_r; lra.
  - apply Qinv_le_0_compat. lra.
Qed.

Lemma applySteps_unit (k : Z) (p : float64) :
  0 <= p <= 1 -> 0 <= applySteps k p <= 1.
Proof.
  intros [H0 H1]. unfold applySteps.
  destruct (Z.ltb_spec 0 k) as [Hk | Hk]; [| split; assumption].
  pose proof (ofInt_pos k Hk) as Hpos. unfold ofInt in *.
  assert (Hj : (0 <= RoundZ (p * inject_Z k) <= k)%Z).
  { apply RoundZ_between.
    - change (inject_Z 0) with 0. apply Qmult_le_0_compat; lra.
    - assert (E : p * inject_Z k <= 1 * inject_Z k)
        by (apply Qmult_le_compat_r; lra).
      lra. }
  destruct Hj as [J0 J1]. rewrite Zle_Qle in J0, J1.
  change (inject_Z 0) with 0 in J0. unfold Round.
  split.
  - apply Qle_shift_div_l; lra.
  - apply Qle_shift_div_r; lra.
Qed.

Lemma unitProgress_unit (position totalUnits : Z) :
  (0 <= position < totalUnits)%Z -> 0 <= unitProgress position totalUnits <= 1.
Proof.
  intros [H0 H1]. unfold unitProgress.
  destruct (Z.ltb_spec 1 totalUnits) as [Ht | Ht]; [| lra].
  pose proof (ofInt_pos (totalUnits - 1) ltac:(lia)) as Hpos.
  assert (P0 : inject_Z 0 <= inject_Z position) by (rewrite <- Zle_Qle; lia).
  assert (P1 : inject_Z position <= inject_Z (totalUnits - 1))
    by (rewrite <- Zle_Qle; lia).
  change (inject_Z 0) with 0 in P0. unfold ofInt in *.
  split.
  - apply Qle_shift_div_l; lra.
  - apply Qle_shift_div_r; lra.
Qed.

Lemma unitProgress_monotone (position position' totalUnits : Z) :
  (position <= position')%Z ->
  unitProgress position totalUnits <= unitProgress position' totalUnits.
Proof.
  intros Hp. unfold unitProgress.
  destruct (Z.ltb_spec 1 totalUnits) as [Ht | Ht]; [| lra].
  pose proof (ofInt_pos (totalUnits - 1) ltac:(lia)) as Hpos.
  unfold ofInt, Qdiv in *. apply Qmult_le_compat_r.
  - rewrite <- Zle_Qle. exact Hp.
  - apply Qinv_le_0_compat. lra.
Qed.

End ProgressOrder.

(** X1.  Every unit of a gradient gets a progress inside [0,1]: for a position
    from 0 to totalUnits - 1 the value that reaches [getGradientColor],
    after the optional inversion and the optional quantization, is at
    least 0 and at most 1, for every step count. *)
Theorem progress_in_unit_interval
    (position totalUnits : Z) (invert : bool) (steps : Z) :
  (0 <= position < totalUnits)%Z ->
  0 <= progressFor position totalUnits invert steps <= 1.
Proof.
  intros Hpos. unfold progressFor. apply applySteps_unit.
  pose proof (unitProgress_unit position totalUnits Hpos) as [U0 U1].
  destruct invert; unfold applyInvert; lra.
Qed.

Lemma progress_in_unit_interval_witness :
  0 <= progressFor 2 7 true 4 <= 1.
Proof. apply progress_in_unit_interval. lia. Defined.

(** X2.  The progress follows the position: without inversion a later position
    never gets a smaller progress, with inversion it never gets a larger
    one, whatever the number of units and the step count. *)
Theorem progress_monotone
    (position position' totalUnits steps : Z) :
  (position <= position')%Z ->
  progressFor position totalUnits false steps
    <= progressFor position' totalUnits false steps /\
  progressFor position' totalUnits true steps
    <= progressFor position totalUnits true steps.
Proof.
  intros Hp. pose proof (unitProgress_monotone _ _ totalUnits Hp) as Hu.
  unfold progressFor, applyInvert.
  split; apply applySteps_monotone; lra.
Qed.

Lemma progress_monotone_witness :
  progressFor 1 5 false 3 <= progressFor 4 5 false 3 /\
  progressFor 4 5 true 3 <= progressFor 1 5 true 3.
Proof. apply progress_monotone. lia. Defined.

(** X3.  With at most one gradient unit the progress does not depend on the
    position: it is 0 without inversion and 1 with inversion, for every
    step count, so an inverted single-unit gradient shows the end color. *)
Theorem single_unit_progress
    (position totalUnits : Z) (invert : bool) (steps : Z) :
  (totalUnits <= 1)%Z ->
  progressFor position totalUnits invert steps == (if invert then 1 else 0).
Proof.
  intros Ht. unfold progressFor, unitProgress.
  destruct (Z.ltb_spec 1 totalUnits); [lia |].
  unfold applySteps. destruct (Z.ltb_spec 0 steps) as [Hk | Hk].
  - pose proof (ofInt_neq_0 steps Hk) as Hnz. unfold Round, ofInt in *.
    destruct invert; unfold applyInvert.
    + assert (E : (1 - 0) * inject_Z steps == inject_Z steps) by ring.
      rewrite (RoundZ_comp _ _ E), RoundZ_int. field. exact Hnz.
    + assert (E : 0 * inject_Z steps == inject_Z 0) by ring.
      rewrite (RoundZ_comp _ _ E), RoundZ_int.
      change (inject_Z 0) with 0. field. exact Hnz.
  - destruct invert; unfold applyInvert; ring.
Qed.

Lemma single_unit_progress_witness :
  progressFor 0 1 true 5 == 1 /\ progressFor 0 1 false 5 == 0.
Proof.
  split.
  - apply (single_unit_progress 0 1 true 5). lia.
  - apply (single_unit_progress 0 1 false 5). lia.
Defined.

(** X4.  Quantization is a projection in float64 arithmetic as long as the
    step count is at most 2^50: for a progress in [0,1], quantizing an
    already quantized progress with the same step count changes nothing.
    Beyond that bound it can change the value: with 182589917666985833
    steps the progress of position 73 among 3154 units is moved once more
    by the second quantization. *)
Theorem applySteps_idempotent :
  (forall (steps : Z) (p : float64),
      0 <= p <= 1 -> (0 <= steps <= 2 ^ 50)%Z ->
      Binary64.applySteps steps (Binary64.applySteps steps p)
      == Binary64.applySteps steps p) /\
  ~ Binary64.applySteps 182589917666985833
      (Binary64.applySteps 182589917666985833 (Binary64.unitProgress 73 3154))
    == Binary64.applySteps 182589917666985833 (Binary64.unitProgress 73 3154).
Proof.
  split.
  - intros steps p Hp [Hs0 Hs1].
    destruct (Z.eq_dec steps 0) as [-> | Hne]; [reflexivity |].
    apply quantized_fixed; [exact Hp | lia].
  - intros E. apply Qeq_bool_iff in E. vm_compute in E. discriminate E.
Qed.

Lemma applySteps_idempotent_witness :
  Binary64.applySteps 11 (Binary64.applySteps 11 (Binary64.unitProgress 15 23))
  == Binary64.applySteps 11 (Binary64.unitProgress 15 23).
Proof.
  destruct applySteps_idempotent as [H _].
  apply H; [split; apply Qle_bool_iff; vm_compute; reflexivity | lia].
Defined.

(** ** The progress mapping in binary64 arithmetic *)

Section Binary64Progress.

Import Binary64.

Lemma rnd_unit (x : Q) : 0 <= x <= 1 -> 0 <= rnd x <= 1.
Proof.
  intros [H0 H1]. split; [apply rnd_nonneg; exact H0 |].
  apply (Qle_trans _ (rnd 1)); [apply rnd_monotone; assumption |].
  rewrite rnd_one. apply Qle_refl.
Qed.

Lemma unitProgress_binary64 (position position' totalUnits : Z) :
  (0 <= position <= position')%Z -> (position' < totalUnits <= 2 ^ 53)%Z ->
  0 <= Binary64.unitProgress position totalUnits /\
  Binary64.unitProgress position totalUnits
  <= Binary64.unitProgress position' totalUnits /\
  Binary64.unitProgress position' totalUnits <= 1 /\
  Binary64.unitProgress 0 totalUnits == 0 /\
  ((1 < totalUnits)%Z ->
   Binary64.unitProgress (totalUnits - 1) totalUnits == 1).
Proof.
  intros [Hp0 Hpp] [Hpt Ht]. unfold Binary64.unitProgress.
  destruct (Z.ltb_spec 1 totalUnits) as [H1 | H1];
    [| repeat split; try apply Qle_refl; try discriminate; lia].
  pose proof (inject_Z_pos (totalUnits - 1) ltac:(lia)) as HT.
  assert (Et : ofInt (totalUnits - 1) == inject_Z (totalUnits - 1))
    by (apply ofInt_exact; lia).
  assert (Q0 : inject_Z 0 <= inject_Z position) by (rewrite <- Zle_Qle; lia).
  assert (Q1 : inject_Z position <= inject_Z position')
    by (rewrite <- Zle_Qle; lia).
  assert (Q2 : inject_Z position' <= inject_Z (totalUnits - 1))
    by (rewrite <- Zle_Qle; lia).
  change (inject_Z 0) with 0 in Q0.
  assert (Form : forall n : Z,
             (0 <= n <= totalUnits - 1)%Z ->
             div (ofInt n) (ofInt (totalUnits - 1))
             == rnd (inject_Z n / inject_Z (totalUnits - 1))).
  { intros n [Hn0 Hn1].
    assert (En : ofInt n == inject_Z n) by (apply ofInt_exact; lia).
    assert (Qn : inject_Z 0 <= inject_Z n) by (rewrite <- Zle_Qle; lia).
    change (inject_Z 0) with 0 in Qn.
    unfold div. apply rnd_comp.
    - rewrite En, Et. apply Qle_shift_div_l; lra.
    - rewrite En, Et. reflexivity. }
  rewrite !Form by lia.
  assert (D0 : 0 <= inject_Z position / inject_Z (totalUnits - 1))
    by (apply Qle_shift_div_l; lra).
  assert (D1 : inject_Z position / inject_Z (totalUnits - 1)
               <= inject_Z position' / inject_Z (totalUnits - 1)).
  { unfold Qdiv. apply Qmult_le_compat_r; [exact Q1 |].
    apply Qinv_le_0_compat. lra. }
  assert (D2 : inject_Z position' / inject_Z (totalUnits - 1) <= 1)
    by (apply Qle_shift_div_r; lra).
  split; [apply rnd_nonneg; exact D0 |].
  split; [apply rnd_monotone; assumption |].
  split; [apply rnd_unit; lra |].
  split.
  - apply rnd_zero. unfold Qdiv. change (inject_Z 0) with 0. ring.
  - intros _. apply (Qeq_trans _ (rnd 1)); [| apply rnd_one].
    apply rnd_comp; [apply Qle_shift_div_l; lra | field; lra].
Qed.

Lemma applyInvert_binary64 (invert : bool) (p q : Q) :
  0 <= p -> p <= q -> q <= 1 ->
  (0 <= Binary64.applyInvert invert p <= 1) /\
  (if invert
   then Binary64.applyInvert invert q <= Binary64.applyInvert invert p
   else Binary64.applyInvert invert p <= Binary64.applyInvert invert q) /\
  (p == 0 -> Binary64.applyInvert invert p == (if invert then 1 else 0)) /\
  (p == 1 -> Binary64.applyInvert invert p == (if invert then 0 else 1)).
Proof.
  intros Hp Hpq Hq. unfold Binary64.applyInvert, sub. destruct invert.
  - split; [apply rnd_unit; lra |].
    split; [apply rnd_monotone; lra |]. split; intros E.
    + apply (Qeq_trans _ (rnd 1)); [| apply rnd_one].
      apply rnd_comp; lra.
    + apply rnd_zero. lra.
  - repeat split; try assumption; lra.
Qed.

(** The quantization keeps the order and the two end values. *)
Lemma applySteps_binary64_order (steps : Z) (p q : Q) :
  (0 <= steps < 2 ^ 53)%Z -> 0 <= p -> p <= q -> q <= 1 ->
  Binary64.applySteps steps p <= Binary64.applySteps steps q /\
  (p == 0 -> Binary64.applySteps steps p == 0) /\
  (p == 1 -> Binary64.applySteps steps p == 1).
Proof.
  intros [Hs0 Hs1] Hp Hpq Hq.
  destruct (Z.eq_dec steps 0) as [-> | Hne].
  { unfold Binary64.applySteps. cbn. repeat split; auto. }
  assert (Hk : (0 < steps < 2 ^ 53)%Z) by lia.
  pose proof (inject_Z_pos steps ltac:(lia)) as HK.
  destruct (quantized_level p steps ltac:(lra) Hk)
    as [L [EL [[HL0 HL1] [Ep _]]]].
  destruct (quantized_level q steps ltac:(lra) Hk)
    as [L' [EL' [[HL0' HL1'] [Eq _]]]].
  destruct (product_rounded p steps ltac:(lra) Hk) as [Emp _].
  destruct (product_rounded q steps ltac:(lra) Hk) as [Emq _].
  rewrite (RoundZ_comp _ _ Emp) in EL. rewrite (RoundZ_comp _ _ Emq) in EL'.
  assert (QL0 : 0 <= inject_Z L)
    by (change 0 with (inject_Z 0); rewrite <- Zle_Qle; exact HL0).
  split; [| split].
  - rewrite Ep, Eq. unfold div. apply rnd_monotone.
    + apply Qle_shift_div_l; lra.
    + unfold Qdiv. apply Qmult_le_compat_r; [| apply Qinv_le_0_compat; lra].
      rewrite <- Zle_Qle. rewrite EL, EL'. apply RoundZ_monotone.
      apply rnd_monotone; [apply Qmult_le_0_compat; lra |].
      apply Qmult_le_compat_r; lra.
  - intros E. rewrite Ep.
    assert (E0 : L = 0%Z).
    { rewrite EL.
      rewrite (RoundZ_comp _ 0); [reflexivity |].
      apply rnd_zero. rewrite E. ring. }
    rewrite E0. unfold div. apply rnd_zero.
    unfold Qdiv. change (inject_Z 0) with 0. ring.
  - intros E. rewrite Ep.
    assert (E1 : L = steps).
    { rewrite EL.
      rewrite (RoundZ_comp _ (inject_Z steps)); [apply RoundZ_int |].
      apply (Qeq_trans _ (rnd (inject_Z steps))); [| apply rnd_int; lia].
      apply rnd_comp; [apply Qmult_le_0_compat; lra | rewrite E; ring]. }
    rewrite E1. unfold div. apply (Qeq_trans _ (rnd 1)); [| apply rnd_one].
    apply rnd_comp; [apply Qle_shift_div_l; lra | field; lra].
Qed.

Lemma applySteps_binary64_unit (steps : Z) (p : Q) :
  (0 <= steps < 2 ^ 53)%Z -> 0 <= p <= 1 ->
  0 <= Binary64.applySteps steps p <= 1.
Proof.
  intros [Hs0 Hs1] Hp. destruct (Z.eq_dec steps 0) as [-> | Hne];
    [exact Hp |].
  destruct (quantized_level p steps Hp ltac:(lia))
    as [L [_ [_ [_ [_ [_ Hr]]]]]].
  exact Hr.
Qed.

End Binary64Progress.

(** X18.  The progress mapping in binary64 arithmetic.  With fewer than 2^53
    gradient units and a step count below 2^53, the value that reaches
    [getGradientColor], computed with every operation rounded to binary64,
    lies in [0,1]; a later position never gets a smaller progress without
    inversion and never a larger one with it; the first position gets
    exactly 0 (exactly 1 under inversion) and, with two or more units, the
    last position gets exactly 1 (exactly 0 under inversion). *)
Theorem progress_binary64
    (position position' totalUnits steps : Z) (invert : bool) :
  (0 <= position <= position')%Z -> (position' < totalUnits <= 2 ^ 53)%Z ->
  (0 <= steps < 2 ^ 53)%Z ->
  0 <= Binary64.progressFor position totalUnits invert steps <= 1 /\
  (if invert
   then Binary64.progressFor position' totalUnits invert steps
        <= Binary64.progressFor position totalUnits invert steps
   else Binary64.progressFor position totalUnits invert steps
        <= Binary64.progressFor position' totalUnits invert steps) /\
  Binary64.progressFor 0 totalUnits invert steps
  == (if invert then 1 else 0) /\
  ((1 < totalUnits)%Z ->
   Binary64.progressFor (totalUnits - 1) totalUnits invert steps
   == (if invert then 0 else 1)).
Proof.
  intros Hpos Htot Hsteps. unfold Binary64.progressFor.
  destruct (unitProgress_binary64 position position' totalUnits Hpos Htot)
    as [U0 [U1 [U2 [Ufirst Ulast]]]].
  set (u := Binary64.unitProgress position totalUnits) in *.
  set (u' := Binary64.unitProgress position' totalUnits) in *.
  destruct (applyInvert_binary64 invert u u' U0 U1 U2) as [I0 [I1 _]].
  assert (I0' : 0 <= Binary64.applyInvert invert u' <= 1).
  { destruct (applyInvert_binary64 invert u' u' ltac:(lra) ltac:(lra) U2)
      as [H _]. exact H. }
  split; [apply applySteps_binary64_unit; assumption |].
  split; [| split].
  - destruct invert;
      apply applySteps_binary64_order; try assumption; lra.
  - destruct (unitProgress_binary64 0 0 totalUnits ltac:(lia) ltac:(lia))
      as [F0 [_ [F2 _]]].
    destruct (applyInvert_binary64 invert _ _ F0 (Qle_refl _) F2)
      as [J0 [_ [J1 _]]].
    specialize (J1 Ufirst).
    destruct (applySteps_binary64_order steps _ _ Hsteps
                (proj1 J0) (Qle_refl _) (proj2 J0)) as [_ [A0 A1]].
    destruct invert; [apply A1 | apply A0]; exact J1.
  - intros H1. specialize (Ulast H1).
    destruct (unitProgress_binary64 (totalUnits - 1) (totalUnits - 1)
                totalUnits ltac:(lia) ltac:(lia)) as [F0 [_ [F2 _]]].
    destruct (applyInvert_binary64 invert _ _ F0 (Qle_refl _) F2)
      as [J0 [_ [_ J2]]].
    specialize (J2 Ulast).
    destruct (applySteps_binary64_order steps _ _ Hsteps
                (proj1 J0) (Qle_refl _) (proj2 J0)) as [_ [A0 A1]].
    destruct invert; [apply A0 | apply A1]; exact J2.
Qed.

Lemma progress_binary64_witness :
  0 <= Binary64.progressFor 15 23 false 11 <= 1 /\
  Binary64.progressFor 15 23 false 11 <= Binary64.progressFor 16 23 false 11 /\
  Binary64.progressFor 22 23 false 11 == 1.
Proof.
  destruct (progress_binary64 15 16 23 11 false) as [H1 [H2 [_ H4]]];
    [lia | lia | lia |].
  split; [exact H1 |]. split; [exact H2 |]. apply H4. lia.
Defined.

(** ** The coordinates handed to [colorful.Hcl] *)

Section BlendCoordinates.

(** Every policy yields a delta of less than a full turn on normalized
    hues. *)
Lemma hueDelta_below_turn (hueDirection : string) (h1 h2 : float64) :
  0 <= h1 < 360 -> 0 <= h2 < 360 ->
  -360 < hueDelta hueDirection h1 h2 < 360.
Proof.
  intros Hh1 Hh2. pose proof Hh1 as [A1 A2]. pose proof Hh2 as [B1 B2].
  assert (S : -360 < shortestDelta h1 h2 < 360).
  { destruct (shortestDelta_cases h1 h2)
      as [[C ->] | [[C ->] | [[C1 C2] ->]]]; lra. }
  unfold hueDelta.
  destruct (oneOf hueDirection ["shortest"; "short"; "sh"]); [exact S |].
  destruct (oneOf hueDirection ["clockwise"; "cw"]).
  - pose proof (Mod360_range (h2 - h1 + 360) ltac:(lra)). lra.
  - destruct (oneOf hueDirection
                ["counter-clockwise"; "counterclockwise"; "ccw"]);
      [| exact S].
    pose proof (Mod360_range (h1 - h2 + 360) ltac:(lra)). lra.
Qed.

End BlendCoordinates.

(** X6.  For a progress in [0,1] and hues from the library that are above -360
    degrees, [blendHCLWithDirection] calls [colorful.Hcl] with a hue in
    [0,360), whatever the hue-direction value, and with the chroma and the
    luminance interpolated linearly between those of the two colors. *)
Theorem blend_hue_normalized
    (Color_Hcl : Color -> float64 * float64 * float64)
    (Hcl : float64 -> float64 -> float64 -> Color)
    (c1 c2 : Color) (t : float64) (hueDirection : string)
    (h1 ch1 l1 h2 ch2 l2 : float64) :
  Color_Hcl c1 = (h1, ch1, l1) -> Color_Hcl c2 = (h2, ch2, l2) ->
  -360 <= h1 -> -360 <= h2 -> 0 <= t <= 1 ->
  exists h : float64,
    Cobra.blendHCLWithDirection Color_Hcl Hcl c1 c2 t hueDirection
    = Hcl h (ch1 + t * (ch2 - ch1)) (l1 + t * (l2 - l1)) /\
    0 <= h < 360.
Proof.
  intros E1 E2 H1 H2 [T0 T1].
  unfold Cobra.blendHCLWithDirection. rewrite E1, E2.
  eexists. split; [reflexivity |].
  pose proof (Mod360_range (h1 + 360) ltac:(lra)) as N1.
  pose proof (Mod360_range (h2 + 360) ltac:(lra)) as N2.
  pose proof (hueDelta_below_turn hueDirection _ _ N1 N2) as [D0 D1].
  apply Mod360_range.
  set (n1 := Mod (h1 + 360) 360) in *.
  set (d := hueDelta hueDirection n1 (Mod (h2 + 360) 360)) in *.
  destruct N1 as [N10 N11].
  assert (Hlo : -360 <= t * d).
  { destruct (Qlt_le_dec d 0) as [Hneg | Hpos].
    - assert (t * (- d) <= 1 * (- d)) by (apply Qmult_le_compat_r; lra).
      lra.
    - assert (0 <= t * d) by (apply Qmult_le_0_compat; lra). lra. }
  lra.
Qed.

Lemma blend_hue_normalized_witness :
  exists h : float64,
    Cobra.blendHCLWithDirection Stub.Color_Hcl Stub.Hcl
      (mkColor (1 # 5) (2 # 5) (4 # 5)) (mkColor 1 (1 # 2) 0) (1 # 4)
      "counter-clockwise"
    = Stub.Hcl h ((2 # 5) + (1 # 4) * ((1 # 2) - (2 # 5)))
        ((4 # 5) + (1 # 4) * (0 - (4 # 5))) /\
    0 <= h < 360.
Proof.
  apply (blend_hue_normalized Stub.Color_Hcl Stub.Hcl
           (mkColor (1 # 5) (2 # 5) (4 # 5)) (mkColor 1 (1 # 2) 0) (1 # 4)
           "counter-clockwise" _ _ _ _ _ _ eq_refl eq_refl);
    [vm_compute; discriminate | vm_compute; discriminate
    | split; vm_compute; discriminate].
Defined.

(** ** Positions in the rendering loop of the cobra variant *)

Lemma fold_len_acc (lines : list (list rune)) (acc : Z) :
  fold_left (fun total line => (total + len line)%Z) lines acc
  = (acc + fold_left (fun total line => (total + len line)%Z) lines 0)%Z.
Proof.
  revert acc. induction lines as [| line rest IH]; intros acc.
  - simpl. lia.
  - simpl. rewrite (IH (acc + len line)%Z), (IH (len line)). lia.
Qed.

Lemma totalChars_cons (line : list rune) (rest : list (list rune)) :
  Cobra.totalChars (line :: rest) = (len line + Cobra.totalChars rest)%Z.
Proof. unfold Cobra.totalChars. simpl. apply fold_len_acc. Qed.

Lemma totalChars_app (front back : list (list rune)) :
  Cobra.totalChars (front ++ back)
  = (Cobra.totalChars front + Cobra.totalChars back)%Z.
Proof.
  induction front as [| line rest IH]; [reflexivity |].
  simpl app. rewrite !totalChars_cons, IH. lia.
Qed.

Lemma totalChars_nonneg (lines : list (list rune)) :
  (0 <= Cobra.totalChars lines)%Z.
Proof.
  induction lines as [| line rest IH]; [reflexivity |].
  rewrite totalChars_cons. pose proof (len_nonneg line). lia.
Qed.

Section CobraPositions.

Variable Hex : string -> option Color.
Variable Color_Hcl : Color -> float64 * float64 * float64.
Variable Hcl : float64 -> float64 -> float64 -> Color.
Variable f : Cobra.Flags.

Local Abbreviation gradientColor :=
  (Cobra.getGradientColor Hex Color_Hcl Hcl).
Local Abbreviation renderChar := (Cobra.renderChar Hex Color_Hcl Hcl f).
Local Abbreviation renderChars := (Cobra.renderChars Hex Color_Hcl Hcl f).
Local Abbreviation renderLine := (Cobra.renderLine Hex Color_Hcl Hcl f).
Local Abbreviation renderLines := (Cobra.renderLines Hex Color_Hcl Hcl f).

Hypothesis startOk : exists c, Hex (Cobra.startColor f) = Some c.
Hypothesis endOk : exists c, Hex (Cobra.endColor f) = Some c.

(** One character under the horizontal direction: colored by the running
    count, which it advances by one. *)
Lemma renderChar_horizontal (total i n : Z) (char : rune) :
  Cobra.gradientDirection f = "horizontal" ->
  exists colorPart : string,
    gradientColor (progressFor n total (Cobra.invert f) (Cobra.steps f))
      (Cobra.startColor f) (Cobra.endColor f) (Cobra.hueDirection f)
    = inr colorPart /\
    renderChar total i n char
    = Written (runes (ESC ++ "[" ++ colorPart) ++ [char]) (n + 1)%Z.
Proof.
  intros Hh.
  destruct (gradientColor_total Hex Color_Hcl Hcl f startOk endOk
              (progressFor n total (Cobra.invert f) (Cobra.steps f)))
    as [cp E].
  exists cp. split; [exact E |].
  unfold Cobra.renderChar. rewrite Hh.
  cbn [String.eqb Ascii.eqb Bool.eqb].
  unfold progressFor in E. rewrite E. reflexivity.
Qed.

(** One character under the vertical direction: colored by the line
    index, the running count untouched. *)
Lemma renderChar_vertical (total i n : Z) (char : rune) :
  Cobra.gradientDirection f = "vertical" ->
  exists colorPart : string,
    gradientColor (progressFor i total (Cobra.invert f) (Cobra.steps f))
      (Cobra.startColor f) (Cobra.endColor f) (Cobra.hueDirection f)
    = inr colorPart /\
    renderChar total i n char
    = Written (runes (ESC ++ "[" ++ colorPart) ++ [char]) n.
Proof.
  intros Hv.
  destruct (gradientColor_total Hex Color_Hcl Hcl f startOk endOk
              (progressFor i total (Cobra.invert f) (Cobra.steps f)))
    as [cp E].
  exists cp. split; [exact E |].
  unfold Cobra.renderChar. rewrite Hv.
  cbn [String.eqb Ascii.eqb Bool.eqb].
  unfold progressFor in E. rewrite E. reflexivity.
Qed.

Lemma renderChars_horizontal_count (total i : Z) (line : list rune)
    (n n' : Z) (out : list rune) :
  Cobra.gradientDirection f = "horizontal" ->
  renderChars total i n line = Written out n' -> n' = (n + len line)%Z.
Proof.
  intros Hh. revert n out. induction line as [| char rest IH]; intros n out H.
  - simpl in H. injection H as _ <-. unfold len. simpl. lia.
  - simpl in H.
    destruct (renderChar_horizontal total i n char Hh) as [cp [_ E]].
    rewrite E in H. simpl in H.
    destruct (renderChars total i (n + 1) rest) as [o2 n2 | o2 d] eqn:E2;
      [| discriminate H].
    injection H as _ <-. rewrite (IH _ _ E2), len_cons. lia.
Qed.

(** A whole line under the vertical direction carries one color. *)
Lemma renderChars_vertical (total i n : Z) (line : list rune) :
  Cobra.gradientDirection f = "vertical" ->
  exists colorPart : string,
    gradientColor (progressFor i total (Cobra.invert f) (Cobra.steps f))
      (Cobra.startColor f) (Cobra.endColor f) (Cobra.hueDirection f)
    = inr colorPart /\
    renderChars total i n line
    = Written
        (concat (map (fun char : rune =>
                        (runes (ESC ++ "[" ++ colorPart) ++ [char])%list)
                     line)) n.
Proof.
  intros Hv.
  destruct (gradientColor_total Hex Color_Hcl Hcl f startOk endOk
              (progressFor i total (Cobra.invert f) (Cobra.steps f)))
    as [cp E].
  exists cp. split; [exact E |].
  induction line as [| char rest IH]; [reflexivity |].
  destruct (renderChar_vertical total i n char Hv) as [cp' [E' Ec]].
  rewrite E in E'. injection E' as <-.
  cbn [Cobra.renderChars map concat].
  apply (bind_Written _ _ n); [exact Ec | exact IH].
Qed.

Lemma renderChars_split (total i : Z) (pre : list rune) (char : rune)
    (post : list rune) (n n1 n2 n3 : Z) (o1 o2 o3 : list rune) :
  renderChars total i n pre = Written o1 n1 ->
  renderChar total i n1 char = Written o2 n2 ->
  renderChars total i n2 post = Written o3 n3 ->
  renderChars total i n (pre ++ char :: post) = Written (o1 ++ o2 ++ o3) n3.
Proof.
  revert n o1. induction pre as [| first rest IH]; intros n o1 H1 H2 H3.
  - simpl in H1. injection H1 as <- <-.
    simpl. apply (bind_Written o2 o3 n2); assumption.
  - simpl in H1.
    destruct (renderChar total i n first) as [oa na | oa d] eqn:Ea;
      [| discriminate H1].
    simpl in H1.
    destruct (renderChars total i na rest) as [ob nb | ob d] eqn:Eb;
      [| discriminate H1].
    injection H1 as <- <-.
    pose proof (IH na ob Eb H2 H3) as E.
    simpl. rewrite Ea. simpl. rewrite E. rewrite <- app_assoc. reflexivity.
Qed.

(** A line that is not the colored empty line: its characters, then the
    line break. *)
Lemma renderLine_chars (total i n n' : Z) (line out : list rune) :
  Cobra.coloredEmptyLine f total line = false ->
  renderChars total i n line = Written out n' ->
  renderLine total i n line = Written (out ++ runes LF) n'.
Proof.
  intros Hc H. unfold Cobra.renderLine. rewrite Hc, H.
  cbn [negb bind print]. rewrite !app_nil_r. reflexivity.
Qed.

Lemma renderLines_horizontal_count (total : Z) (lines : list (list rune))
    (i n n' : Z) (out : list rune) :
  Cobra.gradientDirection f = "horizontal" ->
  renderLines total i n lines = Written out n' ->
  n' = (n + Cobra.totalChars lines)%Z.
Proof.
  intros Hh. revert i n out.
  induction lines as [| line rest IH]; intros i n out H.
  - simpl in H. injection H as _ <-. unfold Cobra.totalChars. simpl. lia.
  - simpl in H. unfold Cobra.renderLine, Cobra.coloredEmptyLine in H.
    rewrite Hh in H. cbn [String.eqb Ascii.eqb Bool.eqb andb negb] in H.
    destruct (renderChars total i n line) as [o1 n1 | o1 d] eqn:E1;
      [| discriminate H].
    cbn [bind print] in H.
    destruct (renderLines total (i + 1) n1 rest) as [o2 n2 | o2 d] eqn:E2;
      [| discriminate H].
    injection H as _ <-.
    rewrite (IH _ _ _ E2), (renderChars_horizontal_count _ _ _ _ _ _ Hh E1).
    rewrite totalChars_cons. lia.
Qed.

(** Under the horizontal direction a slice of empty lines is written as
    its line breaks and leaves the character count as it is. *)
Lemma renderLines_blank (total i n : Z) (blanks : list (list rune)) :
  Cobra.gradientDirection f = "horizontal" ->
  Forall (fun line => line = []) blanks ->
  renderLines total i n blanks
  = Written (concat (map (fun _ : list rune => runes LF) blanks)) n.
Proof.
  intros Hh Hblank. revert i.
  induction Hblank as [| line rest -> _ IH]; intros i; [reflexivity |].
  cbn [Cobra.renderLines map concat].
  assert (E : renderLine total i n [] = Written (runes LF) n).
  { unfold Cobra.renderLine, Cobra.coloredEmptyLine. rewrite Hh. reflexivity. }
  rewrite E. cbn [bind]. rewrite IH. reflexivity.
Qed.

End CobraPositions.





(** ** What the hue-direction value changes *)

Section CobraHueDependence.

Variable Hex : string -> option Color.
Variable Color_Hcl : Color -> float64 * float64 * float64.
Variable Hcl : float64 -> float64 -> float64 -> Color.
Variable f : Cobra.Flags.
Variables v w : string.

(** The two values select the same delta for all hues. *)
Hypothesis sameDelta :
  forall h1 h2 : float64, hueDelta v h1 h2 = hueDelta w h1 h2.

Lemma blend_same (c1 c2 : Color) (t : float64) :
  Cobra.blendHCLWithDirection Color_Hcl Hcl c1 c2 t v
  = Cobra.blendHCLWithDirection Color_Hcl Hcl c1 c2 t w.
Proof.
  unfold Cobra.blendHCLWithDirection.
  destruct (Color_Hcl c1) as [[h1 ch1] l1].
  destruct (Color_Hcl c2) as [[h2 ch2] l2].
  rewrite sameDelta. reflexivity.
Qed.

Lemma getGradientColor_same (progress : float64) (startHex endHex : string) :
  Cobra.getGradientColor Hex Color_Hcl Hcl progress startHex endHex v
  = Cobra.getGradientColor Hex Color_Hcl Hcl progress startHex endHex w.
Proof.
  unfold Cobra.getGradientColor.
  destruct (Hex startHex); [| reflexivity].
  destruct (Hex endHex); [| reflexivity].
  rewrite blend_same. reflexivity.
Qed.

Lemma renderChars_same (total i : Z) (line : list rune) (n : Z) :
  Cobra.renderChars Hex Color_Hcl Hcl (cobraWithHue f v) total i n line
  = Cobra.renderChars Hex Color_Hcl Hcl (cobraWithHue f w) total i n line.
Proof.
  revert n. induction line as [| char rest IH]; intros n; [reflexivity |].
  cbn [Cobra.renderChars]. unfold Cobra.renderChar.
  cbn [cobraWithHue Cobra.gradientDirection Cobra.startColor Cobra.endColor
       Cobra.hueDirection Cobra.steps Cobra.invert].
  destruct (Cobra.gradientDirection f =? "horizontal")%string;
    rewrite getGradientColor_same;
    match goal with
    | |- context [Cobra.getGradientColor ?a ?b ?c ?p ?s ?e ?d] =>
        destruct (Cobra.getGradientColor a b c p s e d)
    end; cbn [bind]; rewrite ?IH; reflexivity.
Qed.

Lemma renderLines_same (total : Z) (lines : list (list rune)) (i n : Z) :
  Cobra.renderLines Hex Color_Hcl Hcl (cobraWithHue f v) total i n lines
  = Cobra.renderLines Hex Color_Hcl Hcl (cobraWithHue f w) total i n lines.
Proof.
  revert i n. induction lines as [| line rest IH]; intros i n;
    [reflexivity |].
  cbn [Cobra.renderLines]. unfold Cobra.renderLine.
  change (Cobra.coloredEmptyLine (cobraWithHue f v) total line)
    with (Cobra.coloredEmptyLine (cobraWithHue f w) total line).
  destruct (Cobra.coloredEmptyLine (cobraWithHue f w) total line).
  - unfold Cobra.renderEmptyLine.
    cbn [cobraWithHue Cobra.gradientDirection Cobra.startColor Cobra.endColor
         Cobra.hueDirection Cobra.steps Cobra.invert].
    rewrite getGradientColor_same.
    match goal with
    | |- context [Cobra.getGradientColor ?a ?b ?c ?p ?s ?e ?d] =>
        destruct (Cobra.getGradientColor a b c p s e d)
    end; cbn [bind print]; rewrite ?IH; reflexivity.
  - rewrite renderChars_same.
    destruct (Cobra.renderChars Hex Color_Hcl Hcl (cobraWithHue f w) total i n
                line); cbn [bind print negb]; rewrite ?IH; reflexivity.
Qed.

Lemma Run_same (args : list string) (input : Stdin) :
  Cobra.Run Hex Color_Hcl Hcl (cobraWithHue f v) args input
  = Cobra.Run Hex Color_Hcl Hcl (cobraWithHue f w) args input.
Proof.
  unfold Cobra.Run.
  change (Cobra.validate Hex (cobraWithHue f v) args)
    with (Cobra.validate Hex (cobraWithHue f w) args).
  destruct (Cobra.validate Hex (cobraWithHue f w) args); [reflexivity |].
  destruct input as [lines |]; [| reflexivity].
  unfold Cobra.render.
  cbn [cobraWithHue Cobra.gradientDirection].
  rewrite renderLines_same. reflexivity.
Qed.

End CobraHueDependence.

(** X11.  In the cobra variant the hue-direction value acts only through the
    delta it selects: short and sh give the same run as shortest, cw the
    same as clockwise, counterclockwise and ccw the same as
    counter-clockwise, and every value outside these eight names the same
    run as shortest, on every input. *)
Theorem cobra_hue_direction_names
    (Hex : string -> option Color)
    (Color_Hcl : Color -> float64 * float64 * float64)
    (Hcl : float64 -> float64 -> float64 -> Color)
    (f : Cobra.Flags) (args : list string) (input : Stdin) :
  let run := fun value : string =>
    Cobra.Run Hex Color_Hcl Hcl (cobraWithHue f value) args input in
  run "short" = run "shortest" /\ run "sh" = run "shortest" /\
  run "cw" = run "clockwise" /\
  run "counterclockwise" = run "counter-clockwise" /\
  run "ccw" = run "counter-clockwise" /\
  (forall value : string,
      oneOf value
        ["shortest"; "short"; "sh"; "clockwise"; "cw";
         "counter-clockwise"; "counterclockwise"; "ccw"] = false ->
      run value = run "shortest").
Proof.
  cbv zeta.
  split; [apply Run_same; reflexivity |].
  split; [apply Run_same; reflexivity |].
  split; [apply Run_same; reflexivity |].
  split; [apply Run_same; reflexivity |].
  split; [apply Run_same; reflexivity |].
  intros value Hval. apply Run_same. intros h1 h2.
  rewrite (hueDelta_default _ _ _ Hval). reflexivity.
Qed.

Lemma cobra_hue_direction_names_witness :
  Cobra.Run Stub.Hex Stub.Color_Hcl Stub.Hcl
    (Cobra.mkFlags "#FF0000" "#0000FF" "horizontal" "sideways" 2 true) []
    (Lines [[65; 66; 67]]%Z)
  = Cobra.Run Stub.Hex Stub.Color_Hcl Stub.Hcl
      (Cobra.mkFlags "#FF0000" "#0000FF" "horizontal" "shortest" 2 true) []
      (Lines [[65; 66; 67]]%Z).
Proof.
  destruct (cobra_hue_direction_names Stub.Hex Stub.Color_Hcl Stub.Hcl
              (Cobra.mkFlags "#FF0000" "#0000FF" "horizontal" "sideways"
                 2 true) [] (Lines [[65; 66; 67]]%Z))
    as [_ [_ [_ [_ [_ H]]]]].
  exact (H "sideways" eq_refl).
Defined.

Section FlagHueDependence.

Variable Hex : string -> option Color.
Variable BlendRgb BlendHcl BlendLab : Color -> Color -> float64 -> Color.
Variable f : FlagCli.Flags.
Variable value : string.

Lemma flag_renderChars_hue (total i : Z) (line : list rune) (n : Z) :
  FlagCli.renderChars Hex BlendRgb BlendHcl BlendLab (flagWithHue f value)
    total i n line
  = FlagCli.renderChars Hex BlendRgb BlendHcl BlendLab f total i n line.
Proof.
  revert n. induction line as [| char rest IH]; intros n; [reflexivity |].
  cbn [FlagCli.renderChars].
  change (FlagCli.renderChar Hex BlendRgb BlendHcl BlendLab
            (flagWithHue f value) total i n char)
    with (FlagCli.renderChar Hex BlendRgb BlendHcl BlendLab f total i n char).
  destruct (FlagCli.renderChar Hex BlendRgb BlendHcl BlendLab f total i n
              char); cbn [bind]; rewrite ?IH; reflexivity.
Qed.

Lemma flag_renderLines_hue (total : Z) (lines : list (list rune)) (i n : Z) :
  FlagCli.renderLines Hex BlendRgb BlendHcl BlendLab (flagWithHue f value)
    total i n lines
  = FlagCli.renderLines Hex BlendRgb BlendHcl BlendLab f total i n lines.
Proof.
  revert i n. induction lines as [| line rest IH]; intros i n;
    [reflexivity |].
  cbn [FlagCli.renderLines]. unfold FlagCli.renderLine.
  change (FlagCli.coloredEmptyLine (flagWithHue f value) total line)
    with (FlagCli.coloredEmptyLine f total line).
  change (FlagCli.renderEmptyLine Hex BlendRgb BlendHcl BlendLab
            (flagWithHue f value) total i)
    with (FlagCli.renderEmptyLine Hex BlendRgb BlendHcl BlendLab f total i).
  rewrite flag_renderChars_hue.
  destruct (FlagCli.coloredEmptyLine f total line).
  - destruct (FlagCli.renderEmptyLine Hex BlendRgb BlendHcl BlendLab f total i);
      cbn [bind]; rewrite ?IH; reflexivity.
  - destruct (FlagCli.renderChars Hex BlendRgb BlendHcl BlendLab f total i n
                line); cbn [bind print negb]; rewrite ?IH; reflexivity.
Qed.

Lemma flag_render_hue (lines : list (list rune)) :
  FlagCli.render Hex BlendRgb BlendHcl BlendLab (flagWithHue f value) lines
  = FlagCli.render Hex BlendRgb BlendHcl BlendLab f lines.
Proof.
  unfold FlagCli.render. cbn [flagWithHue FlagCli.gradientDirection].
  rewrite flag_renderLines_hue. reflexivity.
Qed.

End FlagHueDependence.

(** X12.  In the flag variant the hue-direction value never reaches the colors:
    the rendering of every input is the same for every value, and so is
    the whole run whenever the checks treat the two values alike, that
    is, between any two of shortest, clockwise and counter-clockwise, and
    between any two values at all under the color space rgb. *)
Theorem flag_hue_direction_unused
    (Hex : string -> option Color)
    (BlendRgb BlendHcl BlendLab : Color -> Color -> float64 -> Color)
    (f : FlagCli.Flags) (value : string) (args : list string)
    (input : Stdin) :
  (forall lines : list (list rune),
      FlagCli.render Hex BlendRgb BlendHcl BlendLab (flagWithHue f value) lines
      = FlagCli.render Hex BlendRgb BlendHcl BlendLab f lines) /\
  (recognizedHueDirection (FlagCli.hueDirection f) = true ->
   recognizedHueDirection value = true ->
   FlagCli.main Hex BlendRgb BlendHcl BlendLab (flagWithHue f value) args input
   = FlagCli.main Hex BlendRgb BlendHcl BlendLab f args input) /\
  (FlagCli.colorspace f = "rgb" ->
   FlagCli.main Hex BlendRgb BlendHcl BlendLab (flagWithHue f value) args input
   = FlagCli.main Hex BlendRgb BlendHcl BlendLab f args input).
Proof.
  assert (Hmain : FlagCli.hueDirectionRejected (flagWithHue f value) = false ->
                  FlagCli.hueDirectionRejected f = false ->
                  FlagCli.main Hex BlendRgb BlendHcl BlendLab
                    (flagWithHue f value) args input
                  = FlagCli.main Hex BlendRgb BlendHcl BlendLab f args input).
  { intros Hrej Hrej'. unfold FlagCli.main, FlagCli.validate.
    rewrite Hrej, Hrej'.
    cbn [flagWithHue FlagCli.showVersion FlagCli.showHelp FlagCli.startColor
         FlagCli.endColor FlagCli.gradientDirection FlagCli.colorspace
         FlagCli.steps FlagCli.hueDirection].
    destruct input as [lines |]; [| reflexivity].
    rewrite flag_render_hue. reflexivity. }
  assert (Hrec : forall s : string,
             recognizedHueDirection s = true ->
             negb (s =? "shortest")%string && negb (s =? "clockwise")%string
             && negb (s =? "counter-clockwise")%string = false).
  { intros s. unfold recognizedHueDirection, oneOf. cbn [existsb].
    destruct (s =? "shortest")%string; [reflexivity |].
    destruct (s =? "clockwise")%string; [reflexivity |].
    destruct (s =? "counter-clockwise")%string; [reflexivity | discriminate]. }
  split; [intros lines; apply flag_render_hue |]. split.
  - intros Hf Hv. apply Hmain; unfold FlagCli.hueDirectionRejected;
      cbn [flagWithHue FlagCli.colorspace FlagCli.hueDirection].
    + rewrite (Hrec _ Hv). apply andb_false_r.
    + rewrite (Hrec _ Hf). apply andb_false_r.
  - intros Hcs. apply Hmain; unfold FlagCli.hueDirectionRejected;
      cbn [flagWithHue FlagCli.colorspace FlagCli.hueDirection];
      rewrite Hcs; reflexivity.
Qed.

Lemma flag_hue_direction_unused_witness :
  FlagCli.main Stub.Hex Stub.BlendRgb Stub.BlendRgb Stub.BlendRgb
    (FlagCli.mkFlags false false "#FF0000" "#0000FF" "horizontal" "hcl"
       "clockwise" 0 false) [] (Lines [[65; 66]]%Z)
  = FlagCli.main Stub.Hex Stub.BlendRgb Stub.BlendRgb Stub.BlendRgb
      (FlagCli.mkFlags false false "#FF0000" "#0000FF" "horizontal" "hcl"
         "counter-clockwise" 0 false) [] (Lines [[65; 66]]%Z).
Proof.
  destruct (flag_hue_direction_unused Stub.Hex Stub.BlendRgb Stub.BlendRgb
              Stub.BlendRgb
              (FlagCli.mkFlags false false "#FF0000" "#0000FF" "horizontal"
                 "hcl" "counter-clockwise" 0 false)
              "clockwise" [] (Lines [[65; 66]]%Z)) as [_ [H _]].
  exact (H eq_refl eq_refl).
Defined.

(** ** What the flag variant writes for a character *)

(** Output made of ASCII code points only. *)
Definition asciiOnly (out : list rune) : Prop :=
  Forall (fun r => (0 <= r < 128)%Z) out.

Section AsciiFacts.

Lemma asciiOnly_app (l m : list rune) :
  asciiOnly l -> asciiOnly m -> asciiOnly (l ++ m).
Proof. intros Hl Hm. apply Forall_app. split; assumption. Qed.

Lemma asciiOnly_digits (d : Decimal.uint) :
  asciiOnly (runes (NilEmpty.string_of_uint d)).
Proof.
  induction d; cbn [NilEmpty.string_of_uint]; [constructor | ..];
    rewrite runes_cons; (constructor; [vm_compute; split;
                                        [discriminate | reflexivity]
                                      | assumption]).
Qed.

Lemma asciiOnly_fmtD (n : Z) : asciiOnly (runes (fmtD n)).
Proof.
  assert (H : forall d : Decimal.uint,
             asciiOnly (runes (NilZero.string_of_uint d))).
  { intros d. pose proof (asciiOnly_digits d) as Hd.
    destruct d; try exact Hd.
    cbn. constructor; [lia | constructor]. }
  unfold fmtD. destruct (Z.to_int n) as [d | d]; cbn [NilZero.string_of_int].
  - apply H.
  - rewrite runes_cons.
    constructor; [vm_compute; split; [discriminate | reflexivity] | apply H].
Qed.

Lemma asciiOnly_colorPartOf (r g b : Z) : asciiOnly (runes (colorPartOf r g b)).
Proof.
  unfold colorPartOf. rewrite !runes_app.
  repeat (apply asciiOnly_app; try apply asciiOnly_fmtD);
    cbn; repeat constructor; lia.
Qed.

(** A fragment of the loop that has written ASCII only, whether it went on
    or exited. *)
Definition wroteAscii {A : Type} (m : Emit A) : Prop :=
  match m with
  | Written out _ => asciiOnly out
  | Died out _ => asciiOnly out
  end.

Lemma wroteAscii_bind {A B : Type} (m : Emit A) (k : A -> Emit B) :
  wroteAscii m -> (forall a, wroteAscii (k a)) -> wroteAscii (bind m k).
Proof.
  intros Hm Hk. destruct m as [out a | out d]; [| exact Hm].
  cbn [bind]. specialize (Hk a).
  destruct (k a); apply asciiOnly_app; assumption.
Qed.

End AsciiFacts.

Section FlagAscii.

Variable Hex : string -> option Color.
Variable BlendRgb BlendHcl BlendLab : Color -> Color -> float64 -> Color.
Variable f : FlagCli.Flags.

Lemma flag_colorPart_ascii (progress : float64) (colorPart : string) :
  FlagCli.gradientColor Hex BlendRgb BlendHcl BlendLab f progress
  = inr colorPart ->
  asciiOnly (runes colorPart).
Proof.
  unfold FlagCli.gradientColor, FlagCli.getGradientColor.
  destruct (Hex (FlagCli.startColor f)) as [c1 |]; [| discriminate].
  destruct (Hex (FlagCli.endColor f)) as [c2 |]; [| discriminate].
  destruct (FlagCli.colorspace f =? "rgb")%string;
    [| destruct (FlagCli.colorspace f =? "hcl")%string;
       [| destruct (FlagCli.colorspace f =? "lab")%string;
          [| discriminate]]];
    match goal with
    | |- context [RGB255 ?c] => destruct (RGB255 c) as [[r g] b]
    end; intros H; injection H as <-; apply asciiOnly_colorPartOf.
Qed.

Lemma flag_renderChar_ascii (total i n : Z) (char : rune) :
  wroteAscii
    (FlagCli.renderChar Hex BlendRgb BlendHcl BlendLab f total i n char).
Proof.
  unfold FlagCli.renderChar.
  destruct (FlagCli.gradientDirection f =? "horizontal")%string;
    match goal with
    | |- context [FlagCli.gradientColor ?a ?b ?c ?d ?e ?p] =>
        destruct (FlagCli.gradientColor a b c d e p) as [err | cp] eqn:E
    end;
    [exact (Forall_nil _) | | exact (Forall_nil _) |];
    cbn [wroteAscii]; rewrite !runes_app;
    repeat (apply asciiOnly_app);
    try apply asciiOnly_fmtD;
    try apply (flag_colorPart_ascii _ _ E);
    cbn; repeat constructor; lia.
Qed.

Lemma flag_renderChars_ascii (total i : Z) (line : list rune) (n : Z) :
  wroteAscii
    (FlagCli.renderChars Hex BlendRgb BlendHcl BlendLab f total i n line).
Proof.
  revert n. induction line as [| char rest IH]; intros n.
  - exact (Forall_nil _).
  - cbn [FlagCli.renderChars]. apply wroteAscii_bind.
    + apply flag_renderChar_ascii.
    + intros a. apply IH.
Qed.

Lemma flag_renderLine_ascii (total i n : Z) (line : list rune) :
  wroteAscii
    (FlagCli.renderLine Hex BlendRgb BlendHcl BlendLab f total i n line).
Proof.
  unfold FlagCli.renderLine.
  destruct (FlagCli.coloredEmptyLine f total line).
  - apply wroteAscii_bind; [| intros a; exact (Forall_nil _)].
    unfold FlagCli.renderEmptyLine.
    match goal with
    | |- context [FlagCli.gradientColor ?a ?b ?c ?d ?e ?p] =>
        destruct (FlagCli.gradientColor a b c d e p) as [err | cp] eqn:E
    end; [exact (Forall_nil _) |].
    cbn [wroteAscii print]. rewrite !runes_app.
    repeat (apply asciiOnly_app);
      try apply (flag_colorPart_ascii _ _ E);
      cbn; repeat constructor; lia.
  - apply wroteAscii_bind; [apply flag_renderChars_ascii |].
    intros a. apply wroteAscii_bind; [| intros b; exact (Forall_nil _)].
    cbn. repeat constructor; lia.
Qed.

Lemma flag_renderLines_ascii (total : Z) (lines : list (list rune)) (i n : Z) :
  wroteAscii
    (FlagCli.renderLines Hex BlendRgb BlendHcl BlendLab f total i n lines).
Proof.
  revert i n. induction lines as [| line rest IH]; intros i n.
  - exact (Forall_nil _).
  - cbn [FlagCli.renderLines]. apply wroteAscii_bind.
    + apply flag_renderLine_ascii.
    + intros a. apply IH.
Qed.

End FlagAscii.



(** ** The two ends of the unit progress *)

Lemma unitProgress_first (totalUnits : Z) : unitProgress 0 totalUnits == 0.
Proof.
  unfold unitProgress. destruct (Z.ltb_spec 1 totalUnits); [| reflexivity].
  pose proof (ofInt_neq_0 (totalUnits - 1) ltac:(lia)) as Hnz.
  unfold ofInt in *. change (inject_Z 0) with 0. field. exact Hnz.
Qed.

Lemma unitProgress_last (totalUnits : Z) :
  (1 < totalUnits)%Z -> unitProgress (totalUnits - 1) totalUnits == 1.
Proof.
  intros Ht. unfold unitProgress.
  destruct (Z.ltb_spec 1 totalUnits); [| lia].
  pose proof (ofInt_neq_0 (totalUnits - 1) ltac:(lia)) as Hnz.
  unfold ofInt in *. field. exact Hnz.
Qed.

(** ** The two ends of a gradient in the cobra variant *)

Section ProgressEnds.

Lemma applySteps_int (steps j : Z) (p : float64) :
  p == inject_Z j -> (j = 0 \/ j = 1)%Z -> applySteps steps p == inject_Z j.
Proof.
  intros E Hj. unfold applySteps.
  destruct (Z.ltb_spec 0 steps) as [Hk | Hk]; [| exact E].
  pose proof (ofInt_neq_0 steps Hk) as Hnz. unfold Round, ofInt in *.
  assert (E' : p * inject_Z steps == inject_Z (j * steps)).
  { rewrite E, inject_Z_mult. reflexivity. }
  rewrite (RoundZ_comp _ _ E'), RoundZ_int, inject_Z_mult.
  field. exact Hnz.
Qed.

(** The first position: 0 without inversion, 1 with it. *)
Lemma progressFor_first (totalUnits : Z) (invert : bool) (steps : Z) :
  progressFor 0 totalUnits invert steps
  == inject_Z (if invert then 1 else 0).
Proof.
  unfold progressFor. pose proof (unitProgress_first totalUnits) as E.
  destruct invert; unfold applyInvert.
  - apply applySteps_int; [rewrite E; reflexivity | right; reflexivity].
  - apply applySteps_int; [rewrite E; reflexivity | left; reflexivity].
Qed.

(** The last position of two or more: 1 without inversion, 0 with it. *)
Lemma progressFor_last (totalUnits : Z) (invert : bool) (steps : Z) :
  (1 < totalUnits)%Z ->
  progressFor (totalUnits - 1) totalUnits invert steps
  == inject_Z (if invert then 0 else 1).
Proof.
  intros Ht. unfold progressFor.
  pose proof (unitProgress_last totalUnits Ht) as E.
  destruct invert; unfold applyInvert.
  - apply applySteps_int; [rewrite E; reflexivity | left; reflexivity].
  - apply applySteps_int; [rewrite E; reflexivity | right; reflexivity].
Qed.

End ProgressEnds.

Lemma sameHue_unMod (x : float64) : sameHue x (Mod x 360).
Proof.
  exists (trunc (x / 360)). unfold Mod. ring.
Qed.

Section CobraEnds.

Variable Hex : string -> option Color.
Variable Color_Hcl : Color -> float64 * float64 * float64.
Variable Hcl : float64 -> float64 -> float64 -> Color.

Hypothesis cyclic : hueCyclic Hcl.

(** Equal progress values blend to equal colors. *)
Lemma blend_comp (c1 c2 : Color) (t t' : float64) (hueDirection : string) :
  t == t' ->
  Ceq (Cobra.blendHCLWithDirection Color_Hcl Hcl c1 c2 t hueDirection)
      (Cobra.blendHCLWithDirection Color_Hcl Hcl c1 c2 t' hueDirection).
Proof.
  intros E. unfold Cobra.blendHCLWithDirection.
  destruct (Color_Hcl c1) as [[h1 ch1] l1].
  destruct (Color_Hcl c2) as [[h2 ch2] l2].
  apply cyclic; [| rewrite E; reflexivity | rewrite E; reflexivity].
  apply (sameHue_trans _ _ _ (sameHue_Mod _)).
  match goal with
  | |- sameHue ?a (Mod ?b 360) =>
      apply (sameHue_trans _ b);
      [apply sameHue_eq; rewrite E; reflexivity | apply sameHue_unMod]
  end.
Qed.

(** The escape for a progress of exactly 0 or exactly 1. *)
Lemma gradientColor_end (progress : float64) (startHex endHex dir : string)
    (c1 c2 : Color) (atEnd : bool) :
  Hex startHex = Some c1 -> Hex endHex = Some c2 ->
  roundTrips Color_Hcl Hcl c1 -> roundTrips Color_Hcl Hcl c2 ->
  progress == inject_Z (if atEnd then 1 else 0) ->
  Cobra.getGradientColor Hex Color_Hcl Hcl progress startHex endHex dir
  = inr (colorPartOf3 (RGB255 (Clamped (if atEnd then c2 else c1)))).
Proof.
  intros H1 H2 T1 T2 E.
  rewrite (gradientColor_ok Hex Color_Hcl Hcl _ _ _ _ c1 c2 H1 H2).
  destruct (blend_endpoints Color_Hcl Hcl c1 c2 dir cyclic T1 T2) as [E0 E1].
  f_equal. f_equal. apply RGB255_Clamped_comp.
  destruct atEnd.
  - apply (Ceq_trans _ _ _ (blend_comp c1 c2 _ 1 dir E)). exact E1.
  - apply (Ceq_trans _ _ _ (blend_comp c1 c2 _ 0 dir E)). exact E0.
Qed.

End CobraEnds.





